(** * GoBuff: a reusable byte buffer and a size-class buffer pool

    Shallow embedding of [buffer.go] and [pool.go].

    - Go's [int] and [int64] are 64-bit two's complement integers: they are
      modelled as [Z], and every addition that can leave the range is wrapped
      by [wrap64].
    - A byte slice is a backing array together with its length; the capacity
      is the length of the array.  Every slice of a [Buffer] starts at offset
      zero of its array, as all re-slicings in [buffer.go] are [b.buf[:k]].
    - A run-time panic (slice bounds, [make] with a size the language
      rejects) is [None].
    - Whether the runtime grants an allocation that the language accepts
      depends on the machine: [make] also panics above the allocation limit
      of the runtime, and the program ends when memory is exhausted.  The
      embedding follows the runs in which every such allocation is granted:
      [make_slice] and [NewBuffer] give storage for every legal size.  A
      property of an operation that allocates for a size given as a number
      is therefore stated for the runs that return; a return is asserted
      only where no storage is allocated, or where the size is that of data
      already in memory.
    - A [sync.Pool] is the list of the objects it holds; which of them [Get]
      hands out (or whether it misses and calls [New]) is an explicit choice
      argument. *)

From Stdlib Require Import ZArith List Lia Bool Sorted.
From Stdlib Require Import Strings.String Strings.Byte.
From Stdlib Require Import Floats.
From stdpp Require Import base option list sorting.

Local Open Scope Z_scope.

(** ** Machine integers *)

Definition max_int : Z := 2 ^ 63 - 1.
Definition min_int : Z := - 2 ^ 63.

(** Two's complement wrap-around of a 64-bit signed integer. *)
Definition wrap64 (z : Z) : Z := (z + 2 ^ 63) mod 2 ^ 64 - 2 ^ 63.

Definition in_int (z : Z) : Prop := min_int <= z <= max_int.

(** ** Errors *)

Inductive error : Type :=
| EOF
| ErrShortWrite
| ErrOther (code : Z).

(** ** Byte slices *)

Record slice : Type := mkSlice {
  s_arr : list byte;   (* the backing array; its length is the capacity *)
  s_len : Z            (* the length of the slice *)
}.

Definition len (s : slice) : Z := s_len s.
Definition cap (s : slice) : Z := Z.of_nat (length (s_arr s)).

(** The elements of the slice, [s[0:len(s)]]. *)
Definition elems (s : slice) : list byte := take (Z.to_nat (s_len s)) (s_arr s).

(** [make([]byte, l, c)]: panics unless [0 <= l <= c].  The storage is
    what the program gets when the runtime grants the allocation; the
    refusal of a legal size by the runtime is not modelled. *)
Definition make_slice (l c : Z) : option slice :=
  if (0 <=? l) && (l <=? c)
  then Some (mkSlice (replicate (Z.to_nat c) x00) l)
  else None.

(** [s[:k]]: panics unless [0 <= k <= cap(s)]. *)
Definition reslice (s : slice) (k : Z) : option slice :=
  if (0 <=? k) && (k <=? cap s) then Some (mkSlice (s_arr s) k) else None.

(** [copy(dst, src)] on the array under [dst], where [dst] starts at offset
    [off] of the array and has [dlen] elements: the first
    [min dlen (length src)] bytes of [src] overwrite the array from [off].
    The source is read before anything is written (memmove). *)
Definition copy_at (a : list byte) (off dlen : Z) (src : list byte) : list byte * Z :=
  let n := Z.min dlen (Z.of_nat (length src)) in
  (take (Z.to_nat off) a ++ take (Z.to_nat n) src ++ drop (Z.to_nat (off + n)) a, n).

(** [append(s, p...)].  With room in the array the bytes are written in
    place.  Otherwise the runtime's [growslice] is entered: it panics when
    the new length overflows, and else moves the elements to a new array,
    whose capacity the language leaves open (any capacity that fits; the
    exact fit is taken here).  After [grow] only the in-place case and the
    overflow panic occur, see [append_after_grow]. *)
Definition append (s : slice) (p : list byte) : option slice :=
  let n := Z.of_nat (length p) in
  if len s + n <=? cap s
  then Some (mkSlice (fst (copy_at (s_arr s) (len s) n p)) (len s + n))
  else if wrap64 (len s + n) <? 0 then None
  else Some (mkSlice (elems s ++ p) (len s + n)).

(** ** Buffer (buffer.go) *)

Record Buffer : Type := mkBuffer {
  buf : slice;
  r : Z
}.

(** [NewBuffer(initialCap)], the allocation being granted. *)
Definition NewBuffer (initialCap : Z) : Buffer :=
  let initialCap := if initialCap <? 0 then 0 else initialCap in
  mkBuffer (mkSlice (replicate (Z.to_nat initialCap) x00) 0) 0.

(** [b.buf[b.r:]], the unread bytes.  In every state with [r <= len] (see
    [buffer_wf]) the bounds check of the slice expression passes. *)
Definition Bytes (b : Buffer) : list byte :=
  drop (Z.to_nat (r b)) (elems (buf b)).

Definition UnsafeBytes (b : Buffer) : list byte := elems (buf b).

Definition Len (b : Buffer) : Z := len (buf b) - r b.

Definition Cap (b : Buffer) : Z := cap (buf b).

Definition Reset (b : Buffer) : Buffer :=
  mkBuffer (mkSlice (s_arr (buf b)) 0) 0.

Definition nextPowerOfTwo (n : Z) : Z :=
  if n <=? 0 then 0 else
  let n := wrap64 (n - 1) in
  let n := Z.lor n (Z.shiftr n 1) in
  let n := Z.lor n (Z.shiftr n 2) in
  let n := Z.lor n (Z.shiftr n 4) in
  let n := Z.lor n (Z.shiftr n 8) in
  let n := Z.lor n (Z.shiftr n 16) in
  let n := Z.lor n (Z.shiftr n 32) in
  if n <? 0 then 0 else wrap64 (n + 1).

(** The drain check shared by most operations:
    [if b.r >= len(b.buf) { b.Reset() }]. *)
Definition collapse (b : Buffer) : Buffer :=
  if len (buf b) <=? r b then Reset b else b.

Definition grow (n : Z) (b : Buffer) : option Buffer :=
  if n <=? 0 then Some b else
  let b := collapse b in
  if n <=? cap (buf b) - len (buf b) then Some b else
  let unread := len (buf b) - r b in
  if (0 <? r b) && (wrap64 (unread + n) <=? cap (buf b)) then
    let a := fst (copy_at (s_arr (buf b)) 0 unread (Bytes b)) in
    Some (mkBuffer (mkSlice a unread) 0)
  else
    let required := wrap64 (unread + n) in
    let newCap := nextPowerOfTwo required in
    newBuf ← make_slice unread newCap;
    let a := fst (copy_at (s_arr newBuf) 0 (len newBuf) (Bytes b)) in
    Some (mkBuffer (mkSlice a (len newBuf)) 0).

Definition Grow (n : Z) (b : Buffer) : option Buffer :=
  if 0 <? n then grow n b else Some b.

(** [Reserve] returns the buffer and the reserved view [b.buf[prev:]]
    ([nil] when [n <= 0]). *)
Definition Reserve (n : Z) (b : Buffer) : option (Buffer * list byte) :=
  if n <=? 0 then Some (b, []) else
  b ← grow n b;
  let prev := len (buf b) in
  s ← reslice (buf b) (wrap64 (prev + n));
  Some (mkBuffer s (r b), drop (Z.to_nat prev) (elems s)).

Definition Write (p : list byte) (b : Buffer) : option (Buffer * (Z * option error)) :=
  if Z.of_nat (length p) =? 0 then Some (b, (0, None)) else
  let b := collapse b in
  b ← grow (Z.of_nat (length p)) b;
  s ← append (buf b) p;
  Some (mkBuffer s (r b), (Z.of_nat (length p), None)).

Definition WriteByte (v : byte) (b : Buffer) : option (Buffer * option error) :=
  let b := collapse b in
  b ← grow 1 b;
  s ← append (buf b) [v];
  Some (mkBuffer s (r b), None).

(** A Go string is a sequence of bytes. *)
Definition WriteString (s : list byte) (b : Buffer) : option (Buffer * (Z * option error)) :=
  if Z.of_nat (length s) =? 0 then Some (b, (0, None)) else
  let b := collapse b in
  b ← grow (Z.of_nat (length s)) b;
  s' ← append (buf b) s;
  Some (mkBuffer s' (r b), (Z.of_nat (length s), None)).

(** [Read(p)]: [p] is the destination as the caller passes it; the result
    carries the destination after the copy, the count and the error. *)
Definition Read (p : list byte) (b : Buffer) : Buffer * list byte * (Z * option error) :=
  if Z.of_nat (length p) =? 0 then (b, p, (0, None)) else
  if len (buf b) <=? r b then (Reset b, p, (0, Some EOF)) else
  let '(p', n) := copy_at p 0 (Z.of_nat (length p)) (Bytes b) in
  let b := mkBuffer (buf b) (r b + n) in
  (collapse b, p', (n, None)).

(** An [io.Writer] as [WriteTo] sees it: one call of [w.Write(p)], answered
    by a count and an error. *)
Definition Writer : Type := list byte -> Z * option error.

(** The contract of [io.Writer]: [0 <= n <= len(p)]. *)
Definition writer_ok (w : Writer) : Prop :=
  forall p, 0 <= fst (w p) <= Z.of_nat (length p).

(** [WriteTo(w)]: besides the buffer, the count and the error, the result
    records what was offered to the sink ([None]: [w.Write] was not
    called). *)
Definition WriteTo (w : Writer) (b : Buffer)
  : Buffer * option (list byte) * (Z * option error) :=
  if len (buf b) <=? r b then (Reset b, None, (0, None)) else
  let p := Bytes b in
  let '(n, err) := w p in
  let b := if 0 <? n then collapse (mkBuffer (buf b) (wrap64 (r b + n))) else b in
  match err with
  | None => if negb (n =? Z.of_nat (length p))
            then (b, Some p, (n, Some ErrShortWrite))
            else (b, Some p, (n, err))
  | Some _ => (b, Some p, (n, err))
  end.

(** An [io.Reader] as [ReadFrom] sees it: the answers to its successive
    [Read] calls, each the bytes it stores in the space it is given and its
    error.  A reader whose answers are used up reports end of data. *)
Record answer : Type := mkAnswer {
  a_data : list byte;
  a_err : option error
}.

Definition minRead : Z := 512.

(** One turn of the loop of [ReadFrom] up to the call of [r.Read]. *)
Definition readFrom_space (b : Buffer) : option Buffer :=
  if len (buf b) =? cap (buf b) then grow minRead b else Some b.

(** What the loop does with the answer [(n, err)] of one [r.Read] call:
    the buffer after the call, and the count to add. *)
Definition readFrom_take (b : Buffer) (a : answer) : option (Buffer * Z) :=
  let start := len (buf b) in
  let n := Z.of_nat (length (a_data a)) in
  if 0 <? n then
    let arr := fst (copy_at (s_arr (buf b)) start (cap (buf b) - start) (a_data a)) in
    s ← reslice (mkSlice arr (cap (buf b))) (wrap64 (start + n));
    Some (mkBuffer s (r b), n)
  else Some (b, 0).

Fixpoint readFrom_loop (rd : list answer) (total : Z) (b : Buffer)
  : option (Buffer * (Z * option error)) :=
  b ← readFrom_space b;
  match rd with
  | [] => Some (b, (total, None))
  | a :: rd =>
      '(b, n) ← readFrom_take b a;
      let total := wrap64 (total + n) in
      match a_err a with
      | Some EOF => Some (b, (total, None))
      | Some e => Some (b, (total, Some e))
      | None => readFrom_loop rd total b
      end
  end.

Definition ReadFrom (rd : list answer) (b : Buffer) : option (Buffer * (Z * option error)) :=
  readFrom_loop rd 0 (collapse b).


(** ** BufferPool (pool.go) *)

Definition defaultBucketSizes : list Z :=
  [64; 128; 256; 512; 1024; 2048; 4096; 8192; 16384; 32768; 65536].

(** [0.95], as the nearest [float64]. *)
Definition defaultPercentile : float := 0x1.e666666666666p-1%float.
Definition defaultCalibrateThreshold : Z := 42000.

(** [float64(z)] for an integer [z]: rounding to the nearest [float64]. *)
Definition float64_of_int (z : Z) : float :=
  SF2Prim (SpecFloat.binary_normalize 53 1024 z 0 false).

(** [int64(f)]: the fraction is discarded.  All conversions in [pool.go] are
    of values between zero and an [int64]; what a conversion out of range
    yields is left open by the language. *)
Definition int64_of_float (f : float) : Z :=
  match Prim2SF f with
  | SpecFloat.S754_finite s m e =>
      let v := if 0 <=? e then Z.pos m * 2 ^ e else Z.pos m / 2 ^ (- e) in
      wrap64 (if s then - v else v)
  | SpecFloat.S754_zero _ => 0
  | _ => min_int
  end.

(** [l[i]] for an [int] index: [None] is the index-out-of-range panic. *)
Definition index {A : Type} (l : list A) (i : Z) : option A :=
  if i <? 0 then None else l !! Z.to_nat i.

Module Stats.
Record t : Type := mk {
  Gets : Z;
  Puts : Z;
  Allocs : Z;
  Calibrations : Z;
  LeakCount : Z;
  DefaultCap : Z;
  SmallLimit : Z
}.
End Stats.

(** A [sync.Pool] is the list of the buffers it holds.  The callback
    [metrics] is represented by whether one is configured and by the list of
    the snapshots it has been called with, the latest first.  Finalizers run
    at the collector's discretion and are not modelled: [leaks] is never
    written by the operations below. *)
Record BufferPool : Type := mkPool {
  sizes : list Z;
  buckets : list (list Buffer);
  smallPool : list Buffer;
  defaultCap : Z;
  observeEvery : Z;
  observed : Z;
  bucketHits : list Z;
  percentile : float;
  calibrateThr : Z;
  smallLimit : Z;
  debugLeaks : bool;
  leaks : Z;
  gets : Z;
  puts : Z;
  allocs : Z;
  calibrations : Z;
  metrics : bool;
  reported : list Stats.t
}.

Module PoolOptions.
Record t : Type := mk {
  BucketSizes : list Z;
  InitialCap : Z;
  DebugLeakDetection : bool;
  ObserveEvery : Z;
  SmallLimit : Z;
  Percentile : float;
  CalibrateThreshold : Z;
  Metrics : bool
}.
End PoolOptions.

(** Field updates. *)
Definition set_pools (bk : list (list Buffer)) (sp : list Buffer) (p : BufferPool) : BufferPool :=
  mkPool (sizes p) bk sp (defaultCap p) (observeEvery p) (observed p) (bucketHits p)
    (percentile p) (calibrateThr p) (smallLimit p) (debugLeaks p) (leaks p) (gets p)
    (puts p) (allocs p) (calibrations p) (metrics p) (reported p).

Definition set_sampling (obs : Z) (hits : list Z) (p : BufferPool) : BufferPool :=
  mkPool (sizes p) (buckets p) (smallPool p) (defaultCap p) (observeEvery p) obs hits
    (percentile p) (calibrateThr p) (smallLimit p) (debugLeaks p) (leaks p) (gets p)
    (puts p) (allocs p) (calibrations p) (metrics p) (reported p).

Definition set_counters (g pt al : Z) (p : BufferPool) : BufferPool :=
  mkPool (sizes p) (buckets p) (smallPool p) (defaultCap p) (observeEvery p) (observed p)
    (bucketHits p) (percentile p) (calibrateThr p) (smallLimit p) (debugLeaks p) (leaks p)
    g pt al (calibrations p) (metrics p) (reported p).

Definition set_calibration (dc cal : Z) (rep : list Stats.t) (p : BufferPool) : BufferPool :=
  mkPool (sizes p) (buckets p) (smallPool p) dc (observeEvery p) (observed p)
    (bucketHits p) (percentile p) (calibrateThr p) (smallLimit p) (debugLeaks p) (leaks p)
    (gets p) (puts p) (allocs p) cal (metrics p) rep.

Definition Stats (p : BufferPool) : Stats.t :=
  Stats.mk (gets p) (puts p) (allocs p) (calibrations p) (leaks p) (defaultCap p) (smallLimit p).

Definition LeakCount (p : BufferPool) : Z := leaks p.

Definition minInt (a b : Z) : Z := if a <? b then a else b.

(** [sort.Ints]: the library's sort, here by insertion. *)
Fixpoint insert_sorted (v : Z) (l : list Z) : list Z :=
  match l with
  | [] => [v]
  | x :: l' => if v <=? x then v :: l else x :: insert_sorted v l'
  end.

Definition sort_Ints (l : list Z) : list Z := foldr insert_sorted [] l.

(** The loop of [normalizeSizes] that drops repeated neighbours; [last] is
    [uniq[len(uniq)-1]]. *)
Fixpoint uniq_from (last : Z) (l : list Z) : list Z :=
  match l with
  | [] => []
  | x :: l' => if negb (x =? last) then x :: uniq_from x l' else uniq_from last l'
  end.

Definition normalizeSizes (s : list Z) : list Z :=
  let filtered := filter (fun v => 0 < v) s in
  match sort_Ints filtered with
  | [] => []
  | x :: l => x :: uniq_from x l
  end.

(** The loop shared by [bucketIndex] and [chooseCap]: the first class, with
    its position counted from [i], that [size] fits in. *)
Fixpoint first_fit (sizes : list Z) (size : Z) (i : Z) : option (Z * Z) :=
  match sizes with
  | [] => None
  | s :: rest => if size <=? s then Some (i, s) else first_fit rest size (i + 1)
  end.

Definition bucketIndex (sizes : list Z) (size : Z) : Z :=
  if size <=? 0 then 0 else
  match first_fit sizes size 0 with
  | Some (i, _) => i
  | None => Z.of_nat (length sizes) - 1
  end.

Definition chooseCap (sizes : list Z) (target : Z) : option Z :=
  if target <=? 0 then index sizes 0 else
  match first_fit sizes target 0 with
  | Some (_, s) => Some s
  | None => index sizes (Z.of_nat (length sizes) - 1)
  end.

Definition NewBufferPoolWithOptions (opts : PoolOptions.t) : option BufferPool :=
  let sizes := normalizeSizes (PoolOptions.BucketSizes opts) in
  let sizes := if Z.of_nat (length sizes) =? 0 then defaultBucketSizes else sizes in
  let observeEvery :=
    if 0 <? PoolOptions.ObserveEvery opts then PoolOptions.ObserveEvery opts else 4096 in
  let percentile :=
    if (0 <? PoolOptions.Percentile opts)%float && (PoolOptions.Percentile opts <=? 1)%float
    then PoolOptions.Percentile opts else defaultPercentile in
  let calibrateThr :=
    if 0 <? PoolOptions.CalibrateThreshold opts then PoolOptions.CalibrateThreshold opts
    else defaultCalibrateThreshold in
  s0 ← index sizes 0;
  let smallLimit := minInt 256 s0 in
  let smallLimit :=
    if 0 <? PoolOptions.SmallLimit opts then PoolOptions.SmallLimit opts else smallLimit in
  dc ← chooseCap sizes (PoolOptions.InitialCap opts);
  Some (mkPool sizes (replicate (length sizes) []) [] dc observeEvery 0
          (replicate (length sizes) 0) percentile calibrateThr smallLimit
          (PoolOptions.DebugLeakDetection opts) 0 0 0 0 0 (PoolOptions.Metrics opts) []).

Definition NewBufferPool (initialCap : Z) : option BufferPool :=
  NewBufferPoolWithOptions
    (PoolOptions.mk [] initialCap false 0 0 0%float 0 false).

(** [pl.Get()] on a [sync.Pool] holding [pl], whose [New] builds [new]:
    [Some k] takes the [k]-th buffer held, and [None], or a [k] out of
    range, is a miss.  The result tells whether [New] ran. *)
Definition pool_get (choice : option nat) (new : Buffer) (pl : list Buffer)
  : Buffer * list Buffer * bool :=
  match choice with
  | Some k => match pl !! k with
              | Some b => (b, delete k pl, false)
              | None => (new, pl, true)
              end
  | None => (new, pl, true)
  end.

Definition count_alloc (missed : bool) (p : BufferPool) : BufferPool :=
  if missed then set_counters (gets p) (puts p) (wrap64 (allocs p + 1)) p else p.

(** [if n > cap(buf.buf) { buf.grow(n - len(buf.buf)) }] *)
Definition fit (n : Z) (b : Buffer) : option Buffer :=
  if cap (buf b) <? n then grow (wrap64 (n - len (buf b))) b else Some b.

Definition getSized (choice : option nat) (n : Z) (p : BufferPool)
  : option (Buffer * BufferPool) :=
  let n := if n <? 0 then 0 else n in
  if n <=? smallLimit p then
    let '(b, pl, missed) := pool_get choice (NewBuffer (smallLimit p)) (smallPool p) in
    let p := count_alloc missed (set_pools (buckets p) pl p) in
    b ← fit n b;
    Some (b, p)
  else
    let idx := bucketIndex (sizes p) n in
    bucket ← index (buckets p) idx;
    capacity ← index (sizes p) idx;
    let '(b, pl, missed) := pool_get choice (NewBuffer capacity) bucket in
    let bk := <[Z.to_nat idx := pl]> (buckets p) in
    let p := count_alloc missed (set_pools bk (smallPool p) p) in
    b ← fit n b;
    Some (b, p).

Definition count_get (p : BufferPool) : BufferPool :=
  set_counters (wrap64 (gets p + 1)) (puts p) (allocs p) p.

Definition Get (choice : option nat) (p : BufferPool) : option (Buffer * BufferPool) :=
  let p := count_get p in
  getSized choice (defaultCap p) p.

Definition GetSized (choice : option nat) (n : Z) (p : BufferPool)
  : option (Buffer * BufferPool) :=
  getSized choice n (count_get p).

(** The walk of [recalibratePercentile] over the counts: the position of
    the first class whose cumulative count reaches [target]. *)
Fixpoint percentile_class (counts : list Z) (i : Z) (cumulative target : Z) : option Z :=
  match counts with
  | [] => None
  | c :: counts =>
      let cumulative := wrap64 (cumulative + c) in
      if target <=? cumulative then Some i
      else percentile_class counts (i + 1) cumulative target
  end.

(** [total] as the first loop of [recalibratePercentile] sums it. *)
Definition sum_counts (counts : list Z) : Z :=
  fold_left (fun total c => wrap64 (total + c)) counts 0.

Definition report (p : BufferPool) : BufferPool :=
  if metrics p
  then set_calibration (defaultCap p) (calibrations p) (Stats p :: reported p) p
  else p.

Definition recalibratePercentile (p : BufferPool) : option BufferPool :=
  let counts := bucketHits p in
  let total := sum_counts counts in
  let p := set_sampling (observed p) (replicate (length counts) 0) p in
  if (total <=? 0) || (total <? calibrateThr p) then Some p else
  let target := int64_of_float (float64_of_int total * percentile p)%float in
  let target := if target <=? 0 then total else target in
  match percentile_class counts 0 0 target with
  | Some i =>
      s ← index (sizes p) i;
      Some (report (set_calibration s (wrap64 (calibrations p + 1)) (reported p) p))
  | None => Some p
  end.

(** [p.bucketHits[bucketIdx].Add(1)] on the counters. *)
Definition add_hit (bucketIdx : Z) (hits : list Z) : list Z :=
  alter (fun h => wrap64 (h + 1)) (Z.to_nat bucketIdx) hits.

Definition observeSize (size bucketIdx : Z) (p : BufferPool) : option BufferPool :=
  if (size <=? 0) || (observeEvery p <=? 0) then Some p else
  _ ← index (bucketHits p) bucketIdx;
  let total := wrap64 (observed p + 1) in
  let p := set_sampling total (add_hit bucketIdx (bucketHits p)) p in
  if negb (Z.rem total (observeEvery p) =? 0) then Some p
  else recalibratePercentile p.

(** [Put(b)]: [None] for the buffer is the nil pointer. *)
Definition Put (b : option Buffer) (p : BufferPool) : option BufferPool :=
  match b with
  | None => Some p
  | Some b =>
      let p := set_counters (gets p) (wrap64 (puts p + 1)) (allocs p) p in
      let b := Reset b in
      if cap (buf b) <=? smallLimit p then
        let idx := bucketIndex (sizes p) (cap (buf b)) in
        p ← observeSize (cap (buf b)) idx p;
        Some (set_pools (buckets p) (b :: smallPool p) p)
      else
        let idx := bucketIndex (sizes p) (cap (buf b)) in
        p ← observeSize (cap (buf b)) idx p;
        bucket ← index (buckets p) idx;
        Some (set_pools (<[Z.to_nat idx := b :: bucket]> (buckets p)) (smallPool p) p)
  end.

(** [Borrow(n)]: the release function returns the borrowed buffer, in the
    state it has when released, as [Put] does. *)
Definition Borrow (choice : option nat) (n : Z) (p : BufferPool)
  : option (Buffer * (Buffer -> BufferPool -> option BufferPool) * BufferPool) :=
  '(b, p) ← getSized choice n (count_get p);
  Some (b, (fun b p => Put (Some b) p), p).

Definition Calibrate (observed : Z) (p : BufferPool) : option BufferPool :=
  if observed <=? 0 then Some p else
  c ← chooseCap (sizes p) observed;
  Some (report (set_calibration c (wrap64 (calibrations p + 1)) (reported p) p)).

(** ** Specification vocabulary for the buffer *)

(** The representation invariant of a [Buffer]: the cursor is inside the
    slice, the slice inside its array, and the capacity is an [int]. *)
Definition buffer_wf (b : Buffer) : Prop :=
  0 <= r b <= len (buf b) /\ len (buf b) <= cap (buf b) /\ cap (buf b) <= max_int.

(** Nothing unread is left behind a consumed prefix: either some byte is
    unread, or the buffer is Empty (cursor and length both zero). *)
Definition tidy (b : Buffer) : Prop :=
  r b < len (buf b) \/ (r b = 0 /\ len (buf b) = 0).

(** The three ways out of [grow] for a positive request. *)
Inductive grow_path : Type := FastPath | Compaction | Reallocation.

Definition grow_route (n : Z) (b : Buffer) : grow_path :=
  let b := collapse b in
  if n <=? cap (buf b) - len (buf b) then FastPath
  else if (0 <? r b) && (wrap64 (Len b + n) <=? cap (buf b)) then Compaction
  else Reallocation.

(** [covers x y w]: bit [i] of [y] is set exactly when one of the [w] bits
    of [x] from position [i] upwards is set. *)
Definition covers (x y w : Z) : Prop :=
  forall i, 0 <= i ->
    Z.testbit y i = true <-> exists d, 0 <= d < w /\ Z.testbit x (i + d) = true.

(** All six steps of the bit smearing in [nextPowerOfTwo]. *)
Definition smear (x : Z) : Z :=
  let n := Z.lor x (Z.shiftr x 1) in
  let n := Z.lor n (Z.shiftr n 2) in
  let n := Z.lor n (Z.shiftr n 4) in
  let n := Z.lor n (Z.shiftr n 8) in
  let n := Z.lor n (Z.shiftr n 16) in
  Z.lor n (Z.shiftr n 32).

(** The calls that append to a buffer. *)
Inductive write_call : Type :=
| CallWrite (p : list byte)
| CallWriteByte (v : byte)
| CallWriteString (s : list byte).

Definition written (c : write_call) : list byte :=
  match c with
  | CallWrite p => p
  | CallWriteByte v => [v]
  | CallWriteString s => s
  end.

(** One appending call: the buffer after it and the count it reports (one
    for [WriteByte], which reports none). *)
Definition do_write (c : write_call) (b : Buffer) : option (Buffer * Z) :=
  match c with
  | CallWrite p => '(b, res) ← Write p b; Some (b, fst res)
  | CallWriteByte v => '(b, _) ← WriteByte v b; Some (b, 1)
  | CallWriteString s => '(b, res) ← WriteString s b; Some (b, fst res)
  end.

(** All the bytes a sequence of appending calls is given. *)
Definition payload (cs : list write_call) : list byte := concat (map written cs).

(** A sequence of appending calls: the final buffer and the total count. *)
Fixpoint do_writes (cs : list write_call) (b : Buffer) : option (Buffer * Z) :=
  match cs with
  | [] => Some (b, 0)
  | c :: cs =>
      '(b, n) ← do_write c b;
      '(b, m) ← do_writes cs b;
      Some (b, n + m)
  end.

(** A sequence of [Read] calls, one per destination: the final buffer and,
    for each call, the bytes it delivered ([p[:n]]) and its count. *)
Fixpoint do_reads (dsts : list (list byte)) (b : Buffer) : Buffer * list (list byte * Z) :=
  match dsts with
  | [] => (b, [])
  | p :: dsts =>
      let '(b, p', (n, _)) := Read p b in
      let '(b, outs) := do_reads dsts b in
      (b, (take (Z.to_nat n) p', n) :: outs)
  end.

Definition delivered (outs : list (list byte * Z)) : list byte := concat (map fst outs).
Definition counted (outs : list (list byte * Z)) : Z := foldr Z.add 0 (map snd outs).
Definition room (dsts : list (list byte)) : Z :=
  foldr Z.add 0 (map (fun p => Z.of_nat (length p)) dsts).

(** The public operations that change a buffer. *)
Inductive buf_op : Type :=
| OpWrite (p : list byte)
| OpWriteByte (v : byte)
| OpWriteString (s : list byte)
| OpRead (p : list byte)
| OpWriteTo (w : Writer)
| OpReadFrom (rd : list answer)
| OpReserve (n : Z)
| OpGrow (n : Z)
| OpReset.

Definition apply_op (op : buf_op) (b : Buffer) : option Buffer :=
  match op with
  | OpWrite p => fst <$> Write p b
  | OpWriteByte v => fst <$> WriteByte v b
  | OpWriteString s => fst <$> WriteString s b
  | OpRead p => Some (fst (fst (Read p b)))
  | OpWriteTo w => Some (fst (fst (WriteTo w b)))
  | OpReadFrom rd => fst <$> ReadFrom rd b
  | OpReserve n => fst <$> Reserve n b
  | OpGrow n => Grow n b
  | OpReset => Some (Reset b)
  end.

(** The arguments are Go values: lengths and sizes are [int]s, and a writer
    keeps the contract of [io.Writer]. *)
Definition op_ok (op : buf_op) : Prop :=
  match op with
  | OpWrite p | OpWriteString p => Z.of_nat (length p) <= max_int
  | OpWriteTo w => writer_ok w
  | OpReadFrom rd => Forall (fun a => Z.of_nat (length (a_data a)) <= max_int) rd
  | OpReserve n | OpGrow n => in_int n
  | OpWriteByte _ | OpRead _ | OpReset => True
  end.

(** The states a buffer goes through: one after each operation that
    returns, up to the first that panics. *)
Fixpoint run (ops : list buf_op) (b : Buffer) : list Buffer :=
  match ops with
  | [] => []
  | op :: ops =>
      match apply_op op b with
      | Some b' => b' :: run ops b'
      | None => []
      end
  end.

(** [is_pow2_ceiling c m]: [c] is the least power of two that is at least
    [m]. *)
Definition is_pow2_ceiling (c m : Z) : Prop :=
  (exists k, 0 <= k /\ c = 2 ^ k) /\ m <= c /\
  forall k, 0 <= k -> m <= 2 ^ k -> c <= 2 ^ k.

(** The bytes of a string literal. *)
Definition bytes_of (s : string) : list byte := list_byte_of_string s.

(** A destination of [k] bytes, as [make([]byte, k)] gives it. *)
Definition dst (k : nat) : list byte := replicate k x00.

(** A sink that takes at most [limit] bytes of what it is offered and
    reports no error (the [shortWriter] of the tests over a sink that takes
    all). *)
Definition shortWriter (limit : Z) : Writer :=
  fun p => (Z.min limit (Z.of_nat (length p)), None).

(** Sample runs. *)
Definition sample_ops : list buf_op :=
  [OpWriteString (bytes_of "abcdefgh"); OpRead (dst 3); OpWrite (bytes_of "XYZ");
   OpGrow 100; OpReserve 5; OpWriteTo (shortWriter 2);
   OpReadFrom [mkAnswer (bytes_of "more") None; mkAnswer [] (Some EOF)];
   OpWriteByte x21; OpRead (dst 4096); OpReset].

Definition sample_writes : list write_call :=
  [CallWriteString (bytes_of "hello"); CallWriteByte x2c; CallWrite (bytes_of " world");
   CallWrite []].

(** The example of the tests: capacity 8, "abcdefgh" written, 3 bytes read. *)
Definition abcdefgh_read3 : Buffer :=
  let b := NewBuffer 8 in
  let b := fst (default (b, (0, None)) (WriteString (bytes_of "abcdefgh") b)) in
  fst (fst (Read (dst 3) b)).

(** ** Specification vocabulary for the pool *)

(** The options are Go values: every number in them is an [int]. *)
Definition options_ok (opts : PoolOptions.t) : Prop :=
  Forall in_int (PoolOptions.BucketSizes opts) /\ in_int (PoolOptions.InitialCap opts) /\
  in_int (PoolOptions.ObserveEvery opts) /\ in_int (PoolOptions.SmallLimit opts) /\
  in_int (PoolOptions.CalibrateThreshold opts).

(** A [sync.Pool] may drop an object it holds at any time: the [k]-th
    buffer of the small sub-pool ([None]) or of the sub-pool of a class. *)
Definition evict (class : option nat) (k : nat) (p : BufferPool) : BufferPool :=
  match class with
  | None => set_pools (buckets p) (delete k (smallPool p)) p
  | Some i => set_pools (alter (delete k) i (buckets p)) (smallPool p) p
  end.

(** The states of a pool: it is constructed, buffers are drawn from it and
    returned to it, it is calibrated, and its sub-pools may drop buffers.
    What a caller does with a buffer between drawing and returning it is
    its own business: [Put] is given any buffer. *)
Inductive reachable : BufferPool -> Prop :=
| reach_new opts p :
    options_ok opts -> NewBufferPoolWithOptions opts = Some p -> reachable p
| reach_Get p choice b p' :
    reachable p -> Get choice p = Some (b, p') -> reachable p'
| reach_GetSized p choice n b p' :
    reachable p -> in_int n -> GetSized choice n p = Some (b, p') -> reachable p'
| reach_Borrow p choice n b release p' :
    reachable p -> in_int n -> Borrow choice n p = Some (b, release, p') -> reachable p'
| reach_Put p b p' :
    reachable p -> buffer_wf b -> Put (Some b) p = Some p' -> reachable p'
| reach_Put_nil p p' :
    reachable p -> Put None p = Some p' -> reachable p'
| reach_Calibrate p observed p' :
    reachable p -> in_int observed -> Calibrate observed p = Some p' -> reachable p'
| reach_evict p class k :
    reachable p -> reachable (evict class k p).

(** A buffer as a sub-pool holds it: reset. *)
Definition at_rest (b : Buffer) : Prop :=
  buffer_wf b /\ r b = 0 /\ len (buf b) = 0.

(** What holds of every pool state. *)
Record pool_inv (p : BufferPool) : Prop := mkPoolInv {
  inv_sizes_nonempty : sizes p <> [];
  inv_sizes_sorted : StronglySorted Z.lt (sizes p);
  inv_sizes_range : Forall (fun s => 0 < s <= max_int) (sizes p);
  inv_buckets_length : length (buckets p) = length (sizes p);
  inv_hits_length : length (bucketHits p) = length (sizes p);
  inv_smallLimit : 0 < smallLimit p <= max_int;
  inv_defaultCap : defaultCap p ∈ sizes p;
  inv_small : Forall (fun b => at_rest b /\ Cap b <= smallLimit p) (smallPool p);
  inv_buckets :
    forall (i : nat) bs, buckets p !! i = Some bs ->
      Forall (fun b => at_rest b /\ smallLimit p < Cap b /\
                       bucketIndex (sizes p) (Cap b) = Z.of_nat i) bs
}.

(** The largest class, [sizes[len(sizes)-1]]. *)
Definition largest (sizes : list Z) : option Z := last sizes.

(** [c] is the smallest class that is at least [n]. *)
Definition smallest_class_at_least (sizes : list Z) (n c : Z) : Prop :=
  c ∈ sizes /\ n <= c /\ forall s, s ∈ sizes -> n <= s -> c <= s.


(** What a pool keeps across sampling and calibration. *)
Definition same_storage (p p' : BufferPool) : Prop :=
  sizes p' = sizes p /\ smallLimit p' = smallLimit p /\
  buckets p' = buckets p /\ smallPool p' = smallPool p /\
  length (bucketHits p') = length (bucketHits p).

(** The pool of the tests with the classes 16, 32 and 64. *)
Definition opts_16_32_64 : PoolOptions.t :=
  PoolOptions.mk [16; 32; 64] 0 false 0 0 0%float 0 false.

(** A pool that runs the calibration pass at every [Put]. *)
Definition opts_observe_each : PoolOptions.t :=
  PoolOptions.mk [16; 32; 64] 0 false 1 0 0%float 0 true.

(** A buffer is drawn for 100 bytes from the pool with the classes 16, 32
    and 64, and returned. *)
Definition oversized_round_trip : option (Buffer * BufferPool) :=
  p0 ← NewBufferPoolWithOptions opts_16_32_64;
  '(b, p1) ← GetSized None 100 p0;
  p2 ← Put (Some b) p1;
  Some (b, p2).

(** Evaluate an equation [f x = r] whose left side is closed. *)
Ltac evaluate H :=
  let H' := fresh in
  pose proof H as H'; vm_compute in H';
  first [ discriminate H'
        | injection H' as <- <- <-
        | injection H' as <- <-
        | injection H' as <- ].

(** ** Further specification vocabulary *)

(** What [ReadFrom] hears from a reader: the data of its answers up to and
    including the first that carries an error, and the error [ReadFrom]
    returns for it (none for the end of data, and none when the answers
    are used up). *)
Fixpoint heard (rd : list answer) : list byte * option error :=
  match rd with
  | [] => ([], None)
  | a :: rd =>
      match a_err a with
      | Some EOF => (a_data a, None)
      | Some e => (a_data a, Some e)
      | None => let '(d, e) := heard rd in (a_data a ++ d, e)
      end
  end.

(** The error [WriteTo] returns for the answer [(n, err)] of a sink that
    was offered [offered] bytes. *)
Definition writeTo_error (offered n : Z) (err : option error) : option error :=
  match err with
  | Some e => Some e
  | None => if n =? offered then None else Some ErrShortWrite
  end.

(** A reader that answers with two bytes, with nothing, with two bytes and
    an error of its own, and would have more. *)
Definition sample_answers : list answer :=
  [mkAnswer (bytes_of "mo") None; mkAnswer [] None;
   mkAnswer (bytes_of "re") (Some (ErrOther 3)); mkAnswer (bytes_of "lost") None].

(** The total of a list of counts, in the integers. *)
Definition sum_list (l : list Z) : Z := foldr Z.add 0 l.

(** The pool with the classes 16, 32 and 64 and the calibration threshold
    1, after four samples: one of the class 16 and three of the class 32. *)
Definition sampled_pool : option BufferPool :=
  p ← NewBufferPoolWithOptions (PoolOptions.mk [16; 32; 64] 0 false 8 0 0%float 1 true);
  Some (set_sampling 4 [1; 3; 0] p).

(** The answers that a reader holding [d] gives to the calls [ReadFrom]
    makes on [b], when it fills the slice it is offered and reports the end
    of data once nothing is left, as the [strings.Reader] of the tests
    does; [fuel] bounds the number of calls. *)
Fixpoint filling_reader (fuel : nat) (d : list byte) (b : Buffer) : list answer :=
  match fuel with
  | O => []
  | S fuel =>
      match d with
      | [] => [mkAnswer [] (Some EOF)]
      | _ :: _ =>
          match readFrom_space b with
          | None => []
          | Some b1 =>
              let space := Z.to_nat (cap (buf b1) - len (buf b1)) in
              let a := mkAnswer (take space d) None in
              match readFrom_take b1 a with
              | Some (b2, _) => a :: filling_reader fuel (drop space d) b2
              | None => []
              end
          end
      end
  end.

(** Evaluate the closed equations of a conjunction, one after the other. *)
Ltac evaluate_each :=
  lazymatch goal with
  | |- and _ _ => split; [vm_compute; reflexivity | evaluate_each]
  | |- _ => vm_compute; reflexivity
  end.
(** * Machine integers: facts *)

Lemma wrap64_id (z : Z) : in_int z -> wrap64 z = z.
Proof.
  unfold in_int, min_int, max_int, wrap64. intros Hz.
  rewrite Z.mod_small; lia.
Qed.

Lemma wrap64_range (z : Z) : in_int (wrap64 z).
Proof.
  unfold in_int, min_int, max_int, wrap64.
  pose proof (Z.mod_pos_bound (z + 2 ^ 63) (2 ^ 64)). lia.
Qed.

Lemma wrap64_overflow (z : Z) : max_int < z <= 2 * max_int -> wrap64 z < 0.
Proof.
  unfold max_int, wrap64. intros Hz.
  replace (z + 2 ^ 63) with ((z - 2 ^ 63) + 1 * 2 ^ 64) by lia.
  rewrite Z.mod_add by lia. rewrite Z.mod_small; lia.
Qed.

(** * nextPowerOfTwo *)

Lemma covers_start (x : Z) : covers x x 1.
Proof.
  intros i Hi. split.
  - intros Hb. exists 0. split; [lia|]. now rewrite Z.add_0_r.
  - intros (d & Hd & Hb). replace (i + d) with i in Hb by lia. exact Hb.
Qed.

Lemma covers_double (x y w : Z) :
  0 < w -> covers x y w -> covers x (Z.lor y (Z.shiftr y w)) (2 * w).
Proof.
  intros Hw Hc i Hi.
  rewrite Z.lor_spec, Z.shiftr_spec by lia.
  rewrite orb_true_iff, (Hc i Hi), (Hc (i + w)) by lia.
  split.
  - intros [(d & Hd & Hb) | (d & Hd & Hb)].
    + exists d. split; [lia | exact Hb].
    + exists (w + d). split; [lia|]. now rewrite Z.add_assoc.
  - intros (d & Hd & Hb).
    destruct (Z_lt_ge_dec d w) as [Hlt | Hge].
    + left. exists d. split; [lia | exact Hb].
    + right. exists (d - w). split; [lia|].
      now replace (i + w + (d - w)) with (i + d) by lia.
Qed.

Lemma smear_covers (x : Z) : covers x (smear x) 64.
Proof.
  unfold smear.
  pose proof (covers_start x) as H0.
  apply (covers_double _ _ 1) in H0; [|lia].
  apply (covers_double _ _ 2) in H0; [|lia].
  apply (covers_double _ _ 4) in H0; [|lia].
  apply (covers_double _ _ 8) in H0; [|lia].
  apply (covers_double _ _ 16) in H0; [|lia].
  apply (covers_double _ _ 32) in H0; [|lia].
  exact H0.
Qed.

Lemma smear_ones (x : Z) :
  0 < x < 2 ^ 63 -> smear x = Z.ones (Z.log2 x + 1).
Proof.
  intros Hx.
  assert (HL : 0 <= Z.log2 x < 63).
  { split; [apply Z.log2_nonneg|]. apply Z.log2_lt_pow2; lia. }
  apply Z.bits_inj'. intros i Hi.
  destruct (Z_lt_ge_dec i (Z.log2 x + 1)) as [Hlt | Hge].
  - rewrite Z.ones_spec_low by lia.
    apply (smear_covers x i Hi).
    exists (Z.log2 x - i). split; [lia|].
    replace (i + (Z.log2 x - i)) with (Z.log2 x) by lia.
    apply Z.bit_log2. lia.
  - rewrite Z.ones_spec_high by lia.
    apply not_true_is_false. intros Hb.
    apply (smear_covers x i Hi) in Hb. destruct Hb as (d & Hd & Hb).
    rewrite Z.bits_above_log2 in Hb; [discriminate | lia | lia].
Qed.

Lemma nextPowerOfTwo_smear (n : Z) :
  0 < n <= max_int ->
  nextPowerOfTwo n = wrap64 (smear (n - 1) + 1).
Proof.
  intros Hn. unfold nextPowerOfTwo.
  destruct (Z.leb_spec n 0) as [|_]; [lia|].
  rewrite (wrap64_id (n - 1)) by (unfold in_int, min_int, max_int in *; lia).
  fold (smear (n - 1)).
  destruct (Z.ltb_spec (smear (n - 1)) 0) as [Hneg|]; [|reflexivity].
  exfalso. destruct (Z.eq_dec (n - 1) 0) as [E | NE].
  - rewrite E in Hneg. vm_compute in Hneg. discriminate.
  - rewrite smear_ones in Hneg by (unfold max_int in *; lia).
    rewrite Z.ones_equiv in Hneg.
    pose proof (Z.log2_nonneg (n - 1)).
    assert (0 < 2 ^ (Z.log2 (n - 1) + 1)) by (apply Z.pow_pos_nonneg; lia). lia.
Qed.

(** Up to [2^62] the result is the power of two with exponent
    [Z.log2_up n]. *)
Lemma nextPowerOfTwo_log2_up (n : Z) :
  0 < n <= 2 ^ 62 -> nextPowerOfTwo n = 2 ^ Z.log2_up n.
Proof.
  intros Hn. rewrite nextPowerOfTwo_smear by (unfold max_int; lia).
  destruct (Z.eq_dec n 1) as [-> | NE]; [reflexivity|].
  rewrite smear_ones by lia.
  rewrite Z.ones_equiv.
  assert (HL : Z.log2_up n = Z.log2 (n - 1) + 1).
  { unfold Z.log2_up. destruct (Z.compare_spec 1 n); try lia.
    now rewrite <- Z.sub_1_r, <- Z.add_1_r. }
  rewrite HL.
  assert (Hle : Z.log2 (n - 1) < 62) by (apply Z.log2_lt_pow2; lia).
  pose proof (Z.log2_nonneg (n - 1)).
  assert (0 < 2 ^ (Z.log2 (n - 1) + 1) <= 2 ^ 62).
  { split; [apply Z.pow_pos_nonneg; lia | apply Z.pow_le_mono_r; lia]. }
  replace (Z.pred (2 ^ (Z.log2 (n - 1) + 1)) + 1)
    with (2 ^ (Z.log2 (n - 1) + 1)) by lia.
  apply wrap64_id. unfold in_int, min_int, max_int. lia.
Qed.

(** Above [2^62] the increment after the smearing overflows: the result is
    the least [int], and the test [n < 0] before it never fires. *)
Lemma nextPowerOfTwo_overflow (n : Z) :
  2 ^ 62 < n <= max_int -> nextPowerOfTwo n = min_int.
Proof.
  intros Hn. rewrite nextPowerOfTwo_smear by lia.
  rewrite smear_ones by (unfold max_int in *; lia).
  assert (HL : Z.log2 (n - 1) = 62).
  { apply Z.log2_unique; unfold max_int in *; lia. }
  rewrite HL. reflexivity.
Qed.

Lemma nextPowerOfTwo_nonpos (n : Z) : n <= 0 -> nextPowerOfTwo n = 0.
Proof.
  intros Hn. unfold nextPowerOfTwo.
  destruct (Z.leb_spec n 0); [reflexivity | lia].
Qed.

(** The power of two chosen up to [2^62] is the least one that fits. *)
Lemma nextPowerOfTwo_least (n : Z) :
  0 < n <= 2 ^ 62 ->
  n <= nextPowerOfTwo n <= 2 ^ 62 /\
  forall k, 0 <= k -> n <= 2 ^ k -> nextPowerOfTwo n <= 2 ^ k.
Proof.
  intros Hn. rewrite nextPowerOfTwo_log2_up by exact Hn.
  pose proof (Z.log2_up_nonneg n) as H0.
  destruct (Z.eq_dec n 1) as [-> | NE].
  - change (Z.log2_up 1) with 0. split; [lia|].
    intros k Hk _. apply Z.pow_le_mono_r; lia.
  - pose proof (Z.log2_up_spec n ltac:(lia)) as [Hlo Hhi].
    assert (Z.log2_up n <= 62) by (apply Z.log2_up_le_pow2; lia).
    split.
    + split; [exact Hhi | apply Z.pow_le_mono_r; lia].
    + intros k Hk Hnk. apply Z.pow_le_mono_r; [lia|].
      apply Z.log2_up_le_pow2; lia.
Qed.

(** * Slices: facts *)

Section CopyAt.
Variables (a src : list byte) (off dlen : Z).
Hypothesis Hoff : 0 <= off.
Hypothesis Hdlen : 0 <= dlen.
Hypothesis Hfit : off + dlen <= Z.of_nat (length a).

Lemma copy_at_length : length (fst (copy_at a off dlen src)) = length a.
Proof.
  unfold copy_at; cbn [fst].
  rewrite !length_app, !length_take, length_drop. lia.
Qed.

Lemma copy_at_take :
  take (Z.to_nat (off + Z.min dlen (Z.of_nat (length src)))) (fst (copy_at a off dlen src))
  = take (Z.to_nat off) a ++ take (Z.to_nat (Z.min dlen (Z.of_nat (length src)))) src.
Proof.
  unfold copy_at; cbn [fst].
  set (n := Z.min dlen (Z.of_nat (length src))).
  rewrite app_assoc.
  apply take_app_length'.
  rewrite length_app, !length_take. lia.
Qed.

End CopyAt.

Lemma elems_length (s : slice) :
  0 <= len s <= cap s -> Z.of_nat (length (elems s)) = len s.
Proof.
  unfold elems, len, cap. intros H. rewrite length_take. lia.
Qed.

Lemma Bytes_length (b : Buffer) :
  buffer_wf b -> Z.of_nat (length (Bytes b)) = Len b.
Proof.
  intros (Hr & Hl & _). unfold Bytes, Len.
  rewrite length_drop. pose proof (elems_length (buf b) ltac:(lia)). lia.
Qed.

Lemma Reset_wf (b : Buffer) : buffer_wf b -> buffer_wf (Reset b).
Proof.
  unfold buffer_wf, Reset, len, cap; cbn. lia.
Qed.

Lemma Reset_Cap (b : Buffer) : Cap (Reset b) = Cap b.
Proof. reflexivity. Qed.

Lemma Reset_Bytes (b : Buffer) : Bytes (Reset b) = [].
Proof. unfold Bytes, Reset, elems; cbn. reflexivity. Qed.

Lemma NewBuffer_wf (c : Z) : c <= max_int -> buffer_wf (NewBuffer c).
Proof.
  intros Hc. unfold buffer_wf, NewBuffer, len, cap; cbn.
  rewrite length_replicate. destruct (Z.ltb_spec c 0); unfold max_int in *; lia.
Qed.

Lemma NewBuffer_Cap (c : Z) : Cap (NewBuffer c) = Z.max 0 c.
Proof.
  unfold Cap, NewBuffer, cap; cbn. rewrite length_replicate.
  destruct (Z.ltb_spec c 0); lia.
Qed.

Lemma collapse_wf (b : Buffer) : buffer_wf b -> buffer_wf (collapse b).
Proof.
  intros H. unfold collapse. destruct (_ <=? _); [now apply Reset_wf | exact H].
Qed.

Lemma collapse_Cap (b : Buffer) : Cap (collapse b) = Cap b.
Proof. unfold collapse. now destruct (_ <=? _). Qed.

Lemma collapse_tidy (b : Buffer) : buffer_wf b -> tidy (collapse b).
Proof.
  intros H. unfold collapse, tidy.
  destruct (Z.leb_spec (len (buf b)) (r b)); [right; split; reflexivity | now left].
Qed.

Lemma collapse_Bytes (b : Buffer) : buffer_wf b -> Bytes (collapse b) = Bytes b.
Proof.
  intros (Hr & Hl & _). unfold collapse.
  destruct (Z.leb_spec (len (buf b)) (r b)) as [Hle|]; [|reflexivity].
  rewrite Reset_Bytes. unfold Bytes. symmetry. apply drop_ge.
  pose proof (elems_length (buf b) ltac:(lia)). lia.
Qed.

Lemma collapse_Len (b : Buffer) : buffer_wf b -> Len (collapse b) = Len b.
Proof.
  intros (Hr & Hl & _). unfold collapse, Len.
  destruct (Z.leb_spec (len (buf b)) (r b)); [cbn; lia | reflexivity].
Qed.

(** * grow *)

Lemma copy_front (a src : list byte) (u : Z) :
  u = Z.of_nat (length src) -> u <= Z.of_nat (length a) ->
  length (fst (copy_at a 0 u src)) = length a /\
  take (Z.to_nat u) (fst (copy_at a 0 u src)) = src.
Proof.
  intros Hu Hfit. split.
  - apply copy_at_length; lia.
  - pose proof (copy_at_take a src 0 u ltac:(lia) ltac:(lia) ltac:(lia)) as H.
    rewrite Z.min_l, Z.add_0_l in H by lia.
    rewrite H. cbn [Z.to_nat take app]. apply take_ge. lia.
Qed.

(** The buffer [grow] builds when it compacts or reallocates: the unread
    bytes [src] at the front of the array [a], cursor zero. *)
Lemma moved_front (a src : list byte) (u : Z) :
  u = Z.of_nat (length src) -> u <= Z.of_nat (length a) ->
  let b' := mkBuffer (mkSlice (fst (copy_at a 0 u src)) u) 0 in
  Cap b' = Z.of_nat (length a) /\ Bytes b' = src /\ r b' = 0 /\ len (buf b') = u.
Proof.
  intros Hu Hfit b'. destruct (copy_front a src u Hu Hfit) as [Hl Ht].
  unfold b', Cap, cap, Bytes, elems; cbn [buf r s_arr s_len len].
  rewrite Hl, Ht. repeat split; reflexivity.
Qed.

Lemma grow_fast (n : Z) (b : Buffer) :
  0 < n -> grow_route n b = FastPath -> grow n b = Some (collapse b).
Proof.
  intros Hn. unfold grow_route, grow.
  destruct (Z.leb_spec n 0); [lia|].
  destruct (n <=? _); [reflexivity|].
  destruct (_ && _); discriminate.
Qed.

Lemma grow_compaction (n : Z) (b : Buffer) :
  buffer_wf b -> 0 < n -> grow_route n b = Compaction ->
  exists b', grow n b = Some b' /\
    Cap b' = Cap b /\ Bytes b' = Bytes b /\ r b' = 0 /\ len (buf b') = Len (collapse b).
Proof.
  intros Hwf Hn. unfold grow_route, grow.
  destruct (Z.leb_spec n 0); [lia|].
  destruct (n <=? _); [discriminate|].
  fold (Len (collapse b)).
  destruct (_ && _); [|discriminate]. intros _.
  pose proof (collapse_wf b Hwf) as Hwf0.
  pose proof (Bytes_length _ Hwf0) as HB.
  destruct Hwf0 as (Hr & Hl & Hc).
  eexists. split; [reflexivity|].
  destruct (moved_front (s_arr (buf (collapse b))) (Bytes (collapse b)) (Len (collapse b)))
    as (H1 & H2 & H3 & H4); [lia | unfold Len, cap in *; lia |].
  rewrite H1, H2. fold (cap (buf (collapse b))). fold (Cap (collapse b)).
  rewrite collapse_Cap, collapse_Bytes by exact Hwf. auto.
Qed.

Lemma grow_reallocation (n : Z) (b : Buffer) :
  buffer_wf b -> 0 < n -> grow_route n b = Reallocation ->
  grow n b =
    (let unread := Len (collapse b) in
     let newCap := nextPowerOfTwo (wrap64 (unread + n)) in
     if (0 <=? unread) && (unread <=? newCap)
     then Some (mkBuffer (mkSlice (fst (copy_at (replicate (Z.to_nat newCap) x00) 0 unread
                                          (Bytes (collapse b)))) unread) 0)
     else None).
Proof.
  intros Hwf Hn. unfold grow_route, grow.
  destruct (Z.leb_spec n 0); [lia|].
  destruct (n <=? _); [discriminate|].
  fold (Len (collapse b)).
  destruct (_ && _); [discriminate|]. intros _.
  unfold make_slice. cbn zeta.
  destruct (_ && _); reflexivity.
Qed.

(** Whenever [grow] returns, the invariant holds, the unread bytes are the
    same and no drained prefix is left; a positive request that did not
    overflow has its room. *)
Lemma grow_inv (n : Z) (b b' : Buffer) :
  buffer_wf b -> 0 < n <= max_int -> grow n b = Some b' ->
  buffer_wf b' /\ tidy b' /\ Bytes b' = Bytes b /\ Cap b <= Cap b' /\
  (len (buf b') + n <= cap (buf b') \/
   (max_int < Len b + n /\ max_int < len (buf b') + n /\
    wrap64 (len (buf b') + n) < 0)).
Proof.
  intros Hwf Hn Hg.
  pose proof (collapse_wf b Hwf) as Hwf0.
  pose proof (collapse_tidy b Hwf) as Ht0.
  pose proof (Bytes_length _ Hwf0) as HB.
  destruct (grow_route n b) eqn:Hroute.
  - rewrite grow_fast in Hg by (lia || assumption). injection Hg as <-.
    repeat split; try apply Hwf0; try assumption.
    + now apply collapse_Bytes.
    + rewrite collapse_Cap. lia.
    + left. unfold grow_route in Hroute.
      destruct (Z.leb_spec n (cap (buf (collapse b)) - len (buf (collapse b)))); [lia|].
      destruct (_ && _); discriminate.
  - destruct (grow_compaction n b Hwf ltac:(lia) Hroute) as (b2 & Hg2 & HC & HBy & Hr & Hl).
    rewrite Hg2 in Hg. injection Hg as <-.
    unfold grow_route in Hroute.
    destruct (n <=? _); [discriminate|].
    destruct (Z.ltb_spec 0 (r (collapse b))) as [Hrpos|]; [|discriminate].
    destruct (Z.leb_spec (wrap64 (Len (collapse b) + n)) (cap (buf (collapse b)))) as [Hw|];
      [|discriminate].
    pose proof (collapse_Cap b) as HCc.
    pose proof (collapse_Len b Hwf) as HLc.
    destruct Hwf0 as (Hr0 & Hl0 & Hc0).
    unfold buffer_wf, tidy, Cap, Len in *.
    repeat split; try lia; [exact HBy|].
    destruct (Z_le_gt_dec (len (buf (collapse b)) - r (collapse b) + n) max_int) as [Hok|Hov].
    + left. rewrite wrap64_id in Hw by (unfold in_int, min_int, max_int in *; lia). lia.
    + right. rewrite Hl. split; [lia|]. split; [lia|]. apply wrap64_overflow. lia.
  - rewrite (grow_reallocation n b Hwf ltac:(lia) Hroute) in Hg. cbn zeta in Hg.
    set (u := Len (collapse b)) in *.
    set (newCap := nextPowerOfTwo (wrap64 (u + n))) in *.
    destruct (Z.leb_spec 0 u) as [Hu0|]; [|discriminate].
    destruct (Z.leb_spec u newCap) as [HuC|]; [|discriminate].
    cbn [andb] in Hg. injection Hg as <-.
    assert (Hreq : 0 < u + n <= 2 ^ 62 /\ wrap64 (u + n) = u + n).
    { destruct Hwf0 as (Hr0 & Hl0 & Hc0). fold u in HB.
      assert (u <= max_int) by (unfold u, Len; lia).
      destruct (Z_le_gt_dec (u + n) max_int) as [Hok|Hov].
      - assert (Hw : wrap64 (u + n) = u + n)
          by (apply wrap64_id; unfold in_int, min_int, max_int in *; lia).
        split; [|exact Hw]. split; [lia|].
        destruct (Z_le_gt_dec (u + n) (2 ^ 62)) as [|Hbig]; [assumption|].
        unfold newCap in HuC. rewrite Hw, nextPowerOfTwo_overflow in HuC by lia.
        unfold min_int in HuC. lia.
      - exfalso. pose proof (wrap64_overflow (u + n) ltac:(lia)) as Hneg.
        unfold newCap in HuC. rewrite nextPowerOfTwo_nonpos in HuC by lia.
        assert (u = 0) by lia. lia. }
    destruct Hreq as [Hreq Hwrap]. unfold newCap in *. rewrite Hwrap in *.
    destruct (nextPowerOfTwo_least (u + n) Hreq) as [[Hlo Hhi] _].
    destruct (moved_front (replicate (Z.to_nat (nextPowerOfTwo (u + n))) x00)
                (Bytes (collapse b)) u) as (H1 & H2 & H3 & H4).
    { unfold u. lia. } { rewrite length_replicate. lia. }
    rewrite length_replicate in H1. cbn zeta in *.
    set (b2 := mkBuffer _ 0) in *.
    unfold buffer_wf, tidy. fold (Cap b2). rewrite H1, H2, H3, H4.
    rewrite collapse_Bytes by exact Hwf.
    assert (Cap b <= u + n).
    { unfold grow_route in Hroute.
      destruct (Z.leb_spec n (cap (buf (collapse b)) - len (buf (collapse b)))) as [|Hnf];
        [discriminate|].
      fold (Cap (collapse b)) in Hnf. rewrite collapse_Cap in Hnf.
      destruct Hwf0 as (Hr0 & Hl0 & Hc0). unfold u, Len.
      destruct (Z.ltb_spec 0 (r (collapse b))) as [Hrpos|Hr00].
      - cbn [andb] in Hroute. fold u in Hroute. rewrite Hwrap in Hroute.
        destruct (Z.leb_spec (u + n) (cap (buf (collapse b)))) as [|Hnc]; [discriminate|].
        fold (Cap (collapse b)) in Hnc. rewrite collapse_Cap in Hnc. unfold u, Len in Hnc. lia.
      - lia. }
    unfold max_int. repeat split; lia.
Qed.

(** With the allocation granted, a request that keeps the content within
    [2^62] bytes is served. *)
Lemma grow_total (n : Z) (b : Buffer) :
  buffer_wf b -> 0 < n -> Len b + n <= 2 ^ 62 ->
  exists b', grow n b = Some b'.
Proof.
  intros Hwf Hn Hsz.
  destruct (grow_route n b) eqn:Hroute.
  - eexists. now apply grow_fast.
  - destruct (grow_compaction n b Hwf Hn Hroute) as (b' & Hg & _). eauto.
  - rewrite (grow_reallocation n b Hwf Hn Hroute). cbn zeta.
    rewrite collapse_Len by exact Hwf.
    assert (Hu : 0 <= Len b) by (destruct Hwf as (? & ? & ?); unfold Len; lia).
    rewrite wrap64_id by (unfold in_int, min_int, max_int; lia).
    destruct (nextPowerOfTwo_least (Len b + n) ltac:(lia)) as [[Hlo _] _].
    destruct (Z.leb_spec 0 (Len b)); [|lia].
    destruct (Z.leb_spec (Len b) (nextPowerOfTwo (Len b + n))); [|lia].
    cbn [andb]. eauto.
Qed.

(** * append *)

Lemma append_in_place (s : slice) (p : list byte) :
  0 <= len s -> len s + Z.of_nat (length p) <= cap s ->
  exists s', append s p = Some s' /\
    cap s' = cap s /\ len s' = len s + Z.of_nat (length p) /\ elems s' = elems s ++ p.
Proof.
  intros Hl Hfit. unfold append.
  destruct (Z.leb_spec (len s + Z.of_nat (length p)) (cap s)); [|lia].
  eexists. split; [reflexivity|].
  set (n := Z.of_nat (length p)) in *.
  pose proof (copy_at_length (s_arr s) p (len s) n Hl ltac:(lia) ltac:(unfold cap in *; lia)) as HL.
  pose proof (copy_at_take (s_arr s) p (len s) n Hl ltac:(lia) ltac:(unfold cap in *; lia)) as HT.
  fold n in HT. rewrite Z.min_id in HT.
  unfold cap, elems, len; cbn [s_arr s_len]. fold (len s).
  rewrite HL, HT. repeat split.
  f_equal. apply take_ge. unfold n. lia.
Qed.

(** What [append] can do when its argument is an [int]-sized slice. *)
Lemma append_inv (s s' : slice) (p : list byte) :
  0 <= len s <= cap s -> cap s <= max_int -> Z.of_nat (length p) <= max_int ->
  append s p = Some s' ->
  cap s <= cap s' <= max_int /\ len s' = len s + Z.of_nat (length p) /\
  len s' <= cap s' /\ elems s' = elems s ++ p.
Proof.
  intros Hl Hc Hp Ha.
  destruct (Z_le_gt_dec (len s + Z.of_nat (length p)) (cap s)) as [Hfit|Hnofit].
  - destruct (append_in_place s p ltac:(lia) Hfit) as (s2 & Ha2 & H1 & H2 & H3).
    rewrite Ha2 in Ha. injection Ha as <-. rewrite H1, H2. repeat split; (lia || assumption).
  - unfold append in Ha.
    destruct (Z.leb_spec (len s + Z.of_nat (length p)) (cap s)); [lia|].
    destruct (Z.ltb_spec (wrap64 (len s + Z.of_nat (length p))) 0) as [|Hpos]; [discriminate|].
    injection Ha as <-.
    assert (len s + Z.of_nat (length p) <= max_int).
    { destruct (Z_le_gt_dec (len s + Z.of_nat (length p)) max_int); [assumption|].
      pose proof (wrap64_overflow (len s + Z.of_nat (length p)) ltac:(lia)). lia. }
    pose proof (elems_length s Hl) as HE.
    set (s2 := mkSlice (elems s ++ p) (len s + Z.of_nat (length p))).
    assert (HC2 : cap s2 = len s + Z.of_nat (length p)).
    { unfold s2, cap; cbn [s_arr]. rewrite length_app. lia. }
    assert (HL2 : len s2 = len s + Z.of_nat (length p)) by reflexivity.
    assert (HE2 : elems s2 = elems s ++ p).
    { unfold s2, elems at 1; cbn [s_arr s_len]. apply take_ge. rewrite length_app. lia. }
    rewrite HC2, HL2, HE2. repeat split; lia.
Qed.

(** After [grow] the bytes always go in place: the reallocating branch of
    [append] is not reached from [Write]. *)
Lemma append_after_grow (n : Z) (b b' : Buffer) (p : list byte) :
  buffer_wf b -> n = Z.of_nat (length p) -> 0 < n <= max_int ->
  grow n b = Some b' ->
  append (buf b') p = None \/
  exists s', append (buf b') p = Some s' /\ cap s' = cap (buf b').
Proof.
  intros Hwf -> Hn Hg.
  destruct (grow_inv _ _ _ Hwf Hn Hg) as ((Hr & Hl & Hc) & _ & _ & _ & [Hroom | (_ & Hov & Hneg)]).
  - right. destruct (append_in_place (buf b') p ltac:(lia) Hroom) as (s' & Ha & HC & _).
    eauto.
  - left. unfold append.
    destruct (Z.leb_spec (len (buf b') + Z.of_nat (length p)) (cap (buf b'))); [lia|].
    destruct (Z.ltb_spec (wrap64 (len (buf b') + Z.of_nat (length p))) 0); [reflexivity | lia].
Qed.

(** * Write, WriteString, WriteByte *)

Lemma WriteString_Write (s : list byte) (b : Buffer) : WriteString s b = Write s b.
Proof. reflexivity. Qed.

Lemma WriteByte_Write (v : byte) (b : Buffer) :
  WriteByte v b = (fun x => (fst x, snd (snd x))) <$> Write [v] b.
Proof.
  unfold WriteByte, Write. change (Z.of_nat (length [v])) with 1.
  change (1 =? 0) with false. cbv iota.
  destruct (grow 1 (collapse b)) as [b1|]; [|reflexivity]. cbn.
  destruct (append (buf b1) [v]); reflexivity.
Qed.

Lemma Bytes_append (b : Buffer) (s' : slice) (p : list byte) :
  buffer_wf b -> elems s' = elems (buf b) ++ p ->
  Bytes (mkBuffer s' (r b)) = Bytes b ++ p.
Proof.
  intros (Hr & Hl & _) He. unfold Bytes; cbn [buf r]. rewrite He.
  apply drop_app_le. pose proof (elems_length (buf b) ltac:(lia)). lia.
Qed.

Lemma Write_inv (p : list byte) (b b' : Buffer) (res : Z * option error) :
  buffer_wf b -> Z.of_nat (length p) <= max_int ->
  Write p b = Some (b', res) ->
  buffer_wf b' /\ Bytes b' = Bytes b ++ p /\ res = (Z.of_nat (length p), None) /\
  Cap b <= Cap b' /\ (tidy b -> tidy b').
Proof.
  intros Hwf Hp HW. unfold Write in HW.
  destruct (Z.eqb_spec (Z.of_nat (length p)) 0) as [Hz|Hnz].
  - injection HW as <- <-. destruct p; [|cbn in Hz; lia].
    rewrite app_nil_r, Hz. repeat split; try apply Hwf; auto; lia.
  - destruct (grow _ _) as [b1|] eqn:Hg; [|discriminate]. cbn in HW.
    destruct (append _ _) as [s'|] eqn:Ha; [|discriminate]. cbn in HW.
    injection HW as <- <-.
    pose proof (collapse_wf b Hwf) as Hwf0.
    destruct (grow_inv (Z.of_nat (length p)) _ _ Hwf0 ltac:(lia) Hg)
      as (Hwf1 & Ht1 & HB1 & HC1 & _).
    pose proof Hwf1 as (Hr & Hl & Hc).
    destruct (append_inv (buf b1) s' p ltac:(lia) Hc Hp Ha) as (HC2 & HL2 & HLC & HE).
    rewrite collapse_Cap in HC1.
    repeat split; cbn [buf r]; try lia.
    + rewrite (Bytes_append b1 s' p Hwf1 HE), HB1. now rewrite collapse_Bytes.
    + unfold Cap in *; cbn [buf]. lia.
    + intros _. left. cbn [buf r]. lia.
Qed.

Lemma Write_total (p : list byte) (b : Buffer) :
  buffer_wf b -> Len b + Z.of_nat (length p) <= 2 ^ 62 ->
  exists b', Write p b = Some (b', (Z.of_nat (length p), None)).
Proof.
  intros Hwf Hsz. unfold Write.
  destruct (Z.eqb_spec (Z.of_nat (length p)) 0) as [Hz|Hnz].
  - rewrite Hz. eauto.
  - pose proof (collapse_wf b Hwf) as Hwf0.
    assert (Hu : 0 <= Len b) by (destruct Hwf as (? & ? & ?); unfold Len; lia).
    destruct (grow_total (Z.of_nat (length p)) (collapse b) Hwf0 ltac:(lia)) as (b1 & Hg).
    { rewrite collapse_Len by exact Hwf. lia. }
    rewrite Hg. cbn.
    destruct (grow_inv (Z.of_nat (length p)) _ _ Hwf0 ltac:(unfold max_int; lia) Hg)
      as ((Hr & Hl & Hc) & _ & HB1 & _ & [Hroom | (Hov & _)]).
    + destruct (append_in_place (buf b1) p ltac:(lia) Hroom) as (s' & Ha & _).
      rewrite Ha. cbn. eauto.
    + exfalso. rewrite collapse_Len in Hov by exact Hwf. unfold max_int in *. lia.
Qed.

(** * Read *)

Lemma Bytes_advance (b : Buffer) (n : Z) :
  0 <= r b -> 0 <= n ->
  Bytes (mkBuffer (buf b) (r b + n)) = drop (Z.to_nat n) (Bytes b).
Proof.
  intros Hr Hn. unfold Bytes; cbn [buf r].
  rewrite drop_drop. f_equal. lia.
Qed.

Lemma Read_spec (p : list byte) (b b' : Buffer) (p' : list byte) (n : Z) (err : option error) :
  buffer_wf b -> Read p b = (b', p', (n, err)) ->
  n = Z.min (Z.of_nat (length p)) (Len b) /\
  take (Z.to_nat n) p' = take (Z.to_nat n) (Bytes b) /\
  Bytes b' = drop (Z.to_nat n) (Bytes b) /\
  buffer_wf b' /\ Cap b' = Cap b /\
  (tidy b -> tidy b') /\ (0 < Z.of_nat (length p) -> tidy b') /\
  (err = Some EOF <-> 0 < Z.of_nat (length p) /\ Len b = 0) /\
  (err = None \/ err = Some EOF).
Proof.
  intros Hwf HR. pose proof Hwf as (Hr & Hl & Hc).
  pose proof (Bytes_length b Hwf) as HB.
  unfold Read in HR.
  destruct (Z.eqb_spec (Z.of_nat (length p)) 0) as [Hz|Hnz].
  - injection HR as <- <- <- <-. rewrite Hz.
    unfold Len. repeat split; try apply Hwf; auto; try lia; try discriminate.
  - destruct (Z.leb_spec (len (buf b)) (r b)) as [Hd|Hu].
    + injection HR as <- <- <- <-.
      assert (HL0 : Len b = 0) by (unfold Len; lia).
      assert (HB0 : Bytes b = []).
      { destruct (Bytes b); [reflexivity | cbn in HB; lia]. }
      rewrite HL0, HB0, Reset_Bytes.
      repeat split; try (apply Reset_wf; exact Hwf); auto; try lia;
        try (right; split; reflexivity).
    + destruct (copy_at p 0 (Z.of_nat (length p)) (Bytes b)) as [q m] eqn:Hcp.
      injection HR as <- <- <- <-.
      assert (Hm : m = Z.min (Z.of_nat (length p)) (Len b)).
      { rewrite <- HB. now apply (f_equal snd) in Hcp. }
      assert (Hq : take (Z.to_nat m) q = take (Z.to_nat m) (Bytes b)).
      { pose proof (copy_at_take p (Bytes b) 0 (Z.of_nat (length p))
                      ltac:(lia) ltac:(lia) ltac:(lia)) as HT.
        rewrite Hcp, HB, <- Hm, Z.add_0_l in HT. exact HT. }
      set (b1 := mkBuffer (buf b) (r b + m)).
      assert (Hwf1 : buffer_wf b1).
      { unfold buffer_wf, b1, Len in *; cbn [buf r]. lia. }
      repeat split; try apply (collapse_wf b1 Hwf1); auto.
      * rewrite collapse_Bytes by exact Hwf1. apply Bytes_advance; unfold Len in *; lia.
      * now rewrite collapse_Cap.
      * intros _. now apply collapse_tidy.
      * intros _. now apply collapse_tidy.
      * discriminate.
      * discriminate.
      * intros [_ H0]. unfold Len in H0. lia.
Qed.

(** * WriteTo *)

Lemma WriteTo_empty (w : Writer) (b : Buffer) :
  buffer_wf b -> Len b = 0 -> WriteTo w b = (Reset b, None, (0, None)).
Proof.
  intros (Hr & Hl & _) H0. unfold WriteTo, Len in *.
  destruct (Z.leb_spec (len (buf b)) (r b)); [reflexivity | lia].
Qed.

Lemma WriteTo_inv (w : Writer) (b b' : Buffer) (o : option (list byte)) (res : Z * option error) :
  buffer_wf b -> writer_ok w -> WriteTo w b = (b', o, res) ->
  buffer_wf b' /\ Cap b' = Cap b /\ (tidy b -> tidy b') /\
  Bytes b' = drop (Z.to_nat (fst res)) (Bytes b).
Proof.
  intros Hwf Hw HW. pose proof Hwf as (Hr & Hl & Hc).
  pose proof (Bytes_length b Hwf) as HB.
  unfold WriteTo in HW.
  destruct (Z.leb_spec (len (buf b)) (r b)) as [Hd|Hu].
  - injection HW as <- <- <-. rewrite Reset_Bytes. cbn [fst Z.to_nat drop].
    repeat split; try (apply Reset_wf; exact Hwf); try (right; split; reflexivity).
    unfold Len in HB. destruct (Bytes b); [reflexivity | cbn in HB; lia].
  - specialize (Hw (Bytes b)). destruct (w (Bytes b)) as [n err]. cbn [fst] in Hw.
    assert (Hres : fst res = n /\
      b' = (if 0 <? n then collapse (mkBuffer (buf b) (wrap64 (r b + n))) else b)).
    { destruct err; [injection HW as <- <- <-; auto|].
      destruct (negb _); injection HW as <- <- <-; auto. }
    destruct Hres as [-> ->].
    destruct (Z.ltb_spec 0 n) as [Hpos|Hnp].
    + rewrite wrap64_id by (unfold in_int, min_int, max_int, Len in *; lia).
      set (b1 := mkBuffer (buf b) (r b + n)).
      assert (Hwf1 : buffer_wf b1).
      { unfold buffer_wf, b1, Len in *; cbn [buf r]. lia. }
      repeat split; try apply (collapse_wf b1 Hwf1).
      * now rewrite collapse_Cap.
      * intros _. now apply collapse_tidy.
      * rewrite collapse_Bytes by exact Hwf1. apply Bytes_advance; lia.
    + replace n with 0 by lia. repeat split; try apply Hwf; auto.
Qed.

(** * Reserve, Grow, ReadFrom *)

Lemma Grow_inv (n : Z) (b b' : Buffer) :
  buffer_wf b -> in_int n -> Grow n b = Some b' ->
  buffer_wf b' /\ (tidy b -> tidy b') /\ Bytes b' = Bytes b /\ Cap b <= Cap b'.
Proof.
  intros Hwf Hn HG. unfold Grow in HG.
  destruct (Z.ltb_spec 0 n).
  - destruct (grow_inv n b b' Hwf ltac:(unfold in_int in Hn; lia) HG) as (? & ? & ? & ? & _).
    auto.
  - injection HG as <-. repeat split; try apply Hwf; auto; lia.
Qed.

Lemma Reserve_inv (n : Z) (b b' : Buffer) (view : list byte) :
  buffer_wf b -> in_int n -> Reserve n b = Some (b', view) ->
  buffer_wf b' /\ (tidy b -> tidy b') /\ Cap b <= Cap b' /\
  Len b' = Len b + Z.max 0 n /\ Z.of_nat (length view) = Z.max 0 n.
Proof.
  intros Hwf Hn HR. unfold Reserve in HR.
  destruct (Z.leb_spec n 0).
  - injection HR as <- <-. cbn [length]. repeat split; try apply Hwf; auto; lia.
  - destruct (grow n b) as [b1|] eqn:Hg; [|discriminate]. cbn in HR.
    destruct (reslice _ _) as [s|] eqn:Hs; [|discriminate]. cbn in HR.
    injection HR as <- <-.
    destruct (grow_inv n b b1 Hwf ltac:(unfold in_int in Hn; lia) Hg)
      as (Hwf1 & Ht1 & HB1 & HC1 & _).
    pose proof (Bytes_length b Hwf) as HLb. pose proof (Bytes_length b1 Hwf1) as HLb1.
    rewrite HB1, HLb in HLb1.
    destruct Hwf1 as (Hr & Hl & Hc).
    unfold reslice in Hs.
    destruct (Z.leb_spec 0 (wrap64 (len (buf b1) + n))) as [Hk0|]; [|discriminate].
    destruct (Z.leb_spec (wrap64 (len (buf b1) + n)) (cap (buf b1))) as [HkC|]; [|discriminate].
    injection Hs as <-.
    assert (Hk : wrap64 (len (buf b1) + n) = len (buf b1) + n).
    { destruct (Z_le_gt_dec (len (buf b1) + n) max_int).
      - apply wrap64_id. unfold in_int, min_int, max_int in *. lia.
      - pose proof (wrap64_overflow (len (buf b1) + n)
                      ltac:(unfold in_int, max_int in *; lia)). lia. }
    rewrite Hk in *.
    unfold buffer_wf, tidy, Cap, Len, cap, len, elems in *; cbn [buf r s_arr s_len] in *.
    repeat split; try lia.
    rewrite length_drop, length_take. lia.
Qed.

Lemma readFrom_space_inv (b b' : Buffer) :
  buffer_wf b -> readFrom_space b = Some b' ->
  buffer_wf b' /\ (tidy b -> tidy b') /\ Cap b <= Cap b'.
Proof.
  intros Hwf Hs. unfold readFrom_space in Hs.
  destruct (_ =? _).
  - destruct (grow_inv minRead b b' Hwf ltac:(unfold minRead, max_int; lia) Hs)
      as (? & ? & _ & ? & _). auto.
  - injection Hs as <-. split; [exact Hwf|]. split; [auto | lia].
Qed.

Lemma readFrom_take_inv (b b' : Buffer) (a : answer) (n : Z) :
  buffer_wf b -> Z.of_nat (length (a_data a)) <= max_int ->
  readFrom_take b a = Some (b', n) ->
  buffer_wf b' /\ (tidy b -> tidy b') /\ Cap b' = Cap b.
Proof.
  intros Hwf Ha HT. pose proof Hwf as (Hr & Hl & Hc). unfold readFrom_take in HT.
  destruct (Z.ltb_spec 0 (Z.of_nat (length (a_data a)))) as [Hpos|].
  - destruct (reslice _ _) as [s|] eqn:Hs; [|discriminate]. cbn in HT.
    injection HT as <- <-.
    set (m := Z.of_nat (length (a_data a))) in *.
    pose proof (copy_at_length (s_arr (buf b)) (a_data a) (len (buf b))
                  (cap (buf b) - len (buf b)) ltac:(lia) ltac:(lia)
                  ltac:(unfold cap in *; lia)) as HL.
    set (arr' := fst (copy_at (s_arr (buf b)) (len (buf b))
                        (cap (buf b) - len (buf b)) (a_data a))) in *.
    assert (Hcap : cap (mkSlice arr' (cap (buf b))) = cap (buf b)).
    { unfold cap at 1; cbn [s_arr]. now rewrite HL. }
    unfold reslice in Hs. rewrite Hcap in Hs.
    destruct (Z.leb_spec 0 (wrap64 (len (buf b) + m))) as [Hk0|]; [|discriminate].
    destruct (Z.leb_spec (wrap64 (len (buf b) + m)) (cap (buf b))) as [HkC|]; [|discriminate].
    injection Hs as <-.
    assert (Hk : wrap64 (len (buf b) + m) = len (buf b) + m).
    { destruct (Z_le_gt_dec (len (buf b) + m) max_int).
      - apply wrap64_id. unfold in_int, min_int, max_int in *. lia.
      - pose proof (wrap64_overflow (len (buf b) + m) ltac:(lia)). lia. }
    rewrite Hk in *.
    unfold buffer_wf, tidy, Cap, cap, len in *; cbn [buf r s_arr s_len] in *.
    rewrite HL. repeat split; lia.
  - injection HT as <- <-. repeat split; try apply Hwf; auto.
Qed.

Lemma readFrom_loop_inv (rd : list answer) :
  Forall (fun a => Z.of_nat (length (a_data a)) <= max_int) rd ->
  forall (total : Z) (b b' : Buffer) (res : Z * option error),
  buffer_wf b -> readFrom_loop rd total b = Some (b', res) ->
  buffer_wf b' /\ (tidy b -> tidy b') /\ Cap b <= Cap b'.
Proof.
  induction 1 as [|a rd Ha Hrd IH]; intros total b b' res Hwf HL; cbn in HL.
  - destruct (readFrom_space b) as [b1|] eqn:Hs; [|discriminate]. cbn in HL.
    injection HL as <- <-. now apply readFrom_space_inv.
  - destruct (readFrom_space b) as [b1|] eqn:Hs; [|discriminate]. cbn in HL.
    destruct (readFrom_space_inv b b1 Hwf Hs) as (Hwf1 & Ht1 & HC1).
    destruct (readFrom_take b1 a) as [[b2 n]|] eqn:HT; [|discriminate]. cbn in HL.
    destruct (readFrom_take_inv b1 b2 a n Hwf1 Ha HT) as (Hwf2 & Ht2 & HC2).
    destruct (a_err a) as [e|].
    + assert (b' = b2) as -> by (destruct e; now injection HL).
      split; [exact Hwf2|]. split; [auto | lia].
    + destruct (IH _ _ _ _ Hwf2 HL) as (Hwf3 & Ht3 & HC3).
      split; [exact Hwf3|]. split; [auto | lia].
Qed.

Lemma ReadFrom_inv (rd : list answer) (b b' : Buffer) (res : Z * option error) :
  Forall (fun a => Z.of_nat (length (a_data a)) <= max_int) rd ->
  buffer_wf b -> ReadFrom rd b = Some (b', res) ->
  buffer_wf b' /\ tidy b' /\ Cap b <= Cap b'.
Proof.
  intros Hrd Hwf HR. unfold ReadFrom in HR.
  destruct (readFrom_loop_inv rd Hrd _ _ _ _ (collapse_wf b Hwf) HR) as (H1 & H2 & H3).
  rewrite collapse_Cap in H3. split; [assumption|]. split; [|assumption].
  apply H2. now apply collapse_tidy.
Qed.

(** * Every operation keeps the invariant *)

Lemma apply_op_inv (op : buf_op) (b b' : Buffer) :
  buffer_wf b -> op_ok op -> apply_op op b = Some b' ->
  buffer_wf b' /\ (tidy b -> tidy b').
Proof.
  intros Hwf Hok Hop. destruct op; cbn [apply_op op_ok] in Hop, Hok.
  - destruct (Write p b) as [[b1 res]|] eqn:HW; cbn in Hop; [|discriminate]. injection Hop as <-.
    destruct (Write_inv p b b1 res Hwf Hok HW) as (? & _ & _ & _ & ?). auto.
  - rewrite WriteByte_Write in Hop.
    destruct (Write [v] b) as [[b1 res]|] eqn:HW; cbn in Hop; [|discriminate]. injection Hop as <-.
    destruct (Write_inv [v] b b1 res Hwf ltac:(cbn; unfold max_int; lia) HW)
      as (? & _ & _ & _ & ?). auto.
  - rewrite WriteString_Write in Hop.
    destruct (Write s b) as [[b1 res]|] eqn:HW; cbn in Hop; [|discriminate]. injection Hop as <-.
    destruct (Write_inv s b b1 res Hwf Hok HW) as (? & _ & _ & _ & ?). auto.
  - injection Hop as <-.
    destruct (Read p b) as [[b1 p'] [n err]] eqn:HR.
    destruct (Read_spec p b b1 p' n err Hwf HR) as (_ & _ & _ & ? & _ & ? & _). auto.
  - injection Hop as <-.
    destruct (WriteTo w b) as [[b1 o] res] eqn:HW.
    destruct (WriteTo_inv w b b1 o res Hwf Hok HW) as (? & _ & ? & _). auto.
  - destruct (ReadFrom rd b) as [[b1 res]|] eqn:HR; cbn in Hop; [|discriminate].
    injection Hop as <-.
    destruct (ReadFrom_inv rd b b1 res Hok Hwf HR) as (? & ? & _). auto.
  - destruct (Reserve n b) as [[b1 view]|] eqn:HR; cbn in Hop; [|discriminate]. injection Hop as <-.
    destruct (Reserve_inv n b b1 view Hwf Hok HR) as (? & ? & _). auto.
  - destruct (Grow_inv n b b' Hwf Hok Hop) as (? & ? & _). auto.
  - injection Hop as <-. split; [now apply Reset_wf | intros _; right; split; reflexivity].
Qed.

(** * Sequences of writes and of reads *)

Lemma do_write_spec (c : write_call) (b : Buffer) :
  buffer_wf b -> Len b + Z.of_nat (length (written c)) <= 2 ^ 62 ->
  exists b', do_write c b = Some (b', Z.of_nat (length (written c))) /\
    buffer_wf b' /\ Bytes b' = Bytes b ++ written c.
Proof.
  intros Hwf Hsz.
  assert (Hu : 0 <= Len b) by (destruct Hwf as (? & ? & ?); unfold Len; lia).
  destruct (Write_total (written c) b Hwf Hsz) as (b' & HW).
  destruct (Write_inv (written c) b b' _ Hwf ltac:(unfold max_int; lia) HW)
    as (Hwf' & HB & _).
  exists b'. split; [|auto].
  destruct c; cbn [do_write written] in *.
  - now rewrite HW.
  - rewrite WriteByte_Write, HW. reflexivity.
  - now rewrite WriteString_Write, HW.
Qed.

Lemma do_writes_spec (cs : list write_call) :
  forall b, buffer_wf b -> Len b + Z.of_nat (length (payload cs)) <= 2 ^ 62 ->
  exists b', do_writes cs b = Some (b', Z.of_nat (length (payload cs))) /\
    buffer_wf b' /\ Bytes b' = Bytes b ++ payload cs.
Proof.
  induction cs as [|c cs IH]; intros b Hwf Hsz.
  - exists b. cbn. rewrite app_nil_r. auto.
  - unfold payload in *. cbn [map concat] in *. rewrite length_app in Hsz.
    destruct (do_write_spec c b Hwf ltac:(lia)) as (b1 & H1 & Hwf1 & HB1).
    pose proof (Bytes_length b Hwf) as HLb. pose proof (Bytes_length b1 Hwf1) as HLb1.
    rewrite HB1, length_app in HLb1.
    destruct (IH b1 Hwf1 ltac:(lia)) as (b2 & H2 & Hwf2 & HB2).
    exists b2. cbn [do_writes]. rewrite H1. cbn. rewrite H2. cbn.
    rewrite length_app, Nat2Z.inj_add, HB2, HB1, app_assoc. auto.
Qed.

Lemma do_reads_spec (dsts : list (list byte)) :
  forall b, buffer_wf b ->
  buffer_wf (fst (do_reads dsts b)) /\
  delivered (snd (do_reads dsts b)) = take (Z.to_nat (room dsts)) (Bytes b) /\
  counted (snd (do_reads dsts b)) = Z.min (room dsts) (Len b) /\
  Bytes (fst (do_reads dsts b)) = drop (Z.to_nat (room dsts)) (Bytes b).
Proof.
  induction dsts as [|p dsts IH]; intros b Hwf.
  - cbn. pose proof Hwf as (? & ? & ?). unfold Len. repeat split; auto; lia.
  - cbn [do_reads].
    destruct (Read p b) as [[b1 p'] [n err]] eqn:HR.
    destruct (Read_spec p b b1 p' n err Hwf HR) as (Hn & Hp' & HB1 & Hwf1 & _).
    specialize (IH b1 Hwf1).
    destruct (do_reads dsts b1) as [b2 outs]. cbn [fst snd] in *.
    destruct IH as (Hwf2 & Hd & Hc & HB2).
    pose proof (Bytes_length b Hwf) as HLb. pose proof (Bytes_length b1 Hwf1) as HLb1.
    assert (Hroom : 0 <= room dsts).
    { clear. induction dsts; cbn; unfold room in *; cbn in *; lia. }
    assert (Hroom' : room (p :: dsts) = Z.of_nat (length p) + room dsts) by reflexivity.
    assert (HLen1 : Len b1 = Len b - n).
    { rewrite <- HLb1, HB1, length_drop. lia. }
    unfold delivered, counted in *. cbn [map concat foldr fst snd].
    rewrite Hd, Hc, HB2, HB1, Hp', Hroom', HLen1, drop_drop.
    split; [assumption|]. split; [|split].
    + destruct (Z_le_gt_dec (Z.of_nat (length p)) (Len b)) as [Hle|Hgt].
      * replace n with (Z.of_nat (length p)) by lia.
        rewrite Z2Nat.inj_add by lia. now rewrite take_take_drop.
      * replace n with (Len b) by lia.
        rewrite (drop_ge (Bytes b)) by lia. rewrite take_nil, app_nil_r.
        rewrite !take_ge by lia. reflexivity.
    + lia.
    + destruct (Z_le_gt_dec (Z.of_nat (length p)) (Len b)) as [Hle|Hgt].
      * f_equal. lia.
      * rewrite !drop_ge by lia. reflexivity.
Qed.

(** * The two outcomes of grow that the growth contract names *)

Lemma grow_route_cases (n : Z) (b : Buffer) :
  buffer_wf b -> 0 < n -> Len b + n <= max_int ->
  match grow_route n b with
  | FastPath => n <= Cap b - len (buf (collapse b))
  | Compaction => Cap b - len (buf (collapse b)) < n /\ 0 < r (collapse b) /\ Len b + n <= Cap b
  | Reallocation =>
      Cap b - len (buf (collapse b)) < n /\ (r (collapse b) = 0 \/ Cap b < Len b + n)
  end.
Proof.
  intros Hwf Hn Hsz.
  pose proof (collapse_wf b Hwf) as (Hr & Hl & Hc).
  pose proof (collapse_Len b Hwf) as HL. pose proof (collapse_Cap b) as HC.
  unfold grow_route. rewrite HL. unfold Cap in *. rewrite HC.
  assert (Hu : 0 <= Len b) by (unfold Len in *; lia).
  rewrite wrap64_id by (unfold in_int, min_int, max_int in *; lia).
  destruct (Z.leb_spec n (cap (buf b) - len (buf (collapse b)))); [assumption|].
  destruct (Z.ltb_spec 0 (r (collapse b))); cbn [andb].
  - destruct (Z.leb_spec (Len b + n) (cap (buf b))); [auto|]. split; [assumption|]. now right.
  - split; [assumption|]. left. lia.
Qed.

(** A request that fits in the capacity together with the unread bytes
    never reallocates. *)
Lemma grow_within_capacity (n : Z) (b : Buffer) :
  buffer_wf b -> 0 < n -> Len b + n <= Cap b ->
  exists b', grow n b = Some b' /\ buffer_wf b' /\ Cap b' = Cap b /\
    Bytes b' = Bytes b /\ len (buf b') + n <= cap (buf b').
Proof.
  intros Hwf Hn Hfit.
  pose proof Hwf as (_ & _ & HcM). fold (Cap b) in HcM.
  pose proof (grow_route_cases n b Hwf Hn ltac:(lia)) as Hcases.
  pose proof (collapse_wf b Hwf) as Hwf0. pose proof Hwf0 as (Hr & Hl & Hc).
  pose proof (collapse_Len b Hwf) as HL. pose proof (collapse_Cap b) as HC.
  assert (Hu : 0 <= Len b) by (rewrite <- HL; unfold Len; lia).
  destruct (grow_route n b) eqn:Hroute.
  - exists (collapse b). rewrite grow_fast by assumption.
    rewrite collapse_Bytes by exact Hwf. unfold Cap in *. repeat split; auto; lia.
  - destruct (grow_compaction n b Hwf Hn Hroute) as (b' & Hg & HC' & HB' & Hr' & Hl').
    assert (Hg' := Hg).
    apply (grow_inv n b b' Hwf ltac:(lia)) in Hg'. destruct Hg' as (Hwf' & _).
    exists b'. unfold Cap in *. rewrite Hl', HL, HC'. auto.
  - exfalso. destruct Hcases as (Hnf & [Hr0 | Hbig]); [|lia].
    unfold Len, Cap in *. lia.
Qed.

(** A request that neither the free tail nor compaction can serve gets,
    with the allocation granted, storage of the next power of two,
    provided that is an [int]. *)
Lemma grow_reallocates (n : Z) (b : Buffer) :
  buffer_wf b -> 0 < n -> grow_route n b = Reallocation -> Len b + n <= 2 ^ 62 ->
  exists b', grow n b = Some b' /\
    Cap b' = nextPowerOfTwo (Len b + n) /\ Bytes b' = Bytes b /\
    r b' = 0 /\ len (buf b') = Len b.
Proof.
  intros Hwf Hn Hroute Hsz.
  rewrite (grow_reallocation n b Hwf Hn Hroute). cbn zeta.
  pose proof (collapse_wf b Hwf) as Hwf0.
  pose proof (Bytes_length _ Hwf0) as HB.
  rewrite collapse_Len in * by exact Hwf.
  assert (Hu : 0 <= Len b) by (destruct Hwf as (? & ? & ?); unfold Len; lia).
  rewrite wrap64_id by (unfold in_int, min_int, max_int; lia).
  destruct (nextPowerOfTwo_least (Len b + n) ltac:(lia)) as [[Hlo Hhi] _].
  destruct (Z.leb_spec 0 (Len b)); [|lia].
  destruct (Z.leb_spec (Len b) (nextPowerOfTwo (Len b + n))); [|lia].
  cbn [andb]. eexists. split; [reflexivity|].
  destruct (moved_front (replicate (Z.to_nat (nextPowerOfTwo (Len b + n))) x00)
              (Bytes (collapse b)) (Len b)) as (H1 & H2 & H3 & H4).
  { lia. } { rewrite length_replicate. lia. }
  rewrite length_replicate in H1. cbn zeta in *.
  rewrite H1, H2, H3, H4, collapse_Bytes by exact Hwf.
  repeat split. lia.
Qed.

Lemma nextPowerOfTwo_ceiling (m : Z) :
  0 < m <= 2 ^ 62 -> is_pow2_ceiling (nextPowerOfTwo m) m.
Proof.
  intros Hm. destruct (nextPowerOfTwo_least m Hm) as [[Hlo Hhi] Hleast].
  split; [|split; assumption].
  exists (Z.log2_up m). split; [apply Z.log2_up_nonneg | now apply nextPowerOfTwo_log2_up].
Qed.

Lemma do_write_within_capacity (c : write_call) (b : Buffer) :
  buffer_wf b -> Len b + Z.of_nat (length (written c)) <= Cap b ->
  exists b', do_write c b = Some (b', Z.of_nat (length (written c))) /\
    Cap b' = Cap b /\ Bytes b' = Bytes b ++ written c.
Proof.
  intros Hwf Hfit.
  assert (HW : exists b', Write (written c) b = Some (b', (Z.of_nat (length (written c)), None))
                 /\ Cap b' = Cap b /\ Bytes b' = Bytes b ++ written c).
  { unfold Write. destruct (Z.eqb_spec (Z.of_nat (length (written c))) 0) as [Hz|Hnz].
    - exists b. rewrite Hz. destruct (written c); [|cbn in Hz; lia].
      rewrite app_nil_r. auto.
    - pose proof (collapse_wf b Hwf) as Hwf0.
      destruct (grow_within_capacity (Z.of_nat (length (written c))) (collapse b) Hwf0
                  ltac:(lia)) as (b1 & Hg & Hwf1 & HC1 & HB1 & Hroom).
      { rewrite collapse_Len, collapse_Cap by exact Hwf. exact Hfit. }
      rewrite Hg. cbn. pose proof Hwf1 as (Hr & Hl & Hc).
      destruct (append_in_place (buf b1) (written c) ltac:(lia) Hroom)
        as (s' & Ha & HCs & HLs & HEs).
      rewrite Ha. cbn. eexists. split; [reflexivity|]. split.
      + unfold Cap in *; cbn [buf]. rewrite HCs, HC1. apply collapse_Cap.
      + rewrite (Bytes_append b1 s' _ Hwf1 HEs), HB1. now rewrite collapse_Bytes. }
  destruct HW as (b' & HW & HC & HB). exists b'. split; [|auto].
  destruct c; cbn [do_write written] in *.
  - now rewrite HW.
  - rewrite WriteByte_Write, HW. reflexivity.
  - now rewrite WriteString_Write, HW.
Qed.

(** * Size classes *)

Lemma index_Some {A : Type} (l : list A) (i : Z) (x : A) :
  index l i = Some x <-> 0 <= i /\ l !! Z.to_nat i = Some x.
Proof.
  unfold index. destruct (Z.ltb_spec i 0); split.
  - discriminate.
  - intros [H0 _]. lia.
  - auto.
  - now intros [_ H1].
Qed.

Lemma index_in_range {A : Type} (l : list A) (i : Z) :
  0 <= i < Z.of_nat (length l) -> exists x, index l i = Some x.
Proof.
  intros Hi. destruct (lookup_lt_is_Some_2 l (Z.to_nat i) ltac:(lia)) as [x Hx].
  exists x. apply index_Some. split; [lia | exact Hx].
Qed.

Lemma first_fit_Some (sizes : list Z) (t : Z) :
  forall i0 i s, first_fit sizes t i0 = Some (i, s) ->
  exists k : nat, i = i0 + Z.of_nat k /\ sizes !! k = Some s /\ t <= s /\
    Forall (fun s' => s' < t) (take k sizes).
Proof.
  induction sizes as [|x sizes IH]; intros i0 i s Hf; cbn in Hf; [discriminate|].
  destruct (Z.leb_spec t x).
  - injection Hf as <- <-. exists 0%nat. cbn. repeat split; auto; lia.
  - destruct (IH _ _ _ Hf) as (k & -> & Hk & Hts & Hpre).
    exists (S k). cbn [lookup list_lookup take].
    split; [lia|]. split; [exact Hk|]. split; [exact Hts|].
    constructor; [lia | assumption].
Qed.

Lemma first_fit_None (sizes : list Z) (t : Z) :
  forall i0, first_fit sizes t i0 = None -> Forall (fun s' => s' < t) sizes.
Proof.
  induction sizes as [|x sizes IH]; intros i0 Hf; cbn in Hf; [constructor|].
  destruct (Z.leb_spec t x); [discriminate|]. constructor; [lia | eauto].
Qed.

Lemma bucketIndex_range (sizes : list Z) (c : Z) :
  sizes <> [] -> 0 <= bucketIndex sizes c < Z.of_nat (length sizes).
Proof.
  intros Hne. assert (0 < Z.of_nat (length sizes)) by (destruct sizes; [congruence | cbn; lia]).
  unfold bucketIndex. destruct (Z.leb_spec c 0); [lia|].
  destruct (first_fit sizes c 0) as [[i s]|] eqn:Hf; [|lia].
  destruct (first_fit_Some _ _ _ _ _ Hf) as (k & -> & Hk & _).
  apply lookup_lt_Some in Hk. lia.
Qed.

(** The class chosen for a capacity holds it, unless the capacity exceeds
    every class: then it is the last class. *)
Lemma bucketIndex_class (sizes : list Z) (c : Z) (i : nat) (s : Z) :
  0 < c -> bucketIndex sizes c = Z.of_nat i -> sizes !! i = Some s ->
  c <= s \/ (Z.of_nat i = Z.of_nat (length sizes) - 1 /\ Forall (fun s' => s' < c) sizes).
Proof.
  intros Hc Hb Hs. unfold bucketIndex in Hb.
  destruct (Z.leb_spec c 0); [lia|].
  destruct (first_fit sizes c 0) as [[j s']|] eqn:Hf.
  - left. destruct (first_fit_Some _ _ _ _ _ Hf) as (k & -> & Hk & Hcs & _).
    assert (k = i) as -> by lia. congruence.
  - right. split; [lia|]. eapply first_fit_None; eassumption.
Qed.

Lemma chooseCap_total (sizes : list Z) (t : Z) :
  sizes <> [] -> exists c, chooseCap sizes t = Some c /\ c ∈ sizes.
Proof.
  intros Hne. unfold chooseCap.
  assert (Hlen : 0 < Z.of_nat (length sizes)) by (destruct sizes; [congruence | cbn; lia]).
  destruct (Z.leb_spec t 0).
  - destruct (index_in_range sizes 0 ltac:(lia)) as (c & Hc). exists c. split; [exact Hc|].
    apply index_Some in Hc. eapply list_elem_of_lookup_2. apply Hc.
  - destruct (first_fit sizes t 0) as [[j s]|] eqn:Hf.
    + destruct (first_fit_Some _ _ _ _ _ Hf) as (k & _ & Hk & _).
      exists s. split; [reflexivity|]. eapply list_elem_of_lookup_2. exact Hk.
    + destruct (index_in_range sizes (Z.of_nat (length sizes) - 1) ltac:(lia)) as (c & Hc).
      exists c. split; [exact Hc|].
      apply index_Some in Hc. eapply list_elem_of_lookup_2. apply Hc.
Qed.

Lemma index_last {A : Type} (l : list A) : index l (Z.of_nat (length l) - 1) = last l.
Proof.
  unfold index. destruct l as [|x l]; [reflexivity|].
  destruct (Z.ltb_spec (Z.of_nat (length (x :: l)) - 1) 0); [cbn [length] in *; lia|].
  rewrite last_lookup. f_equal. cbn [length]. lia.
Qed.

(** [chooseCap] for a positive target over sorted classes: the smallest
    class that holds the target, or the largest class when none does. *)
Lemma chooseCap_positive (sizes : list Z) (t c : Z) :
  StronglySorted Z.lt sizes -> 0 < t -> chooseCap sizes t = Some c ->
  (smallest_class_at_least sizes t c) \/
  (Forall (fun s => s < t) sizes /\ largest sizes = Some c).
Proof.
  intros Hsorted Ht Hc. unfold chooseCap in Hc.
  destruct (Z.leb_spec t 0); [lia|].
  destruct (first_fit sizes t 0) as [[j s]|] eqn:Hf.
  - injection Hc as ->. left.
    destruct (first_fit_Some _ _ _ _ _ Hf) as (k & _ & Hk & Htc & Hpre).
    split; [eapply list_elem_of_lookup_2; exact Hk|]. split; [exact Htc|].
    intros s Hs Hts. apply list_elem_of_lookup_1 in Hs. destruct Hs as [m Hm].
    destruct (Nat.lt_ge_cases m k) as [Hlt|Hge].
    + exfalso. rewrite Forall_lookup in Hpre.
      specialize (Hpre m s). rewrite lookup_take_lt in Hpre by exact Hlt.
      specialize (Hpre Hm). cbn in Hpre. lia.
    + destruct (Nat.eq_dec m k) as [->|Hne]; [assert (s = c) by congruence; lia|].
      rewrite <- (take_drop k sizes) in Hsorted.
      apply StronglySorted_app_1_r in Hsorted.
      rewrite (drop_S _ _ _ Hk) in Hsorted.
      apply StronglySorted_cons in Hsorted. destruct Hsorted as [Hall _].
      rewrite Forall_lookup in Hall.
      specialize (Hall (m - S k)%nat s). rewrite lookup_drop in Hall.
      replace (S k + (m - S k))%nat with m in Hall by lia.
      specialize (Hall Hm). lia.
  - right. split; [eapply first_fit_None; eassumption|].
    unfold largest. now rewrite <- index_last.
Qed.

(** * normalizeSizes *)

Lemma insert_sorted_elem (v x : Z) (l : list Z) :
  x ∈ insert_sorted v l <-> x = v \/ x ∈ l.
Proof.
  induction l as [|y l IH]; cbn.
  - rewrite list_elem_of_singleton, elem_of_nil. tauto.
  - destruct (v <=? y); rewrite !elem_of_cons; [tauto|]. rewrite IH. tauto.
Qed.

Lemma sort_Ints_elem (x : Z) (l : list Z) : x ∈ sort_Ints l <-> x ∈ l.
Proof.
  unfold sort_Ints. induction l as [|y l IH]; cbn; [tauto|].
  rewrite insert_sorted_elem, elem_of_cons, IH. tauto.
Qed.

Lemma insert_sorted_sorted (v : Z) (l : list Z) :
  StronglySorted Z.le l -> StronglySorted Z.le (insert_sorted v l).
Proof.
  induction 1 as [|y l Hl IH Hy]; cbn.
  - repeat constructor.
  - destruct (Z.leb_spec v y).
    + constructor; [now constructor|]. constructor; [assumption|].
      eapply Forall_impl; [exact Hy|]. cbn. intros; lia.
    + constructor; [assumption|]. apply Forall_forall. intros z Hz.
      apply insert_sorted_elem in Hz. destruct Hz as [->|Hz]; [lia|].
      rewrite Forall_forall in Hy. auto.
Qed.

Lemma sort_Ints_sorted (l : list Z) : StronglySorted Z.le (sort_Ints l).
Proof.
  unfold sort_Ints. induction l; cbn; [constructor | now apply insert_sorted_sorted].
Qed.

Lemma uniq_from_elem (l : list Z) : forall x y, y ∈ uniq_from x l -> y ∈ l.
Proof.
  induction l as [|z l IH]; intros x y Hy; cbn in Hy; [assumption|].
  destruct (negb (z =? x)).
  - apply elem_of_cons in Hy. destruct Hy as [->|Hy]; [left | right; eauto].
  - right. eauto.
Qed.

Lemma uniq_from_sorted (l : list Z) :
  forall x, StronglySorted Z.le l -> Forall (Z.le x) l ->
  StronglySorted Z.lt (uniq_from x l) /\ Forall (Z.lt x) (uniq_from x l).
Proof.
  induction l as [|y l IH]; intros x Hs Hx; cbn.
  - split; constructor.
  - apply StronglySorted_cons in Hs. destruct Hs as [Hy Hs].
    apply Forall_cons in Hx. destruct Hx as [Hxy Hx].
    destruct (Z.eqb_spec y x) as [->|Hne]; cbn [negb].
    + now apply IH.
    + destruct (IH y Hs Hy) as [IH1 IH2]. split.
      * now constructor.
      * constructor; [lia|]. eapply Forall_impl; [exact IH2|]. cbn. intros; lia.
Qed.

Lemma normalizeSizes_spec (s : list Z) :
  StronglySorted Z.lt (normalizeSizes s) /\
  forall x, x ∈ normalizeSizes s -> 0 < x /\ x ∈ s.
Proof.
  unfold normalizeSizes.
  pose proof (sort_Ints_sorted (filter (fun v => 0 < v) s)) as Hsorted.
  assert (Hel : forall x, x ∈ sort_Ints (filter (fun v => 0 < v) s) -> 0 < x /\ x ∈ s).
  { intros x Hx. apply sort_Ints_elem, list_elem_of_filter in Hx. exact Hx. }
  destruct (sort_Ints (filter (fun v => 0 < v) s)) as [|x l]; [split; [constructor|]|].
  - intros x Hx. now apply elem_of_nil in Hx.
  - apply StronglySorted_cons in Hsorted. destruct Hsorted as [Hx Hl].
    destruct (uniq_from_sorted l x Hl Hx) as [H1 H2]. split.
    + now constructor.
    + intros y Hy. apply Hel. apply elem_of_cons in Hy.
      destruct Hy as [->|Hy]; [left | right; eapply uniq_from_elem; eassumption].
Qed.

Lemma defaultBucketSizes_sorted : StronglySorted Z.lt defaultBucketSizes.
Proof.
  unfold defaultBucketSizes.
  repeat (constructor; [|repeat constructor; lia]). constructor.
Qed.

(** * The pool invariant *)

Lemma NewBufferPoolWithOptions_inv (opts : PoolOptions.t) :
  options_ok opts ->
  exists p, NewBufferPoolWithOptions opts = Some p /\ pool_inv p.
Proof.
  intros (Hsz & Hic & Hoe & Hsl & Hct). unfold NewBufferPoolWithOptions.
  set (sz := if Z.of_nat (length (normalizeSizes (PoolOptions.BucketSizes opts))) =? 0
             then defaultBucketSizes else normalizeSizes (PoolOptions.BucketSizes opts)).
  assert (Hsz' : sz <> [] /\ StronglySorted Z.lt sz /\ Forall (fun s => 0 < s <= max_int) sz).
  { unfold sz. destruct (normalizeSizes_spec (PoolOptions.BucketSizes opts)) as [Hs He].
    destruct (Z.eqb_spec (Z.of_nat (length (normalizeSizes (PoolOptions.BucketSizes opts)))) 0)
      as [Hz|Hnz].
    - split; [discriminate|]. split; [apply defaultBucketSizes_sorted|].
      unfold defaultBucketSizes, max_int. repeat constructor; lia.
    - split; [intros E; rewrite E in Hnz; cbn in Hnz; lia|]. split; [exact Hs|].
      apply Forall_forall. intros x Hx. destruct (He x Hx) as [Hpos Hin].
      rewrite Forall_forall in Hsz. specialize (Hsz x Hin). unfold in_int in Hsz. lia. }
  destruct Hsz' as (Hne & Hsorted & Hrange).
  assert (Hlen : 0 < Z.of_nat (length sz)) by (destruct sz; [congruence | cbn; lia]).
  destruct (index_in_range sz 0 ltac:(lia)) as (s0 & Hs0). rewrite Hs0. cbn.
  destruct (chooseCap_total sz (PoolOptions.InitialCap opts) Hne) as (dc & Hdc & Hdcin).
  rewrite Hdc. cbn.
  eexists. split; [reflexivity|].
  assert (Hs0r : 0 < s0 <= max_int).
  { apply index_Some in Hs0. destruct Hs0 as [_ Hs0].
    rewrite Forall_lookup in Hrange. exact (Hrange _ _ Hs0). }
  constructor; cbn; auto.
  - now rewrite length_replicate.
  - now rewrite length_replicate.
  - unfold minInt, in_int, max_int in *.
    destruct (Z.ltb_spec 0 (PoolOptions.SmallLimit opts)); [lia|].
    destruct (Z.ltb_spec 256 s0); lia.
  - intros i bs Hbs. apply lookup_replicate in Hbs. destruct Hbs as [-> _]. constructor.
Qed.

(** The invariant only reads the classes, the limit, the default capacity,
    the length of the hit counters and the sub-pools. *)
Lemma pool_inv_same_pools (p p' : BufferPool) :
  pool_inv p ->
  sizes p' = sizes p -> smallLimit p' = smallLimit p ->
  buckets p' = buckets p -> smallPool p' = smallPool p ->
  length (bucketHits p') = length (bucketHits p) ->
  defaultCap p' ∈ sizes p ->
  pool_inv p'.
Proof.
  intros [] Hs Hl Hb Hsp Hh Hd.
  constructor; rewrite ?Hs, ?Hl, ?Hb, ?Hsp, ?Hh; auto.
Qed.

Lemma pool_inv_set_pools (p : BufferPool) (bk : list (list Buffer)) (sp : list Buffer) :
  pool_inv p ->
  length bk = length (buckets p) ->
  Forall (fun b => at_rest b /\ Cap b <= smallLimit p) sp ->
  (forall (i : nat) bs, bk !! i = Some bs ->
     Forall (fun b => at_rest b /\ smallLimit p < Cap b /\
                      bucketIndex (sizes p) (Cap b) = Z.of_nat i) bs) ->
  pool_inv (set_pools bk sp p).
Proof.
  intros [] Hlen Hsp Hbk. constructor; cbn; auto. congruence.
Qed.

Lemma pool_inv_count_alloc (missed : bool) (p : BufferPool) :
  pool_inv p -> pool_inv (count_alloc missed p).
Proof.
  intros H. unfold count_alloc. destruct missed; [|exact H].
  apply (pool_inv_same_pools p); auto. apply H.
Qed.

Lemma pool_inv_count_get (p : BufferPool) : pool_inv p -> pool_inv (count_get p).
Proof. intros H. apply (pool_inv_same_pools p); auto. apply H. Qed.

Lemma pool_inv_report (p : BufferPool) : pool_inv p -> pool_inv (report p).
Proof.
  intros H. unfold report. destruct (metrics p); [|exact H].
  apply (pool_inv_same_pools p); auto. apply H.
Qed.

Lemma pool_get_spec (choice : option nat) (new b : Buffer) (pl pl' : list Buffer) (missed : bool) :
  pool_get choice new pl = (b, pl', missed) ->
  (b = new /\ pl' = pl /\ missed = true) \/
  (exists k, pl !! k = Some b /\ pl' = delete k pl /\ missed = false).
Proof.
  unfold pool_get. intros H. destruct choice as [k|]; [|injection H as <- <- <-; auto].
  destruct (pl !! k) as [b0|] eqn:Hk; injection H as <- <- <-; [right | left]; eauto.
Qed.

Lemma NewBuffer_at_rest (c : Z) : c <= max_int -> at_rest (NewBuffer c).
Proof. intros Hc. split; [now apply NewBuffer_wf | split; reflexivity]. Qed.

Lemma Reset_at_rest (b : Buffer) : buffer_wf b -> at_rest (Reset b).
Proof. intros H. split; [now apply Reset_wf | split; reflexivity]. Qed.

Lemma evict_inv (class : option nat) (k : nat) (p : BufferPool) :
  pool_inv p -> pool_inv (evict class k p).
Proof.
  intros H. unfold evict. destruct class as [i|].
  - apply pool_inv_set_pools; [exact H | apply length_alter | apply H |].
    intros j bs Hj. destruct (decide (i = j)) as [->|Hne].
    + rewrite list_lookup_alter_eq in Hj.
      destruct (buckets p !! j) as [bs0|] eqn:Hb; [|discriminate]. injection Hj as <-.
      apply Forall_delete. eapply inv_buckets; eassumption.
    + rewrite list_lookup_alter_ne in Hj by exact Hne. eapply inv_buckets; eassumption.
  - apply pool_inv_set_pools; [exact H | reflexivity | | apply H].
    apply Forall_delete. apply H.
Qed.

Lemma getSized_inv (choice : option nat) (n : Z) (p p' : BufferPool) (b : Buffer) :
  pool_inv p -> getSized choice n p = Some (b, p') -> pool_inv p'.
Proof.
  intros Hinv HG. unfold getSized in HG.
  destruct (_ <=? smallLimit p).
  - destruct (pool_get _ _ _) as [[b0 pl] missed] eqn:Hpg.
    destruct (fit _ b0); [|discriminate]. injection HG as <- <-.
    apply pool_inv_count_alloc, pool_inv_set_pools; [exact Hinv | reflexivity | | apply Hinv].
    apply pool_get_spec in Hpg. destruct Hpg as [(_ & -> & _) | (k & _ & -> & _)].
    + apply Hinv.
    + apply Forall_delete. apply Hinv.
  - destruct (index (buckets p) _) as [bucket|] eqn:Hb; [|discriminate]. cbn in HG.
    destruct (index (sizes p) _) as [capacity|]; [|discriminate]. cbn in HG.
    destruct (pool_get _ _ _) as [[b0 pl] missed] eqn:Hpg.
    destruct (fit _ b0); [|discriminate]. injection HG as <- <-.
    apply index_Some in Hb. destruct Hb as [Hi0 Hb].
    apply pool_inv_count_alloc, pool_inv_set_pools;
      [exact Hinv | apply length_insert | apply Hinv |].
    intros j bs Hj.
    destruct (decide (Z.to_nat (bucketIndex (sizes p) (if n <? 0 then 0 else n)) = j)) as [<-|Hne].
    + rewrite list_lookup_insert_eq in Hj by (eapply lookup_lt_Some; eassumption).
      injection Hj as <-.
      pose proof (inv_buckets p Hinv _ _ Hb) as Hall.
      apply pool_get_spec in Hpg. destruct Hpg as [(_ & -> & _) | (k & _ & -> & _)];
        [exact Hall | now apply Forall_delete].
    + rewrite list_lookup_insert_ne in Hj by exact Hne. eapply inv_buckets; eassumption.
Qed.

(** * Sampling and calibration *)

Lemma percentile_class_range (counts : list Z) (target : Z) :
  forall i0 cum i, percentile_class counts i0 cum target = Some i ->
  i0 <= i < i0 + Z.of_nat (length counts).
Proof.
  induction counts as [|c counts IH]; intros i0 cum i H; cbn in H; [discriminate|].
  destruct (_ <=? _).
  - injection H as <-. cbn [length]. lia.
  - apply IH in H. cbn [length]. lia.
Qed.

Lemma recalibratePercentile_inv (p : BufferPool) :
  pool_inv p ->
  exists p', recalibratePercentile p = Some p' /\ pool_inv p' /\ same_storage p p'.
Proof.
  intros Hinv. unfold recalibratePercentile.
  set (p0 := set_sampling (observed p) (replicate (length (bucketHits p)) 0) p).
  assert (Hst0 : same_storage p p0).
  { unfold same_storage, p0; cbn. rewrite length_replicate. auto. }
  assert (Hinv0 : pool_inv p0).
  { destruct Hst0 as (? & ? & ? & ? & ?).
    apply (pool_inv_same_pools p); auto. apply Hinv. }
  destruct (_ || _); [eauto|].
  destruct (percentile_class _ _ _ _) as [i|] eqn:Hpc; [|eauto].
  apply percentile_class_range in Hpc.
  rewrite (inv_hits_length p Hinv) in Hpc.
  destruct (index_in_range (sizes p) i ltac:(lia)) as (s & Hs).
  change (sizes p0) with (sizes p). rewrite Hs. cbn.
  eexists. split; [reflexivity|].
  set (p1 := set_calibration _ _ _ p0).
  assert (Hst1 : same_storage p p1).
  { unfold same_storage, p1, p0; cbn. rewrite length_replicate. auto. }
  assert (Hin : s ∈ sizes p).
  { apply index_Some in Hs. eapply list_elem_of_lookup_2. apply Hs. }
  assert (Hinv1 : pool_inv p1).
  { destruct Hst1 as (? & ? & ? & ? & ?). apply (pool_inv_same_pools p); auto. }
  split; [now apply pool_inv_report|].
  unfold report. destruct (metrics p1); [|exact Hst1].
  unfold same_storage in *; cbn. exact Hst1.
Qed.

Lemma observeSize_inv (size idx : Z) (p : BufferPool) :
  pool_inv p -> 0 <= idx < Z.of_nat (length (sizes p)) ->
  exists p', observeSize size idx p = Some p' /\ pool_inv p' /\ same_storage p p'.
Proof.
  intros Hinv Hidx. unfold observeSize.
  assert (Hrefl : same_storage p p) by (unfold same_storage; auto).
  destruct (_ || _); [eauto|].
  destruct (index_in_range (bucketHits p) idx) as (h & Hh).
  { rewrite (inv_hits_length p Hinv). exact Hidx. }
  rewrite Hh. cbn.
  set (p0 := set_sampling _ _ p).
  assert (Hst0 : same_storage p p0).
  { unfold same_storage, p0, add_hit; cbn. rewrite length_alter. auto. }
  assert (Hinv0 : pool_inv p0).
  { destruct Hst0 as (? & ? & ? & ? & ?).
    apply (pool_inv_same_pools p); auto. apply Hinv. }
  destruct (negb _); [eauto|].
  destruct (recalibratePercentile_inv p0 Hinv0) as (p1 & H1 & Hinv1 & Hst1).
  exists p1. split; [exact H1|]. split; [exact Hinv1|].
  unfold same_storage in *. intuition congruence.
Qed.

Lemma Put_inv (b : Buffer) (p : BufferPool) :
  pool_inv p -> buffer_wf b ->
  exists p', Put (Some b) p = Some p' /\ pool_inv p'.
Proof.
  intros Hinv Hwf. unfold Put.
  set (p0 := set_counters _ _ _ p).
  assert (Hinv0 : pool_inv p0).
  { apply (pool_inv_same_pools p); auto. apply Hinv. }
  change (smallLimit p0) with (smallLimit p). change (sizes p0) with (sizes p).
  change (cap (buf (Reset b))) with (Cap b).
  pose proof (bucketIndex_range (sizes p) (Cap b) (inv_sizes_nonempty p Hinv)) as Hidx.
  destruct (observeSize_inv (Cap b) (bucketIndex (sizes p) (Cap b)) p0 Hinv0 Hidx)
    as (p1 & Ho & Hinv1 & (Hs1 & Hl1 & Hb1 & Hsp1 & _)).
  rewrite Ho. cbn.
  change (sizes p0) with (sizes p) in Hs1. change (smallLimit p0) with (smallLimit p) in Hl1.
  destruct (Z.leb_spec (Cap b) (smallLimit p)) as [Hsmall|Hbig].
  - eexists. split; [reflexivity|].
    apply pool_inv_set_pools; [exact Hinv1 | reflexivity | | apply Hinv1].
    constructor; [|apply Hinv1]. rewrite Hl1. split; [now apply Reset_at_rest | exact Hsmall].
  - destruct (index_in_range (buckets p1) (bucketIndex (sizes p) (Cap b))) as (bucket & Hbk).
    { rewrite (inv_buckets_length p1 Hinv1), Hs1. exact Hidx. }
    rewrite Hbk. cbn. eexists. split; [reflexivity|].
    apply index_Some in Hbk. destruct Hbk as [_ Hbk].
    apply pool_inv_set_pools; [exact Hinv1 | apply length_insert | apply Hinv1 |].
    intros j bs Hj.
    destruct (decide (Z.to_nat (bucketIndex (sizes p) (Cap b)) = j)) as [<-|Hne].
    + rewrite list_lookup_insert_eq in Hj by (eapply lookup_lt_Some; eassumption).
      injection Hj as <-. constructor; [|eapply inv_buckets; eassumption].
      rewrite Hl1, Hs1. split; [now apply Reset_at_rest|]. split; [exact Hbig|].
      change (Cap (Reset b)) with (Cap b). lia.
    + rewrite list_lookup_insert_ne in Hj by exact Hne. eapply inv_buckets; eassumption.
Qed.

Lemma Calibrate_inv (observed : Z) (p : BufferPool) :
  pool_inv p -> exists p', Calibrate observed p = Some p' /\ pool_inv p'.
Proof.
  intros Hinv. unfold Calibrate. destruct (_ <=? _); [eauto|].
  destruct (chooseCap_total (sizes p) observed (inv_sizes_nonempty p Hinv)) as (c & Hc & Hin).
  rewrite Hc. cbn. eexists. split; [reflexivity|].
  apply pool_inv_report. apply (pool_inv_same_pools p); auto.
Qed.

Lemma reachable_inv (p : BufferPool) : reachable p -> pool_inv p.
Proof.
  induction 1 as [opts p Hok Hnew | p choice b p' _ IH HG | p choice n b p' _ IH _ HG
                 | p choice n b release p' _ IH _ HB | p b p' _ IH Hwf HP | p p' _ IH HP
                 | p observed p' _ IH _ HC | p class k _ IH].
  - destruct (NewBufferPoolWithOptions_inv opts Hok) as (p0 & H0 & Hinv). congruence.
  - unfold Get in HG. eapply getSized_inv; [|exact HG]. now apply pool_inv_count_get.
  - unfold GetSized in HG. eapply getSized_inv; [|exact HG]. now apply pool_inv_count_get.
  - unfold Borrow in HB.
    destruct (getSized choice n (count_get p)) as [[b0 p0]|] eqn:HG; [|discriminate].
    cbn in HB. injection HB as <- <- <-.
    eapply getSized_inv; [|exact HG]. now apply pool_inv_count_get.
  - destruct (Put_inv b p IH Hwf) as (p0 & H0 & Hinv). congruence.
  - cbn in HP. congruence.
  - destruct (Calibrate_inv observed p IH) as (p0 & H0 & Hinv). congruence.
  - now apply evict_inv.
Qed.

(** * Drawing a buffer *)

Lemma pool_get_at_rest (P : Buffer -> Prop) (choice : option nat) (new b : Buffer)
    (pl pl' : list Buffer) (missed : bool) :
  P new -> Forall P pl -> pool_get choice new pl = (b, pl', missed) -> P b.
Proof.
  intros Hnew Hpl Hpg. apply pool_get_spec in Hpg.
  destruct Hpg as [(-> & _) | (k & Hk & _)]; [assumption|].
  rewrite Forall_lookup in Hpl. eauto.
Qed.

(** * The calibration pass that gives up *)

Lemma recalibratePercentile_abort (p : BufferPool) :
  sum_counts (bucketHits p) <= 0 \/ sum_counts (bucketHits p) < calibrateThr p ->
  recalibratePercentile p
  = Some (set_sampling (observed p) (replicate (length (bucketHits p)) 0) p).
Proof.
  intros Hab. unfold recalibratePercentile. cbn.
  destruct (Z.leb_spec (sum_counts (bucketHits p)) 0); [reflexivity|].
  destruct (Z.ltb_spec (sum_counts (bucketHits p)) (calibrateThr p)); [reflexivity | lia].
Qed.

Lemma observeSize_abort (size idx : Z) (p : BufferPool) :
  0 < size -> 0 < observeEvery p -> 0 <= idx < Z.of_nat (length (bucketHits p)) ->
  Z.rem (wrap64 (observed p + 1)) (observeEvery p) = 0 ->
  sum_counts (add_hit idx (bucketHits p)) <= 0 \/
  sum_counts (add_hit idx (bucketHits p)) < calibrateThr p ->
  observeSize size idx p
  = Some (set_sampling (wrap64 (observed p + 1)) (replicate (length (bucketHits p)) 0) p).
Proof.
  intros Hsize Hevery Hidx Hrem Hab. unfold observeSize.
  destruct (Z.leb_spec size 0); [lia|]. destruct (Z.leb_spec (observeEvery p) 0); [lia|].
  cbn [orb]. destruct (index_in_range (bucketHits p) idx Hidx) as (h & Hh).
  rewrite Hh. cbn. rewrite Hrem. cbn.
  rewrite recalibratePercentile_abort by (cbn; exact Hab).
  cbn. unfold add_hit. now rewrite length_alter.
Qed.

(** * What a draw returns *)

(** Whenever the fitting of a drawn buffer returns, the buffer holds the
    request. *)
Lemma fit_returns (n : Z) (b b' : Buffer) :
  at_rest b -> in_int n -> fit n b = Some b' ->
  n <= Cap b' /\ buffer_wf b' /\ Bytes b' = [].
Proof.
  intros (Hwf & Hr & Hl) Hn Hf. unfold fit in Hf.
  assert (HB : Bytes b = []).
  { pose proof (Bytes_length b Hwf) as HL. unfold Len in HL.
    destruct (Bytes b); [reflexivity | cbn in HL; lia]. }
  pose proof Hwf as (_ & Hlc & _).
  destruct (Z.ltb_spec (cap (buf b)) n) as [Hsmall|Hok].
  - rewrite Hl, Z.sub_0_r in Hf. rewrite wrap64_id in Hf by exact Hn.
    destruct (grow_inv n b b' Hwf ltac:(unfold in_int in Hn; lia) Hf)
      as (Hwf' & _ & HB' & _ & [Hroom | (Hov & _)]).
    + pose proof Hwf' as (? & ? & ?). unfold Cap.
      split; [lia|]. split; [exact Hwf' | congruence].
    + exfalso. unfold Len, in_int in *. lia.
  - injection Hf as <-. unfold Cap. split; [lia|]. split; assumption.
Qed.

(** Whenever [getSized] returns, the buffer is empty and holds the
    request. *)
Lemma getSized_returns (choice : option nat) (n : Z) (p p' : BufferPool) (b : Buffer) :
  pool_inv p -> in_int n -> getSized choice n p = Some (b, p') ->
  n <= Cap b /\ buffer_wf b /\ Bytes b = [].
Proof.
  intros Hinv Hn HG. unfold getSized in HG.
  set (m := if n <? 0 then 0 else n) in *.
  assert (Hm : in_int m /\ n <= m).
  { unfold m, in_int, min_int, max_int in *. destruct (Z.ltb_spec n 0); lia. }
  destruct Hm as [Hm Hnm].
  destruct (Z.leb_spec m (smallLimit p)).
  - destruct (pool_get _ _ _) as [[b0 pl] missed] eqn:Hpg.
    assert (Hrest : at_rest b0).
    { eapply (pool_get_at_rest at_rest); [| |exact Hpg].
      - apply NewBuffer_at_rest. apply Hinv.
      - eapply Forall_impl; [apply Hinv|]. cbn. tauto. }
    destruct (fit m b0) as [b1|] eqn:Hf; [|discriminate]. cbn in HG. injection HG as <- <-.
    destruct (fit_returns m b0 b1 Hrest Hm Hf) as (Hc & Hwf & HB).
    split; [lia|]. split; assumption.
  - destruct (index (buckets p) _) as [bucket|] eqn:Hbk; [|discriminate]. cbn in HG.
    destruct (index (sizes p) _) as [capacity|] eqn:Hcp; [|discriminate]. cbn in HG.
    destruct (pool_get _ _ _) as [[b0 pl] missed] eqn:Hpg.
    assert (Hrest : at_rest b0).
    { apply index_Some in Hbk, Hcp. destruct Hbk as [_ Hbk]. destruct Hcp as [_ Hcp].
      eapply (pool_get_at_rest at_rest); [| |exact Hpg].
      - apply NewBuffer_at_rest.
        pose proof (inv_sizes_range p Hinv) as Hr. rewrite Forall_lookup in Hr.
        apply (Hr _ _ Hcp).
      - eapply Forall_impl; [eapply inv_buckets; eassumption|]. cbn. tauto. }
    destruct (fit m b0) as [b1|] eqn:Hf; [|discriminate]. cbn in HG. injection HG as <- <-.
    destruct (fit_returns m b0 b1 Hrest Hm Hf) as (Hc & Hwf & HB).
    split; [lia|]. split; assumption.
Qed.


(** * The tests of the repository, replayed on the model *)

(** TestBufferReadEOF: reading from a new buffer reports the end of data. *)
Example test_read_eof :
  Read (dst 1) (NewBuffer 0) = (NewBuffer 0, dst 1, (0, Some EOF)).
Proof. reflexivity. Qed.

(** TestBufferBasicWriteRead: "hello" is written, read back in one call,
    and the next read reports the end of data. *)
Example test_basic_write_read :
  exists b1 b2,
    WriteString (bytes_of "hello") (NewBuffer 0) = Some (b1, (5, None)) /\
    Read (dst 5) b1 = (b2, bytes_of "hello", (5, None)) /\
    snd (Read (dst 5) b2) = (0, Some EOF).
Proof. eexists _, _. evaluate_each. Qed.

(** TestBufferReserveAndLen: five bytes are reserved in a new buffer. *)
Example test_reserve_len :
  exists b view, Reserve 5 (NewBuffer 0) = Some (b, view) /\ Len b = 5 /\ length view = 5%nat.
Proof. eexists _, _. evaluate_each. Qed.

(** TestBufferReadFromExact: a reader holding "more" answers with its four
    bytes, then with the end of data. *)
Example test_read_from_exact :
  exists b,
    ReadFrom [mkAnswer (bytes_of "more") None; mkAnswer [] (Some EOF)] (NewBuffer 0)
    = Some (b, (4, None)) /\ Bytes b = bytes_of "more" /\ Cap b = 512.
Proof. eexists. evaluate_each. Qed.

(** TestBufferWriteToShortWrite: the sink takes two of the five bytes. *)
Example test_write_to_short_write :
  exists b1 b2,
    WriteString (bytes_of "hello") (NewBuffer 0) = Some (b1, (5, None)) /\
    WriteTo (shortWriter 2) b1 = (b2, Some (bytes_of "hello"), (2, Some ErrShortWrite)) /\
    Bytes b2 = bytes_of "llo".
Proof. eexists _, _. evaluate_each. Qed.

(** TestBufferPoolSizing: with the classes 32, 64 and 128, [GetSized(70)]
    draws from the class 128. *)
Example test_pool_sizing :
  exists p b p',
    NewBufferPoolWithOptions (PoolOptions.mk [32; 64; 128] 32 false 0 0 0%float 0 false) = Some p /\
    GetSized None 70 p = Some (b, p') /\ Cap b = 128 /\ allocs p' = 1 /\ gets p' = 1.
Proof. eexists _, _, _. evaluate_each. Qed.

(** The options are normalised: classes are sorted, repeated and
    non-positive ones dropped; the defaults fill what is not given. *)
Example test_normalize :
  normalizeSizes [64; 0; 16; 64; -3; 32; 16] = [16; 32; 64].
Proof. reflexivity. Qed.

Example test_defaults :
  exists p, NewBufferPool 0 = Some p /\
    sizes p = defaultBucketSizes /\ defaultCap p = 64 /\ smallLimit p = 64 /\
    observeEvery p = 4096 /\ calibrateThr p = 42000.
Proof. eexists. evaluate_each. Qed.

(** A calibration pass that goes through: with the interval 1 and the
    threshold 1, the first returned buffer, of capacity 100, moves the
    default capacity to the class 64 that took it, and the callback gets
    one snapshot. *)
Example test_recalibrate :
  exists p p',
    NewBufferPoolWithOptions (PoolOptions.mk [16; 32; 64] 0 false 1 0 0%float 1 true) = Some p /\
    Put (Some (NewBuffer 100)) p = Some p' /\
    defaultCap p' = 64 /\ calibrations p' = 1 /\ bucketHits p' = [0; 0; 0] /\
    reported p' = [Stats.mk 0 1 0 1 0 64 16].
Proof. eexists _, _. evaluate_each. Qed.

(** * The buffer: main properties *)

Lemma run_Forall (P : Buffer -> Prop) (ops : list buf_op) :
  (forall op b b', P b -> op_ok op -> apply_op op b = Some b' -> P b') ->
  Forall op_ok ops -> forall b, P b -> Forall P (run ops b).
Proof.
  intros Hstep Hok. induction Hok as [|op ops Hop Hops IH]; intros b Hb; cbn [run].
  - constructor.
  - destruct (apply_op op b) as [b'|] eqn:Happ; [|constructor].
    constructor; [|apply IH]; eapply Hstep; eassumption.
Qed.

(** C9.  From a buffer that satisfies [0 <= r <= len <= cap], the relation
    holds again after each of Write, WriteByte, WriteString, Read, WriteTo,
    ReadFrom, Reserve, Grow and Reset that returns, whatever the sequence of
    operations. *)
Theorem buffer_invariant_preserved (ops : list buf_op) (b : Buffer) :
  buffer_wf b -> Forall op_ok ops -> Forall buffer_wf (run ops b).
Proof.
  intros Hwf Hok. apply run_Forall; [|assumption|assumption].
  intros op b1 b2 H1 Hop Happ. now destruct (apply_op_inv op b1 b2 H1 Hop Happ).
Qed.

Lemma shortWriter_ok (limit : Z) : 0 <= limit -> writer_ok (shortWriter limit).
Proof. intros Hl p. unfold shortWriter; cbn [fst]. lia. Qed.

Lemma sample_ops_ok : Forall op_ok sample_ops.
Proof.
  unfold sample_ops.
  repeat (apply Forall_cons; split); try apply Forall_nil; cbn [op_ok];
    try exact I; try (apply shortWriter_ok; lia);
    try (vm_compute; intuition discriminate).
Defined.

Lemma buffer_invariant_preserved_witness :
  length (run sample_ops (NewBuffer 8)) = 10%nat /\
  Forall buffer_wf (run sample_ops (NewBuffer 8)).
Proof.
  split; [vm_compute; reflexivity|].
  apply (buffer_invariant_preserved sample_ops (NewBuffer 8)).
  - apply NewBuffer_wf. unfold max_int. lia.
  - exact sample_ops_ok.
Defined.

(** C10.  The Drained state is never observable: a new buffer is Empty, and
    after every operation that returns the cursor equals the length only
    when both are zero.  A [Read] or [WriteTo] that consumes the last unread
    byte, and a [Read] into a non-empty destination or a [WriteTo] on a
    buffer with nothing unread, leave the buffer Empty (cursor and length
    zero) with its capacity. *)
Theorem drained_never_observable :
  (forall c, tidy (NewBuffer c)) /\
  (forall ops b, buffer_wf b -> tidy b -> Forall op_ok ops ->
     Forall (fun b' => buffer_wf b' /\ tidy b' /\
                       (r b' = len (buf b') -> r b' = 0 /\ len (buf b') = 0))
            (run ops b)) /\
  (forall b p, buffer_wf b -> 0 < Z.of_nat (length p) -> Len b <= Z.of_nat (length p) ->
     let b' := fst (fst (Read p b)) in
     r b' = 0 /\ len (buf b') = 0 /\ Cap b' = Cap b) /\
  (forall b w, buffer_wf b -> fst (w (Bytes b)) = Len b ->
     let b' := fst (fst (WriteTo w b)) in
     r b' = 0 /\ len (buf b') = 0 /\ Cap b' = Cap b).
Proof.
  split; [|split; [|split]].
  - intros c. right. split; reflexivity.
  - intros ops b Hwf Ht Hok.
    apply (run_Forall (fun b' => buffer_wf b' /\ tidy b' /\
             (r b' = len (buf b') -> r b' = 0 /\ len (buf b') = 0))); [|assumption|].
    + intros op b1 b2 (H1 & H2 & _) Hop Happ.
      destruct (apply_op_inv op b1 b2 H1 Hop Happ) as [Hwf2 Ht2].
      specialize (Ht2 H2). split; [exact Hwf2|]. split; [exact Ht2|].
      unfold tidy in Ht2. lia.
    + split; [exact Hwf|]. split; [exact Ht|]. unfold tidy in Ht. lia.
  - intros b p Hwf Hp Hall b'. subst b'.
    pose proof Hwf as (Hr & Hl & Hc).
    unfold Read. destruct (Z.eqb_spec (Z.of_nat (length p)) 0); [lia|].
    destruct (Z.leb_spec (len (buf b)) (r b)); [cbn; auto|].
    pose proof (Bytes_length b Hwf) as HB.
    unfold copy_at. rewrite HB, Z.min_r by lia. cbn [fst].
    unfold collapse; cbn [buf r]. unfold Len.
    destruct (Z.leb_spec (len (buf b)) (r b + (len (buf b) - r b))); [cbn; auto | lia].
  - intros b w Hwf Hn b'. subst b'.
    pose proof Hwf as (Hr & Hl & Hc).
    unfold WriteTo. destruct (Z.leb_spec (len (buf b)) (r b)); [cbn; auto|].
    destruct (w (Bytes b)) as [n err]. cbn [fst] in Hn. subst n.
    assert (HL : (0 <? Len b) = true) by (apply Z.ltb_lt; unfold Len; lia).
    rewrite HL, wrap64_id by (unfold in_int, min_int, max_int, Len in *; lia).
    assert (Hcol : collapse (mkBuffer (buf b) (r b + Len b)) = Reset b).
    { unfold collapse, Len; cbn [buf r].
      destruct (Z.leb_spec (len (buf b)) (r b + (len (buf b) - r b))); [reflexivity | lia]. }
    rewrite Hcol. destruct err; [cbn; auto|]. destruct (negb _); cbn; auto.
Qed.

Lemma drained_never_observable_witness :
  length (run sample_ops (NewBuffer 8)) = 10%nat /\
  Forall (fun b' => buffer_wf b' /\ tidy b' /\
                    (r b' = len (buf b') -> r b' = 0 /\ len (buf b') = 0))
         (run sample_ops (NewBuffer 8)).
Proof.
  split; [vm_compute; reflexivity|].
  destruct drained_never_observable as (Hnew & Hrun & _).
  apply (Hrun sample_ops (NewBuffer 8)).
  - apply NewBuffer_wf. unfold max_int. lia.
  - apply Hnew.
  - exact sample_ops_ok.
Defined.

(** C6.  On a buffer with [N > 0] unread bytes and a sink that takes
    [M < N] of them without an error, [WriteTo] offers the unread bytes,
    returns the count [M] with the short-write error and moves the cursor
    by [M]; on a buffer with nothing unread it does not call the sink and
    returns no error. *)
Theorem WriteTo_short_write (w : Writer) (b : Buffer) :
  buffer_wf b ->
  (Len b = 0 -> WriteTo w b = (Reset b, None, (0, None))) /\
  (forall M, 0 < Len b -> w (Bytes b) = (M, None) -> 0 <= M < Len b ->
     WriteTo w b = (mkBuffer (buf b) (r b + M), Some (Bytes b), (M, Some ErrShortWrite)) /\
     Bytes (mkBuffer (buf b) (r b + M)) = drop (Z.to_nat M) (Bytes b)).
Proof.
  intros Hwf. split; [now apply WriteTo_empty|].
  intros M HN Hw HM. pose proof Hwf as (Hr & Hl & Hc).
  pose proof (Bytes_length b Hwf) as HB.
  split; [|apply Bytes_advance; lia].
  unfold WriteTo. destruct (Z.leb_spec (len (buf b)) (r b)); [unfold Len in *; lia|].
  rewrite Hw, HB.
  destruct (Z.eqb_spec M (Len b)); [lia|]. cbn [negb].
  destruct (Z.ltb_spec 0 M).
  - rewrite wrap64_id by (unfold in_int, min_int, max_int, Len in *; lia).
    unfold collapse; cbn [buf r].
    destruct (Z.leb_spec (len (buf b)) (r b + M)); [unfold Len in *; lia | reflexivity].
  - replace M with 0 by lia. rewrite Z.add_0_r. now destruct b.
Qed.

Lemma WriteTo_short_write_witness :
  let b := fst (default (NewBuffer 0, (0, None)) (WriteString (bytes_of "hello") (NewBuffer 0))) in
  WriteTo (shortWriter 2) b
  = (mkBuffer (buf b) 2, Some (bytes_of "hello"), (2, Some ErrShortWrite)) /\
  Bytes (mkBuffer (buf b) 2) = bytes_of "llo".
Proof.
  set (b0 := fst (default (NewBuffer 0, (0, None))
                    (WriteString (bytes_of "hello") (NewBuffer 0)))).
  assert (Hwf : buffer_wf b0) by (vm_compute; intuition discriminate).
  destruct (WriteTo_short_write (shortWriter 2) b0 Hwf) as [_ H].
  apply (H 2); [vm_compute; reflexivity | vm_compute; reflexivity |].
  vm_compute. intuition discriminate.
Defined.

(** C2.  From a buffer with nothing unread, any sequence of Write,
    WriteByte and WriteString calls, of at most [2^62] bytes [B] in total
    (more bytes than that no slice can hold), returns and leaves exactly
    [B] unread, with the counts adding up to the length of [B]; any
    sequence of Read calls after it delivers the bytes of [B] in order, as
    far as the destinations have room, and once the destinations have room
    for all of [B], exactly [B], with the counts adding up to the length
    of [B]. *)
Theorem write_read_roundtrip (cs : list write_call) (dsts : list (list byte)) (b0 : Buffer) :
  buffer_wf b0 -> Len b0 = 0 -> Z.of_nat (length (payload cs)) <= 2 ^ 62 ->
  exists b1,
    do_writes cs b0 = Some (b1, Z.of_nat (length (payload cs))) /\
    Bytes b1 = payload cs /\
    let outs := snd (do_reads dsts b1) in
    delivered outs = take (Z.to_nat (room dsts)) (payload cs) /\
    counted outs = Z.min (room dsts) (Z.of_nat (length (payload cs))) /\
    (Z.of_nat (length (payload cs)) <= room dsts ->
       delivered outs = payload cs /\
       counted outs = Z.of_nat (length (payload cs)) /\
       Bytes (fst (do_reads dsts b1)) = []).
Proof.
  intros Hwf Hempty Hsz.
  destruct (do_writes_spec cs b0 Hwf ltac:(lia)) as (b1 & HW & Hwf1 & HB1).
  assert (HB0 : Bytes b0 = []).
  { pose proof (Bytes_length b0 Hwf) as HL. destruct (Bytes b0); [reflexivity | cbn in HL; lia]. }
  rewrite HB0 in HB1. cbn [app] in HB1.
  exists b1. split; [exact HW|]. split; [exact HB1|].
  destruct (do_reads_spec dsts b1 Hwf1) as (_ & Hd & Hc & HBr).
  pose proof (Bytes_length b1 Hwf1) as HL1. rewrite HB1 in HL1, Hd, HBr.
  cbn zeta. rewrite Hd, Hc, HBr, <- HL1.
  split; [reflexivity|]. split; [reflexivity|].
  intros Hroom. split; [|split].
  - apply take_ge. lia.
  - lia.
  - apply drop_ge. lia.
Qed.

Lemma write_read_roundtrip_witness :
  exists b1,
    do_writes sample_writes (NewBuffer 0) = Some (b1, 12) /\
    Bytes b1 = bytes_of "hello, world" /\
    delivered (snd (do_reads [dst 5; dst 0; dst 4; dst 64] b1)) = bytes_of "hello, world" /\
    counted (snd (do_reads [dst 5; dst 0; dst 4; dst 64] b1)) = 12.
Proof.
  destruct (write_read_roundtrip sample_writes [dst 5; dst 0; dst 4; dst 64] (NewBuffer 0))
    as (b1 & HW & HB & _ & _ & Hall).
  - apply NewBuffer_wf. unfold max_int. lia.
  - reflexivity.
  - vm_compute. discriminate.
  - exists b1. split; [exact HW|]. split; [exact HB|].
    destruct Hall as (Hd & Hc & _); [vm_compute; discriminate|].
    split; [exact Hd | exact Hc].
Defined.

(** C3.  On a buffer with a consumed prefix, a request for [n] more bytes
    that fit in the capacity together with the unread bytes is served
    without reallocation: [grow] returns, the capacity is as before, the
    unread bytes are the same and the room is there.  A write of such bytes
    returns, leaves the capacity as it was, and leaves as unread content the
    previous unread bytes followed by the bytes written. *)
Theorem compaction_in_place (b : Buffer) :
  buffer_wf b -> 0 < r b ->
  (forall n, 0 < n -> Len b + n <= Cap b ->
     exists b', grow n b = Some b' /\ Cap b' = Cap b /\ Bytes b' = Bytes b /\
       len (buf b') + n <= cap (buf b')) /\
  (forall c, Len b + Z.of_nat (length (written c)) <= Cap b ->
     exists b', do_write c b = Some (b', Z.of_nat (length (written c))) /\
       Cap b' = Cap b /\ Bytes b' = Bytes b ++ written c).
Proof.
  intros Hwf _. split.
  - intros n Hn Hfit.
    destruct (grow_within_capacity n b Hwf Hn Hfit) as (b' & Hg & _ & HC & HB & Hroom).
    eauto.
  - intros c Hfit. now apply do_write_within_capacity.
Qed.

Lemma compaction_in_place_witness :
  Cap abcdefgh_read3 = 8 /\ Bytes abcdefgh_read3 = bytes_of "defgh" /\
  exists b', do_write (CallWriteString (bytes_of "XYZ")) abcdefgh_read3 = Some (b', 3) /\
    Cap b' = 8 /\ Bytes b' = bytes_of "defghXYZ".
Proof.
  split; [reflexivity|]. split; [reflexivity|].
  destruct (compaction_in_place abcdefgh_read3) as [_ H].
  - vm_compute. intuition discriminate.
  - reflexivity.
  - apply (H (CallWriteString (bytes_of "XYZ"))). vm_compute. discriminate.
Defined.

(** C4, as amended.  When a request for [n > 0] more bytes is served
    neither by the free tail nor by compaction, and the unread bytes and
    [n] together are at most [2^62], then whenever [grow] returns, that is
    whenever the runtime grants the allocation, the buffer has new storage
    whose capacity is the least power of two that holds them, holding
    exactly the unread bytes, the cursor at zero. *)
Theorem grow_power_of_two (n : Z) (b b' : Buffer) :
  buffer_wf b -> 0 < n ->
  Cap b - len (buf (collapse b)) < n ->
  r (collapse b) = 0 \/ Cap b < Len b + n ->
  Len b + n <= 2 ^ 62 ->
  grow n b = Some b' ->
  is_pow2_ceiling (Cap b') (Len b + n) /\
  Bytes b' = Bytes b /\ r b' = 0 /\ len (buf b') = Len b.
Proof.
  intros Hwf Hn Hfree Hcompact Hsz Hret.
  assert (Hu : 0 <= Len b) by (destruct Hwf as (? & ? & ?); unfold Len; lia).
  assert (Hroute : grow_route n b = Reallocation).
  { pose proof (grow_route_cases n b Hwf Hn ltac:(unfold max_int; lia)) as Hc.
    destruct (grow_route n b); [lia | lia | reflexivity]. }
  destruct (grow_reallocates n b Hwf Hn Hroute Hsz) as (b0 & Hg & HC & HB & Hr & Hl).
  rewrite Hret in Hg. injection Hg as <-. rewrite HC.
  split; [apply nextPowerOfTwo_ceiling; lia | auto].
Qed.

Lemma grow_power_of_two_witness :
  exists b', grow 4 abcdefgh_read3 = Some b' /\
    is_pow2_ceiling (Cap b') (Len abcdefgh_read3 + 4) /\
    Bytes b' = Bytes abcdefgh_read3 /\ r b' = 0 /\ len (buf b') = Len abcdefgh_read3.
Proof.
  destruct (grow 4 abcdefgh_read3) as [b'|] eqn:Hg; [|vm_compute in Hg; discriminate].
  exists b'. split; [reflexivity|].
  apply (grow_power_of_two 4 abcdefgh_read3 b').
  - vm_compute. intuition discriminate.
  - lia.
  - vm_compute. reflexivity.
  - right. vm_compute. reflexivity.
  - vm_compute. discriminate.
  - exact Hg.
Defined.

(** C4 as stated fails: a request above [2^62] is served by neither the
    free tail nor compaction, and [grow] adopts no storage at all, because
    [nextPowerOfTwo] overflows to the least [int] and [make] panics. *)
Lemma grow_power_of_two_counterexample :
  ~ (forall n b, buffer_wf b -> 0 < n <= max_int ->
       Cap b - len (buf (collapse b)) < n ->
       r (collapse b) = 0 \/ Cap b < Len b + n ->
       exists b', grow n b = Some b' /\ is_pow2_ceiling (Cap b') (Len b + n)).
Proof.
  intros H.
  destruct (H (2 ^ 62 + 1) (NewBuffer 0)) as (b' & Hg & _).
  - apply NewBuffer_wf. unfold max_int. lia.
  - unfold max_int. lia.
  - vm_compute. reflexivity.
  - left. reflexivity.
  - vm_compute in Hg. discriminate.
Qed.

(** * The pool: main properties *)

Lemma opts_16_32_64_ok : options_ok opts_16_32_64.
Proof.
  unfold options_ok, opts_16_32_64, in_int, min_int, max_int; cbn.
  repeat split; try lia. repeat constructor; lia.
Defined.

Lemma opts_observe_each_ok : options_ok opts_observe_each.
Proof.
  unfold options_ok, opts_observe_each, in_int, min_int, max_int; cbn.
  repeat split; try lia. repeat constructor; lia.
Defined.

Lemma oversized_round_trip_state :
  exists b p, oversized_round_trip = Some (b, p) /\ reachable p /\
    buckets p !! 2%nat = Some [Reset b] /\ sizes p !! 2%nat = Some 64 /\
    Cap (Reset b) = 128.
Proof.
  unfold oversized_round_trip.
  destruct (NewBufferPoolWithOptions opts_16_32_64) as [p0|] eqn:H0; [|evaluate H0].
  cbn [mbind option_bind].
  destruct (GetSized None 100 p0) as [[b p1]|] eqn:H1; [|evaluate H0; evaluate H1].
  cbn [mbind option_bind].
  destruct (Put (Some b) p1) as [p2|] eqn:H2; [|evaluate H0; evaluate H1; evaluate H2].
  cbn [mbind option_bind].
  exists b, p2. split; [reflexivity|].
  assert (Hwf : buffer_wf b).
  { evaluate H0. evaluate H1. vm_compute. intuition discriminate. }
  split.
  - eapply reach_Put; [|exact Hwf|exact H2].
    eapply reach_GetSized; [| |exact H1].
    + eapply reach_new; [exact opts_16_32_64_ok | exact H0].
    + unfold in_int, min_int, max_int. lia.
  - evaluate H0. evaluate H1. evaluate H2. vm_compute. auto.
Defined.


(** C1, as amended.  In every pool state, a buffer stored in the sub-pool
    of class [i] is reset (cursor and length zero, nothing unread), and it
    is there because [bucketIndex] assigns its capacity to [i], and its
    capacity exceeds the small-object limit: its capacity is at most
    [sizes[i]] when [i] is not the last class, and in the last class it is
    at most [sizes[i]] or larger than every class. *)
Theorem stored_buffer_class (p : BufferPool) (i : nat) (bs : list Buffer) (b : Buffer) (s : Z) :
  reachable p -> buckets p !! i = Some bs -> b ∈ bs -> sizes p !! i = Some s ->
  (r b = 0 /\ len (buf b) = 0 /\ Bytes b = [] /\ buffer_wf b) /\
  bucketIndex (sizes p) (Cap b) = Z.of_nat i /\ smallLimit p < Cap b /\
  (Cap b <= s \/
   (Z.of_nat i = Z.of_nat (length (sizes p)) - 1 /\ Forall (fun s' => s' < Cap b) (sizes p))) /\
  ((S i < length (sizes p))%nat -> Cap b <= s).
Proof.
  intros Hreach Hbs Hb Hs.
  pose proof (reachable_inv p Hreach) as Hinv.
  pose proof (inv_buckets p Hinv i bs Hbs) as Hall.
  rewrite Forall_forall in Hall. destruct (Hall b Hb) as ((Hwf & Hr & Hl) & Hsmall & Hidx).
  pose proof (inv_smallLimit p Hinv) as Hlim.
  pose proof (bucketIndex_class (sizes p) (Cap b) i s ltac:(lia) Hidx Hs) as Hclass.
  split.
  { split; [exact Hr|]. split; [exact Hl|]. split; [|exact Hwf].
    pose proof (Bytes_length b Hwf) as HL. unfold Len in HL.
    destruct (Bytes b); [reflexivity | cbn in HL; lia]. }
  split; [exact Hidx|]. split; [exact Hsmall|]. split; [exact Hclass|].
  intros Hlast. destruct Hclass as [|[Hi _]]; [assumption | lia].
Qed.

Lemma stored_buffer_class_witness :
  exists b p, oversized_round_trip = Some (b, p) /\
    Bytes (Reset b) = [] /\
    bucketIndex (sizes p) (Cap (Reset b)) = 2 /\ smallLimit p < Cap (Reset b) /\
    Forall (fun s' => s' < Cap (Reset b)) (sizes p).
Proof.
  destruct oversized_round_trip_state as (b & p & Hrun & Hreach & Hbk & Hsz & Hcap).
  exists b, p. split; [exact Hrun|].
  destruct (stored_buffer_class p 2 [Reset b] (Reset b) 64 Hreach Hbk
              ltac:(apply list_elem_of_singleton; reflexivity) Hsz)
    as ((_ & _ & HB & _) & Hidx & Hsmall & [Hle | [_ Hall]] & _).
  - rewrite Hcap in Hle. lia.
  - auto.
Defined.

(** C1 as stated fails: the buffer drawn for 100 bytes from the classes 16,
    32 and 64 has grown to capacity 128 and is stored, on return, in the
    sub-pool of the class 64. *)
Lemma stored_buffer_class_counterexample :
  ~ (forall p i bs b s,
       reachable p -> buckets p !! i = Some bs -> b ∈ bs -> sizes p !! i = Some s ->
       Cap b <= s).
Proof.
  intros H.
  destruct oversized_round_trip_state as (b & p & _ & Hreach & Hbk & Hsz & Hcap).
  specialize (H p 2%nat [Reset b] (Reset b) 64 Hreach Hbk
                ltac:(apply list_elem_of_singleton; reflexivity) Hsz).
  rewrite Hcap in H. lia.
Qed.




(** C7.  When [Put] records a sample of a buffer, the sample count reaches
    a multiple of the observation interval, and the total of the hit
    counters is zero or below the calibration threshold, then the default
    capacity and the calibration counter are as before, the metrics
    callback is not called, and every hit counter is zero afterwards: the
    samples of the window are gone. *)
Theorem calibration_abort_discards (p : BufferPool) (b : Buffer) :
  reachable p -> buffer_wf b ->
  let idx := bucketIndex (sizes p) (Cap b) in
  let total := sum_counts (add_hit idx (bucketHits p)) in
  0 < Cap b -> 0 < observeEvery p ->
  Z.rem (wrap64 (observed p + 1)) (observeEvery p) = 0 ->
  total = 0 \/ total < calibrateThr p ->
  exists p', Put (Some b) p = Some p' /\
    defaultCap p' = defaultCap p /\ calibrations p' = calibrations p /\
    reported p' = reported p /\
    bucketHits p' = replicate (length (sizes p)) 0 /\
    observed p' = wrap64 (observed p + 1).
Proof.
  intros Hreach Hwf idx total Hcap Hevery Hrem Hab.
  pose proof (reachable_inv p Hreach) as Hinv.
  pose proof (bucketIndex_range (sizes p) (Cap b) (inv_sizes_nonempty p Hinv)) as Hidx.
  fold idx in Hidx. unfold Put.
  set (p0 := set_counters _ _ _ p).
  change (smallLimit p0) with (smallLimit p). change (sizes p0) with (sizes p).
  change (cap (buf (Reset b))) with (Cap b). fold idx.
  rewrite (observeSize_abort (Cap b) idx p0 Hcap Hevery).
  - cbn [mbind option_bind].
    set (p1 := set_sampling _ _ p0).
    assert (Hhits : bucketHits p1 = replicate (length (sizes p)) 0).
    { unfold p1; cbn. now rewrite (inv_hits_length p Hinv). }
    destruct (Z.leb_spec (Cap b) (smallLimit p)).
    + eexists. split; [reflexivity|]. cbn. rewrite <- (inv_hits_length p Hinv). auto.
    + destruct (index_in_range (buckets p1) idx) as (bucket & Hbk).
      { unfold p1; cbn. rewrite (inv_buckets_length p Hinv). exact Hidx. }
      rewrite Hbk. cbn [mbind option_bind].
      eexists. split; [reflexivity|]. cbn. rewrite <- (inv_hits_length p Hinv). auto.
  - unfold p0; cbn. rewrite (inv_hits_length p Hinv). exact Hidx.
  - exact Hrem.
  - unfold p0; cbn. fold total. lia.
Qed.

Lemma calibration_abort_discards_witness :
  exists p p', NewBufferPoolWithOptions opts_observe_each = Some p /\
    Put (Some (NewBuffer 100)) p = Some p' /\
    defaultCap p' = 16 /\ calibrations p' = 0 /\ reported p' = [] /\
    bucketHits p' = [0; 0; 0] /\ observed p' = 1.
Proof.
  destruct (NewBufferPoolWithOptions opts_observe_each) as [p|] eqn:H0; [|evaluate H0].
  assert (Hreach : reachable p).
  { eapply reach_new; [exact opts_observe_each_ok | exact H0]. }
  destruct (calibration_abort_discards p (NewBuffer 100) Hreach)
    as (p' & HP & H1 & H2 & H3 & H4 & H5).
  - apply NewBuffer_wf. unfold max_int. lia.
  - reflexivity.
  - evaluate H0. reflexivity.
  - evaluate H0. reflexivity.
  - right. evaluate H0. reflexivity.
  - exists p, p'. split; [reflexivity|]. split; [exact HP|].
    rewrite H1, H2, H3, H4, H5. evaluate H0. vm_compute. auto.
Defined.

(** C8, as amended.  [Calibrate(observed)] with [observed <= 0] leaves the
    pool as it is.  With [observed > 0] it sets the default capacity to the
    smallest class that is at least [observed] when there is one, and to
    the largest class otherwise; it counts one calibration and leaves the
    classes and the sub-pools as they are.  In particular, on the new pool
    with the classes 16, 32 and 64, after [Calibrate(40)] the next [Get()]
    returns a buffer of capacity 64. *)
Theorem Calibrate_default_capacity :
  (forall p observed, reachable p ->
     (observed <= 0 -> Calibrate observed p = Some p) /\
     (0 < observed ->
      exists p', Calibrate observed p = Some p' /\
        (smallest_class_at_least (sizes p) observed (defaultCap p') \/
         (Forall (fun s => s < observed) (sizes p) /\
          largest (sizes p) = Some (defaultCap p'))) /\
        calibrations p' = wrap64 (calibrations p + 1) /\
        sizes p' = sizes p /\ buckets p' = buckets p /\ smallPool p' = smallPool p)) /\
  (exists p p' b p'',
     NewBufferPoolWithOptions opts_16_32_64 = Some p /\ Calibrate 40 p = Some p' /\
     Get None p' = Some (b, p'') /\ Cap b = 64).
Proof.
  split.
  - intros p observed Hreach.
    pose proof (reachable_inv p Hreach) as Hinv. unfold Calibrate. split.
    + intros Hle. destruct (Z.leb_spec observed 0); [reflexivity | lia].
    + intros Hpos. destruct (Z.leb_spec observed 0); [lia|].
      destruct (chooseCap_total (sizes p) observed (inv_sizes_nonempty p Hinv))
        as (c & Hc & _).
      rewrite Hc. cbn [mbind option_bind]. eexists. split; [reflexivity|].
      pose proof (chooseCap_positive (sizes p) observed c (inv_sizes_sorted p Hinv) Hpos Hc)
        as Hchoice.
      unfold report. destruct (metrics _); cbn; auto.
  - eexists _, _, _, _. repeat split; vm_compute; reflexivity.
Qed.

Lemma Calibrate_default_capacity_witness :
  exists p p', NewBufferPoolWithOptions opts_16_32_64 = Some p /\
    Calibrate 40 p = Some p' /\ smallest_class_at_least [16; 32; 64] 40 (defaultCap p') /\
    defaultCap p' = 64.
Proof.
  destruct (NewBufferPoolWithOptions opts_16_32_64) as [p|] eqn:H0; [|evaluate H0].
  assert (Hreach : reachable p).
  { eapply reach_new; [exact opts_16_32_64_ok | exact H0]. }
  destruct Calibrate_default_capacity as [H _].
  destruct (H p 40 Hreach) as [_ H40].
  destruct (H40 ltac:(lia)) as (p' & HC & Hclass & _).
  exists p, p'. split; [reflexivity|]. split; [exact HC|].
  evaluate H0. evaluate HC. cbn [sizes defaultCap] in *.
  destruct Hclass as [Hs | [Hall _]].
  - split; [exact Hs | reflexivity].
  - exfalso. apply Forall_cons in Hall. destruct Hall as [_ Hall].
    apply Forall_cons in Hall. destruct Hall as [_ Hall].
    apply Forall_cons in Hall. destruct Hall as [Hlt _]. lia.
Defined.

(** C8 as stated fails: with the classes 16, 32 and 64, [Calibrate(100)]
    sets the default capacity to 64, which is not a class of at least
    100. *)
Lemma Calibrate_default_capacity_counterexample :
  ~ (forall p observed, reachable p -> 0 < observed ->
       exists p', Calibrate observed p = Some p' /\
         smallest_class_at_least (sizes p) observed (defaultCap p')).
Proof.
  intros H.
  destruct (NewBufferPoolWithOptions opts_16_32_64) as [p|] eqn:H0; [|evaluate H0].
  destruct (H p 100) as (p' & HC & _ & Hle & _).
  - eapply reach_new; [exact opts_16_32_64_ok | exact H0].
  - lia.
  - evaluate H0. evaluate HC. vm_compute in Hle. apply Hle. reflexivity.
Qed.

(** * The buffer: further properties *)

(** X1.  [nextPowerOfTwo] returns zero for an argument that is not
    positive, and for [0 < n <= 2^62] the least power of two that is at
    least [n], which is [2 ^ Z.log2_up n]. *)
Theorem nextPowerOfTwo_spec (n : Z) :
  n <= 2 ^ 62 ->
  (n <= 0 -> nextPowerOfTwo n = 0) /\
  (0 < n -> is_pow2_ceiling (nextPowerOfTwo n) n /\ nextPowerOfTwo n = 2 ^ Z.log2_up n).
Proof.
  intros Hn. split.
  - apply nextPowerOfTwo_nonpos.
  - intros Hpos. split.
    + apply nextPowerOfTwo_ceiling. lia.
    + apply nextPowerOfTwo_log2_up. lia.
Qed.

Lemma nextPowerOfTwo_spec_witness :
  is_pow2_ceiling (nextPowerOfTwo 1000) 1000 /\ nextPowerOfTwo 1000 = 1024 /\
  nextPowerOfTwo (-5) = 0.
Proof.
  destruct (nextPowerOfTwo_spec 1000 ltac:(lia)) as [_ H].
  destruct (H ltac:(lia)) as [Hc _].
  split; [exact Hc|]. split; reflexivity.
Defined.

(** X2.  For [2^62 < n <= 2^63 - 1] the increment that ends
    [nextPowerOfTwo] overflows: the result is the least [int], a negative
    number, and neither zero nor a power of two. *)
Theorem nextPowerOfTwo_beyond_range (n : Z) :
  2 ^ 62 < n <= max_int -> nextPowerOfTwo n = min_int /\ nextPowerOfTwo n < 0.
Proof.
  intros Hn. rewrite nextPowerOfTwo_overflow by exact Hn.
  split; [reflexivity | unfold min_int; lia].
Qed.

Lemma nextPowerOfTwo_beyond_range_witness :
  nextPowerOfTwo (2 ^ 62 + 1) = min_int /\ nextPowerOfTwo (2 ^ 62 + 1) < 0.
Proof.
  apply (nextPowerOfTwo_beyond_range (2 ^ 62 + 1)). unfold max_int. lia.
Defined.

Lemma take_plus_drop {A : Type} (l : list A) (i n : nat) :
  take (i + n) l = take i l ++ take n (drop i l).
Proof. symmetry. apply take_take_drop. Qed.

(** With every allocation granted, [Reserve(n)] for [n > 0] extends the
    content by a view of [n] bytes. *)
Lemma Reserve_granted (n : Z) (b : Buffer) :
  buffer_wf b -> Len b + n <= 2 ^ 62 ->
  (n <= 0 -> Reserve n b = Some (b, [])) /\
  (0 < n ->
   exists b' view, Reserve n b = Some (b', view) /\
     Z.of_nat (length view) = n /\ Bytes b' = Bytes b ++ view /\
     Len b' = Len b + n /\ buffer_wf b').
Proof.
  intros Hwf Hsz. unfold Reserve. split.
  - intros Hn. destruct (Z.leb_spec n 0); [reflexivity | lia].
  - intros Hn. destruct (Z.leb_spec n 0); [lia|].
    assert (Hu : 0 <= Len b) by (destruct Hwf as (? & ? & ?); unfold Len; lia).
    destruct (grow_total n b Hwf Hn Hsz) as (b1 & Hg). rewrite Hg. cbn [mbind option_bind].
    destruct (grow_inv n b b1 Hwf ltac:(unfold max_int; lia) Hg)
      as (Hwf1 & _ & HB1 & _ & [Hroom | (Hov & _)]); [|unfold max_int in Hov; lia].
    pose proof Hwf1 as (Hr & Hl & Hc).
    rewrite wrap64_id by (unfold in_int, min_int, max_int in *; lia).
    unfold reslice.
    destruct (Z.leb_spec 0 (len (buf b1) + n)); [|lia].
    destruct (Z.leb_spec (len (buf b1) + n) (cap (buf b1))); [|lia].
    cbn [andb mbind option_bind]. eexists _, _. split; [reflexivity|].
    assert (Hel : elems (mkSlice (s_arr (buf b1)) (len (buf b1) + n))
                  = elems (buf b1)
                    ++ take (Z.to_nat n) (drop (Z.to_nat (len (buf b1))) (s_arr (buf b1)))).
    { unfold elems, len; cbn [s_arr s_len]. rewrite Z2Nat.inj_add by (unfold len in *; lia).
      apply take_plus_drop. }
    pose proof (elems_length (buf b1) ltac:(lia)) as HE.
    rewrite Hel.
    assert (Hview : drop (Z.to_nat (len (buf b1)))
                      (elems (buf b1)
                       ++ take (Z.to_nat n) (drop (Z.to_nat (len (buf b1))) (s_arr (buf b1))))
                    = take (Z.to_nat n) (drop (Z.to_nat (len (buf b1))) (s_arr (buf b1)))).
    { apply drop_app_length'. lia. }
    rewrite Hview.
    set (view := take (Z.to_nat n) (drop (Z.to_nat (len (buf b1))) (s_arr (buf b1)))).
    assert (Hvl : Z.of_nat (length view) = n).
    { unfold view. rewrite length_take, length_drop. unfold cap in *. lia. }
    assert (HBy : Bytes (mkBuffer (mkSlice (s_arr (buf b1)) (len (buf b1) + n)) (r b1))
                  = Bytes b ++ view).
    { rewrite <- HB1. unfold Bytes at 1; cbn [buf r]. rewrite Hel. fold view.
      unfold Bytes. apply drop_app_le. lia. }
    split; [exact Hvl|]. split; [exact HBy|].
    assert (Hwf' : buffer_wf (mkBuffer (mkSlice (s_arr (buf b1)) (len (buf b1) + n)) (r b1))).
    { unfold buffer_wf, len, cap in *; cbn [buf r s_arr s_len]. lia. }
    split; [|exact Hwf'].
    pose proof (Bytes_length _ Hwf') as HL. pose proof (Bytes_length b Hwf) as HLb.
    rewrite HBy, length_app in HL. lia.
Qed.

(** X3.  [Reserve(n)] with [n <= 0] changes nothing and returns no view.
    With [n > 0] and the content staying within [2^62] bytes: whenever it
    returns, it returns a view of exactly [n] bytes, the unread content
    afterwards is the previous unread content followed by the view, and
    the capacity has not shrunk; and when the unread bytes and [n] fit in
    the capacity it does return, with the capacity unchanged, as no
    storage is allocated. *)
Theorem Reserve_extends (n : Z) (b : Buffer) :
  buffer_wf b -> Len b + n <= 2 ^ 62 ->
  (n <= 0 -> Reserve n b = Some (b, [])) /\
  (0 < n -> forall b' view, Reserve n b = Some (b', view) ->
     Z.of_nat (length view) = n /\ Bytes b' = Bytes b ++ view /\
     Len b' = Len b + n /\ buffer_wf b' /\ Cap b <= Cap b') /\
  (0 < n -> Len b + n <= Cap b ->
     exists b' view, Reserve n b = Some (b', view) /\ Cap b' = Cap b).
Proof.
  intros Hwf Hsz. destruct (Reserve_granted n b Hwf Hsz) as [Hz Hpos].
  split; [exact Hz|]. split.
  - intros Hn b' view HR. destruct (Hpos Hn) as (b0 & v0 & HR0 & Hv & HB & HL & Hwf').
    rewrite HR in HR0. injection HR0 as <- <-.
    split; [exact Hv|]. split; [exact HB|]. split; [exact HL|]. split; [exact Hwf'|].
    assert (Hi : in_int n).
    { assert (0 <= Len b) by (destruct Hwf as (? & ? & ?); unfold Len; lia).
      unfold in_int, min_int, max_int. lia. }
    now destruct (Reserve_inv n b b' view Hwf Hi HR) as (_ & _ & ? & _).
  - intros Hn Hfit. destruct (Hpos Hn) as (b0 & v0 & HR0 & _).
    exists b0, v0. split; [exact HR0|].
    destruct (grow_within_capacity n b Hwf Hn Hfit) as (b1 & Hg & _ & HC & _).
    unfold Reserve in HR0. destruct (Z.leb_spec n 0); [lia|].
    rewrite Hg in HR0. cbn [mbind option_bind] in HR0.
    destruct (reslice _ _) as [s1|] eqn:Hs; [|discriminate]. cbn in HR0.
    injection HR0 as <- _. rewrite <- HC. unfold Cap; cbn [buf].
    unfold reslice in Hs. destruct (_ && _); [|discriminate].
    injection Hs as <-. reflexivity.
Qed.

Lemma Reserve_extends_witness :
  exists b' view, Reserve 3 abcdefgh_read3 = Some (b', view) /\
    Z.of_nat (length view) = 3 /\ Bytes b' = Bytes abcdefgh_read3 ++ view /\
    Len b' = Len abcdefgh_read3 + 3 /\ Cap b' = Cap abcdefgh_read3.
Proof.
  destruct (Reserve_extends 3 abcdefgh_read3) as (_ & Hret & Hfit).
  - vm_compute. intuition discriminate.
  - vm_compute. discriminate.
  - assert (H3 : 0 < 3) by lia.
    assert (Hroom : Len abcdefgh_read3 + 3 <= Cap abcdefgh_read3)
      by (vm_compute; discriminate).
    destruct (Hfit H3 Hroom) as (b' & view & HR & HC).
    destruct (Hret H3 b' view HR) as (Hv & HB & HL & _).
    exists b', view. auto.
Defined.

Lemma grow_beyond_capacity (n : Z) (b : Buffer) :
  buffer_wf b -> 0 < n -> Cap b < Len b + n -> Len b + n <= max_int ->
  grow_route n b = Reallocation.
Proof.
  intros Hwf Hn Hbig Hsz.
  pose proof (grow_route_cases n b Hwf Hn Hsz) as Hc.
  pose proof (collapse_wf b Hwf) as (Hr0 & Hl0 & _).
  pose proof (collapse_Len b Hwf) as HL0. unfold Len in *.
  destruct (grow_route n b); [lia | lia | reflexivity].
Qed.

(** With every allocation granted, [Grow(n)] for [n > 0] makes room for
    [n] bytes. *)
Lemma Grow_granted (n : Z) (b : Buffer) :
  buffer_wf b -> 0 < n -> Len b + n <= 2 ^ 62 ->
  exists b1, Grow n b = Some b1 /\ Bytes b1 = Bytes b /\ Cap b <= Cap b1 /\
    Len b + n <= Cap b1 /\
    forall c, Z.of_nat (length (written c)) <= n ->
      exists b2, do_write c b1 = Some (b2, Z.of_nat (length (written c))) /\
        Cap b2 = Cap b1 /\ Bytes b2 = Bytes b ++ written c.
Proof.
  intros Hwf Hn Hsz. unfold Grow. destruct (Z.ltb_spec 0 n); [|lia].
  assert (Hu : 0 <= Len b) by (destruct Hwf as (? & ? & ?); unfold Len; lia).
  destruct (grow_total n b Hwf Hn Hsz) as (b1 & Hg).
  destruct (grow_inv n b b1 Hwf ltac:(unfold max_int; lia) Hg)
    as (Hwf1 & _ & HB1 & HC1 & [Hroom | (Hov & _)]); [|unfold max_int in Hov; lia].
  pose proof (Bytes_length b Hwf) as HLb. pose proof (Bytes_length b1 Hwf1) as HLb1.
  rewrite HB1, HLb in HLb1.
  assert (Hfit : Len b + n <= Cap b1).
  { destruct Hwf1 as (Hr & _). unfold Cap, Len in *. lia. }
  exists b1. split; [exact Hg|]. split; [exact HB1|]. split; [exact HC1|]. split; [exact Hfit|].
  intros c Hc. rewrite <- HB1.
  apply do_write_within_capacity; [exact Hwf1 | lia].
Qed.

(** X4.  [Grow(n)] with [n > 0] and the content staying within [2^62]
    bytes: whenever it returns, the unread content is kept, the capacity
    is not lowered and holds the unread bytes and [n] more, and any one
    write of at most [n] bytes after it returns, appends its bytes and
    leaves the capacity as [Grow] set it: the write does not allocate.
    When the unread bytes and [n] fit in the capacity, [Grow] does return,
    with the capacity unchanged, as no storage is allocated. *)
Theorem Grow_reserves_room (n : Z) (b : Buffer) :
  buffer_wf b -> 0 < n -> Len b + n <= 2 ^ 62 ->
  (forall b1, Grow n b = Some b1 ->
     Bytes b1 = Bytes b /\ Cap b <= Cap b1 /\ Len b + n <= Cap b1 /\
     forall c, Z.of_nat (length (written c)) <= n ->
       exists b2, do_write c b1 = Some (b2, Z.of_nat (length (written c))) /\
         Cap b2 = Cap b1 /\ Bytes b2 = Bytes b ++ written c) /\
  (Len b + n <= Cap b -> exists b1, Grow n b = Some b1 /\ Cap b1 = Cap b).
Proof.
  intros Hwf Hn Hsz.
  destruct (Grow_granted n b Hwf Hn Hsz) as (b0 & HG & HB & HC & Hroom & Hw).
  split.
  - intros b1 HG1. rewrite HG1 in HG. injection HG as <-. auto.
  - intros Hfit. exists b0. split; [exact HG|].
    destruct (grow_within_capacity n b Hwf Hn Hfit) as (b1 & Hg & _ & HC1 & _).
    unfold Grow in HG. destruct (Z.ltb_spec 0 n); [|lia].
    rewrite Hg in HG. injection HG as <-. exact HC1.
Qed.

Lemma Grow_reserves_room_witness :
  exists b1, Grow 100 abcdefgh_read3 = Some b1 /\ Cap b1 = 128 /\
    exists b2, do_write (CallWriteString (bytes_of "XYZ")) b1 = Some (b2, 3) /\
      Cap b2 = Cap b1 /\ Bytes b2 = bytes_of "defghXYZ".
Proof.
  destruct (Grow 100 abcdefgh_read3) as [b1|] eqn:HG; [|vm_compute in HG; discriminate].
  destruct (Grow_reserves_room 100 abcdefgh_read3) as [Hret _].
  - vm_compute. intuition discriminate.
  - lia.
  - vm_compute. discriminate.
  - destruct (Hret b1 HG) as (_ & _ & _ & Hw).
    exists b1. split; [reflexivity|].
    assert (HC : Cap b1 = 128).
    { assert (HG' : Some b1 = Grow 100 abcdefgh_read3) by (symmetry; exact HG).
      vm_compute in HG'. injection HG' as ->. reflexivity. }
    split; [exact HC|].
    apply (Hw (CallWriteString (bytes_of "XYZ"))). vm_compute. discriminate.
Defined.

(** X5.  A write of [n > 0] bytes, the content staying within [2^62]
    bytes, returns and appends the bytes; the capacity afterwards is the
    capacity before when the unread bytes and the new ones fit in it, and
    otherwise exactly [nextPowerOfTwo] of their number: the buffer never
    grows by any other amount. *)
Theorem write_capacity_policy (c : write_call) (b : Buffer) :
  buffer_wf b -> 0 < Z.of_nat (length (written c)) ->
  Len b + Z.of_nat (length (written c)) <= 2 ^ 62 ->
  exists b', do_write c b = Some (b', Z.of_nat (length (written c))) /\
    Bytes b' = Bytes b ++ written c /\
    Cap b' = (if Len b + Z.of_nat (length (written c)) <=? Cap b
              then Cap b
              else nextPowerOfTwo (Len b + Z.of_nat (length (written c)))).
Proof.
  intros Hwf Hpos Hsz.
  destruct (Z.leb_spec (Len b + Z.of_nat (length (written c))) (Cap b)) as [Hfit|Hbig].
  - destruct (do_write_within_capacity c b Hwf Hfit) as (b' & H1 & H2 & H3). eauto.
  - set (n := Z.of_nat (length (written c))) in *.
    assert (HW : exists b', Write (written c) b = Some (b', (n, None)) /\
               Bytes b' = Bytes b ++ written c /\ Cap b' = nextPowerOfTwo (Len b + n)).
    { unfold Write. fold n. destruct (Z.eqb_spec n 0); [lia|].
      pose proof (collapse_wf b Hwf) as Hwf0.
      pose proof (collapse_Len b Hwf) as HL0. pose proof (collapse_Cap b) as HC0.
      assert (Hu : 0 <= Len b) by (destruct Hwf as (? & ? & ?); unfold Len; lia).
      assert (Hroute : grow_route n (collapse b) = Reallocation).
      { apply grow_beyond_capacity; [exact Hwf0 | exact Hpos | | unfold max_int; lia].
        rewrite HL0, HC0. exact Hbig. }
      destruct (grow_reallocates n (collapse b) Hwf0 Hpos Hroute ltac:(lia))
        as (b1 & Hg & HC1 & HB1 & Hr1 & Hl1).
      rewrite Hg. cbn [mbind option_bind].
      rewrite HL0 in HC1, Hl1.
      destruct (nextPowerOfTwo_least (Len b + n) ltac:(lia)) as [[Hlo Hhi] _].
      destruct (append_in_place (buf b1) (written c)) as (s' & Ha & HCs & HLs & HEs).
      { lia. } { fold n. unfold Cap in HC1. lia. }
      rewrite Ha. cbn [mbind option_bind]. eexists. split; [reflexivity|].
      assert (Hwf1 : buffer_wf b1).
      { unfold buffer_wf. unfold Cap in HC1. rewrite Hr1, Hl1, HC1. unfold max_int. lia. }
      split.
      - rewrite (Bytes_append b1 s' _ Hwf1 HEs), HB1. now rewrite collapse_Bytes.
      - unfold Cap in *; cbn [buf]. now rewrite HCs. }
    destruct HW as (b' & HW & HB & HC). exists b'. split; [|auto].
    destruct c; cbn [do_write written] in *.
    + now rewrite HW.
    + rewrite WriteByte_Write, HW. reflexivity.
    + now rewrite WriteString_Write, HW.
Qed.

Lemma write_capacity_policy_witness :
  exists b', do_write (CallWrite (bytes_of "0123456789")) abcdefgh_read3 = Some (b', 10) /\
    Bytes b' = bytes_of "defgh0123456789" /\ Cap b' = 16.
Proof.
  apply (write_capacity_policy (CallWrite (bytes_of "0123456789")) abcdefgh_read3).
  - vm_compute. intuition discriminate.
  - vm_compute. reflexivity.
  - vm_compute. discriminate.
Defined.

(** X6.  [Read(p)] loses nothing: it delivers [n = min(len(p), unread)]
    bytes, the destination holds the delivered bytes followed by what it
    held beyond them, the delivered bytes followed by what is still unread
    are the bytes unread before, and the capacity is unchanged.  It reports
    the end of data exactly when the destination is not empty and nothing
    was unread, and no other error. *)
Theorem Read_conserves (p : list byte) (b : Buffer) :
  buffer_wf b ->
  let b' := fst (fst (Read p b)) in
  let p' := snd (fst (Read p b)) in
  let n := fst (snd (Read p b)) in
  let err := snd (snd (Read p b)) in
  n = Z.min (Z.of_nat (length p)) (Len b) /\
  p' = take (Z.to_nat n) (Bytes b) ++ drop (Z.to_nat n) p /\
  Bytes b = take (Z.to_nat n) p' ++ Bytes b' /\
  Cap b' = Cap b /\
  (err = Some EOF <-> 0 < Z.of_nat (length p) /\ Len b = 0) /\
  (err = None \/ err = Some EOF).
Proof.
  intros Hwf b' p' n err.
  destruct (Read p b) as [[b0 p0] [n0 e0]] eqn:HR. cbn [fst snd] in *.
  subst b' p' n err.
  destruct (Read_spec p b b0 p0 n0 e0 Hwf HR) as (Hn & Hp' & HB' & _ & HC & _ & _ & He & He').
  split; [exact Hn|]. split; [|split; [|split; [exact HC|split; [exact He | exact He']]]].
  - unfold Read in HR.
    destruct (Z.eqb_spec (Z.of_nat (length p)) 0) as [Hz|Hnz].
    + injection HR as <- <- <- <-. destruct p; [reflexivity | cbn in Hz; lia].
    + destruct (Z.leb_spec (len (buf b)) (r b)).
      * injection HR as <- <- <- <-. reflexivity.
      * unfold copy_at in HR. injection HR as <- <- <- <-. reflexivity.
  - rewrite Hp', HB'. symmetry. apply take_drop.
Qed.

Lemma Read_conserves_witness :
  let res := Read (dst 3) (fst (default (NewBuffer 8, (0, None))
                                  (WriteString (bytes_of "abcdefgh") (NewBuffer 8)))) in
  snd (fst res) = bytes_of "abc" /\ Bytes (fst (fst res)) = bytes_of "defgh" /\
  snd res = (3, None).
Proof.
  set (b := fst (default (NewBuffer 8, (0, None))
                   (WriteString (bytes_of "abcdefgh") (NewBuffer 8)))).
  assert (Hwf : buffer_wf b) by (vm_compute; intuition discriminate).
  pose proof (Read_conserves (dst 3) b Hwf) as H. cbn zeta in *.
  destruct H as (Hn & Hp' & _). vm_compute. auto.
Defined.

(** X7.  On a buffer with unread bytes, [WriteTo] calls the sink once, with
    exactly the unread bytes; for an answer [(n, err)] within the contract
    [0 <= n <= len(p)] it returns [n], passes on the sink's own error, and
    adds the short-write error only when the sink reported none and took
    fewer bytes than offered.  The bytes still unread are those after the
    first [n], and when the sink took them all the buffer is reset. *)
Theorem WriteTo_outcome (w : Writer) (b : Buffer) (n : Z) (err : option error) :
  buffer_wf b -> 0 < Len b -> w (Bytes b) = (n, err) -> 0 <= n <= Len b ->
  let b' := fst (fst (WriteTo w b)) in
  snd (fst (WriteTo w b)) = Some (Bytes b) /\
  snd (WriteTo w b) = (n, writeTo_error (Len b) n err) /\
  Bytes b' = drop (Z.to_nat n) (Bytes b) /\
  Cap b' = Cap b /\
  (n = Len b -> b' = Reset b).
Proof.
  intros Hwf HN Hw Hn b'. subst b'. pose proof Hwf as (Hr & Hl & Hc).
  pose proof (Bytes_length b Hwf) as HB.
  unfold WriteTo. destruct (Z.leb_spec (len (buf b)) (r b)); [unfold Len in *; lia|].
  rewrite Hw, HB.
  set (b1 := if 0 <? n then collapse (mkBuffer (buf b) (wrap64 (r b + n))) else b).
  assert (Hb1 : Bytes b1 = drop (Z.to_nat n) (Bytes b) /\ Cap b1 = Cap b /\
                (n = Len b -> b1 = Reset b)).
  { unfold b1. destruct (Z.ltb_spec 0 n) as [Hpos|Hnp].
    - rewrite wrap64_id by (unfold in_int, min_int, max_int, Len in *; lia).
      set (b2 := mkBuffer (buf b) (r b + n)).
      assert (Hwf2 : buffer_wf b2).
      { unfold buffer_wf, b2, Len in *; cbn [buf r]. lia. }
      split; [|split].
      + rewrite collapse_Bytes by exact Hwf2. apply Bytes_advance; lia.
      + now rewrite collapse_Cap.
      + intros ->. unfold collapse, b2, Len; cbn [buf r].
        destruct (Z.leb_spec (len (buf b)) (r b + (len (buf b) - r b))); [reflexivity | lia].
    - replace n with 0 by lia. split; [reflexivity|]. split; [reflexivity|].
      intros E. lia. }
  destruct Hb1 as (H1 & H2 & H3).
  unfold writeTo_error. destruct err as [e|]; cbn [fst snd]; [auto|].
  destruct (Z.eqb_spec n (Len b)); cbn [negb fst snd]; auto.
Qed.

Lemma WriteTo_outcome_witness :
  let b := fst (default (NewBuffer 0, (0, None)) (WriteString (bytes_of "data") (NewBuffer 0))) in
  let w : Writer := fun p => (3, Some (ErrOther 7)) in
  snd (WriteTo w b) = (3, Some (ErrOther 7)) /\
  Bytes (fst (fst (WriteTo w b))) = bytes_of "a".
Proof.
  set (b := fst (default (NewBuffer 0, (0, None))
                   (WriteString (bytes_of "data") (NewBuffer 0)))).
  set (w := (fun p => (3, Some (ErrOther 7))) : Writer).
  cbn zeta.
  destruct (WriteTo_outcome w b 3 (Some (ErrOther 7))) as (_ & H1 & H2 & _).
  - vm_compute. intuition discriminate.
  - vm_compute. reflexivity.
  - reflexivity.
  - vm_compute. intuition discriminate.
  - split; [exact H1 | exact H2].
Defined.

Lemma readFrom_take_content (b b' : Buffer) (a : answer) (n : Z) :
  buffer_wf b -> Z.of_nat (length (a_data a)) <= max_int ->
  readFrom_take b a = Some (b', n) ->
  n = Z.of_nat (length (a_data a)) /\ Bytes b' = Bytes b ++ a_data a.
Proof.
  intros Hwf Ha HT. pose proof Hwf as (Hr & Hl & Hc). unfold readFrom_take in HT.
  destruct (Z.ltb_spec 0 (Z.of_nat (length (a_data a)))) as [Hpos|Hz].
  - destruct (reslice _ _) as [s|] eqn:Hs; [|discriminate]. cbn in HT.
    injection HT as <- <-. split; [reflexivity|].
    set (m := Z.of_nat (length (a_data a))) in *.
    pose proof (copy_at_length (s_arr (buf b)) (a_data a) (len (buf b))
                  (cap (buf b) - len (buf b)) ltac:(lia) ltac:(lia)
                  ltac:(unfold cap in *; lia)) as HL.
    pose proof (copy_at_take (s_arr (buf b)) (a_data a) (len (buf b))
                  (cap (buf b) - len (buf b)) ltac:(lia) ltac:(lia)
                  ltac:(unfold cap in *; lia)) as HT.
    set (arr' := fst (copy_at (s_arr (buf b)) (len (buf b))
                        (cap (buf b) - len (buf b)) (a_data a))) in *.
    assert (Hcap : cap (mkSlice arr' (cap (buf b))) = cap (buf b)).
    { unfold cap at 1; cbn [s_arr]. now rewrite HL. }
    unfold reslice in Hs. rewrite Hcap in Hs.
    destruct (Z.leb_spec 0 (wrap64 (len (buf b) + m))) as [Hk0|]; [|discriminate].
    destruct (Z.leb_spec (wrap64 (len (buf b) + m)) (cap (buf b))) as [HkC|]; [|discriminate].
    injection Hs as <-.
    assert (Hk : wrap64 (len (buf b) + m) = len (buf b) + m).
    { destruct (Z_le_gt_dec (len (buf b) + m) max_int).
      - apply wrap64_id. unfold in_int, min_int, max_int in *. lia.
      - pose proof (wrap64_overflow (len (buf b) + m) ltac:(lia)). lia. }
    rewrite Hk in *. fold m in HT. rewrite Z.min_r in HT by lia.
    unfold Bytes, elems; cbn [buf r s_arr s_len]. fold (len (buf b)).
    rewrite HT. rewrite (take_ge (a_data a)) by lia.
    apply drop_app_le. rewrite length_take. unfold cap in *. lia.
  - injection HT as <- <-. destruct (a_data a); [|cbn in Hz; lia].
    split; [reflexivity | now rewrite app_nil_r].
Qed.

Lemma readFrom_space_Bytes (b b' : Buffer) :
  buffer_wf b -> readFrom_space b = Some b' -> Bytes b' = Bytes b.
Proof.
  intros Hwf Hs. unfold readFrom_space in Hs.
  destruct (_ =? _).
  - now destruct (grow_inv minRead b b' Hwf ltac:(unfold minRead, max_int; lia) Hs)
      as (_ & _ & ? & _).
  - now injection Hs as <-.
Qed.

Lemma readFrom_loop_content (rd : list answer) :
  Forall (fun a => Z.of_nat (length (a_data a)) <= max_int) rd ->
  forall (total : Z) (b b' : Buffer) (res : Z * option error),
  buffer_wf b -> 0 <= total <= Len b ->
  readFrom_loop rd total b = Some (b', res) ->
  Bytes b' = Bytes b ++ fst (heard rd) /\
  res = (total + Z.of_nat (length (fst (heard rd))), snd (heard rd)).
Proof.
  induction 1 as [|a rd Ha Hrd IH]; intros total b b' res Hwf Htot HL; cbn in HL.
  - destruct (readFrom_space b) as [b1|] eqn:Hs; [|discriminate]. cbn in HL.
    injection HL as <- <-. cbn. rewrite app_nil_r, Z.add_0_r.
    split; [eapply readFrom_space_Bytes; eassumption | reflexivity].
  - destruct (readFrom_space b) as [b1|] eqn:Hs; [|discriminate]. cbn in HL.
    destruct (readFrom_space_inv b b1 Hwf Hs) as (Hwf1 & _).
    pose proof (readFrom_space_Bytes b b1 Hwf Hs) as HB1.
    destruct (readFrom_take b1 a) as [[b2 n]|] eqn:HT; [|discriminate]. cbn in HL.
    destruct (readFrom_take_inv b1 b2 a n Hwf1 Ha HT) as (Hwf2 & _).
    destruct (readFrom_take_content b1 b2 a n Hwf1 Ha HT) as (Hn & HB2).
    pose proof (Bytes_length b Hwf) as HLb. pose proof (Bytes_length b2 Hwf2) as HLb2.
    rewrite HB2, HB1, length_app in HLb2.
    assert (Hcap2 : Len b2 <= max_int).
    { destruct Hwf2 as (? & ? & ?). unfold Len. lia. }
    assert (Hw : wrap64 (total + n) = total + n).
    { apply wrap64_id. unfold in_int, min_int, max_int in *. lia. }
    rewrite Hw in HL. cbn [heard].
    destruct (a_err a) as [e|].
    + destruct e; injection HL as <- <-; cbn [fst snd]; rewrite HB2, HB1, Hn; auto.
    + destruct (IH (total + n) b2 b' res Hwf2 ltac:(lia) HL) as (HB' & Hres).
      destruct (heard rd) as [d e]. cbn [fst snd] in *.
      rewrite HB', HB2, HB1, Hres, length_app, Nat2Z.inj_add, Hn, app_assoc.
      split; [reflexivity | f_equal; lia].
Qed.

(** X8.  Whenever [ReadFrom] returns, the unread content is the previous
    unread content followed by the data of the reader's answers up to and
    including the first that carries an error; the count returned is the
    number of those bytes; the end of data is returned as no error and any
    other error of the reader as it is; the capacity has not shrunk. *)
Theorem ReadFrom_appends (rd : list answer) (b b' : Buffer) (res : Z * option error) :
  buffer_wf b -> Forall (fun a => Z.of_nat (length (a_data a)) <= max_int) rd ->
  ReadFrom rd b = Some (b', res) ->
  Bytes b' = Bytes b ++ fst (heard rd) /\
  res = (Z.of_nat (length (fst (heard rd))), snd (heard rd)) /\
  Cap b <= Cap b' /\ buffer_wf b'.
Proof.
  intros Hwf Hrd HR.
  destruct (ReadFrom_inv rd b b' res Hrd Hwf HR) as (Hwf' & _ & HC).
  unfold ReadFrom in HR.
  pose proof (collapse_wf b Hwf) as Hwf0.
  destruct (readFrom_loop_content rd Hrd 0 (collapse b) b' res Hwf0) as (HB & Hres).
  - destruct Hwf0 as (? & ? & ?). unfold Len. lia.
  - exact HR.
  - rewrite collapse_Bytes in HB by exact Hwf. rewrite Z.add_0_l in Hres. auto.
Qed.

Lemma ReadFrom_appends_witness :
  exists b', ReadFrom sample_answers abcdefgh_read3 = Some (b', (4, Some (ErrOther 3))) /\
    Bytes b' = bytes_of "defghmore".
Proof.
  destruct (ReadFrom sample_answers abcdefgh_read3) as [[b' res]|] eqn:HR;
    [|vm_compute in HR; discriminate].
  assert (Hwf : buffer_wf abcdefgh_read3) by (vm_compute; intuition discriminate).
  assert (Hrd : Forall (fun a => Z.of_nat (length (a_data a)) <= max_int) sample_answers).
  { repeat constructor; vm_compute; discriminate. }
  destruct (ReadFrom_appends sample_answers abcdefgh_read3 b' res Hwf Hrd HR)
    as (HB & Hres & _).
  exists b'. rewrite Hres. split; [reflexivity | exact HB].
Defined.

Lemma apply_op_Cap (op : buf_op) (b b' : Buffer) :
  buffer_wf b -> op_ok op -> apply_op op b = Some b' -> Cap b <= Cap b'.
Proof.
  intros Hwf Hok Hop. destruct op; cbn [apply_op op_ok] in Hop, Hok.
  - destruct (Write p b) as [[b1 res]|] eqn:HW; cbn in Hop; [|discriminate].
    injection Hop as <-.
    now destruct (Write_inv p b b1 res Hwf Hok HW) as (_ & _ & _ & ? & _).
  - rewrite WriteByte_Write in Hop.
    destruct (Write [v] b) as [[b1 res]|] eqn:HW; cbn in Hop; [|discriminate].
    injection Hop as <-.
    now destruct (Write_inv [v] b b1 res Hwf ltac:(cbn; unfold max_int; lia) HW)
      as (_ & _ & _ & ? & _).
  - rewrite WriteString_Write in Hop.
    destruct (Write s b) as [[b1 res]|] eqn:HW; cbn in Hop; [|discriminate].
    injection Hop as <-.
    now destruct (Write_inv s b b1 res Hwf Hok HW) as (_ & _ & _ & ? & _).
  - injection Hop as <-.
    destruct (Read p b) as [[b1 p'] [n err]] eqn:HR.
    destruct (Read_spec p b b1 p' n err Hwf HR) as (_ & _ & _ & _ & HC & _).
    cbn [fst]. lia.
  - injection Hop as <-.
    destruct (WriteTo w b) as [[b1 o] res] eqn:HW.
    destruct (WriteTo_inv w b b1 o res Hwf Hok HW) as (_ & HC & _).
    cbn [fst]. lia.
  - destruct (ReadFrom rd b) as [[b1 res]|] eqn:HR; cbn in Hop; [|discriminate].
    injection Hop as <-.
    now destruct (ReadFrom_inv rd b b1 res Hok Hwf HR) as (_ & _ & ?).
  - destruct (Reserve n b) as [[b1 view]|] eqn:HR; cbn in Hop; [|discriminate].
    injection Hop as <-.
    now destruct (Reserve_inv n b b1 view Hwf Hok HR) as (_ & _ & ? & _).
  - now destruct (Grow_inv n b b' Hwf Hok Hop) as (_ & _ & _ & ?).
  - injection Hop as <-. rewrite Reset_Cap. lia.
Qed.

(** X9.  A buffer never gives storage back: along any sequence of Write,
    WriteByte, WriteString, Read, WriteTo, ReadFrom, Reserve, Grow and
    Reset, the capacity after each operation that returns is at least the
    capacity before it, so the capacities of the successive states are in
    non-decreasing order. *)
Theorem capacity_never_shrinks (ops : list buf_op) (b : Buffer) :
  buffer_wf b -> Forall op_ok ops ->
  StronglySorted Z.le (Cap b :: map Cap (run ops b)).
Proof.
  intros Hwf Hok. revert b Hwf.
  induction Hok as [|op ops Hop Hops IH]; intros b Hwf; cbn [run map].
  - repeat constructor.
  - destruct (apply_op op b) as [b'|] eqn:Happ; [|repeat constructor].
    destruct (apply_op_inv op b b' Hwf Hop Happ) as [Hwf' _].
    pose proof (apply_op_Cap op b b' Hwf Hop Happ) as HC.
    specialize (IH b' Hwf'). cbn [map].
    apply StronglySorted_cons. split; [|exact IH].
    apply StronglySorted_cons in IH. destruct IH as [Hall _].
    constructor; [exact HC|].
    eapply Forall_impl; [exact Hall|]. cbn. intros; lia.
Qed.

Lemma capacity_never_shrinks_witness :
  map Cap (run sample_ops (NewBuffer 8)) = [8; 8; 8; 128; 128; 128; 128; 128; 128; 128] /\
  StronglySorted Z.le (Cap (NewBuffer 8) :: map Cap (run sample_ops (NewBuffer 8))).
Proof.
  split; [vm_compute; reflexivity|].
  apply (capacity_never_shrinks sample_ops (NewBuffer 8)).
  - apply NewBuffer_wf. unfold max_int. lia.
  - exact sample_ops_ok.
Defined.

(** X10.  Once a [Read] has taken the last unread byte, the next [Read]
    into a non-empty destination reports the end of data, and a write of
    bytes that fit in the capacity starts from the empty buffer: it leaves
    exactly the bytes written as content, in the storage the buffer had. *)
Theorem drain_then_write_reuses (p : list byte) (b : Buffer) :
  buffer_wf b -> 0 < Z.of_nat (length p) -> Len b <= Z.of_nat (length p) ->
  let b1 := fst (fst (Read p b)) in
  Bytes b1 = [] /\ Cap b1 = Cap b /\
  (forall q, 0 < Z.of_nat (length q) -> Read q b1 = (b1, q, (0, Some EOF))) /\
  (forall c, Z.of_nat (length (written c)) <= Cap b ->
     exists b2, do_write c b1 = Some (b2, Z.of_nat (length (written c))) /\
       Cap b2 = Cap b /\ Bytes b2 = written c).
Proof.
  intros Hwf Hp Hall b1.
  destruct (Read p b) as [[b' p'] [n err]] eqn:HR. subst b1. cbn [fst].
  destruct (Read_spec p b b' p' n err Hwf HR) as (Hn & _ & HB & Hwf' & HC & _ & Ht & _).
  pose proof (Bytes_length b Hwf) as HLb. pose proof (Bytes_length b' Hwf') as HLb'.
  assert (HB0 : Bytes b' = []).
  { rewrite HB. apply drop_ge. lia. }
  rewrite HB0 in HLb'. cbn [length] in HLb'.
  specialize (Ht Hp).
  assert (Hempty : r b' = 0 /\ len (buf b') = 0).
  { unfold tidy, Len in *. lia. }
  split; [exact HB0|]. split; [exact HC|]. split.
  - intros q Hq. unfold Read.
    destruct (Z.eqb_spec (Z.of_nat (length q)) 0); [lia|].
    destruct (Z.leb_spec (len (buf b')) (r b')); [|lia].
    destruct Hempty as [Hr Hl]. destruct b' as [[arr l] rr]. cbn in *. subst. reflexivity.
  - intros c Hc.
    destruct (do_write_within_capacity c b' Hwf' ltac:(lia)) as (b2 & H1 & H2 & H3).
    exists b2. rewrite H2, H3, HB0, HC. auto.
Qed.

Lemma drain_then_write_reuses_witness :
  let b := fst (default (NewBuffer 0, (0, None)) (WriteString (bytes_of "hello") (NewBuffer 0))) in
  let b1 := fst (fst (Read (dst 5) b)) in
  Cap b = 8 /\ Read (dst 1) b1 = (b1, dst 1, (0, Some EOF)) /\
  exists b2, do_write (CallWriteString (bytes_of "XYZ")) b1 = Some (b2, 3) /\
    Cap b2 = Cap b /\ Bytes b2 = bytes_of "XYZ".
Proof.
  set (b := fst (default (NewBuffer 0, (0, None))
                   (WriteString (bytes_of "hello") (NewBuffer 0)))).
  cbn zeta.
  assert (Hwf : buffer_wf b) by (vm_compute; intuition discriminate).
  destruct (drain_then_write_reuses (dst 5) b Hwf) as (_ & _ & Heof & Hw).
  - vm_compute. reflexivity.
  - vm_compute. discriminate.
  - split; [reflexivity|]. split.
    + apply Heof. vm_compute. reflexivity.
    + apply (Hw (CallWriteString (bytes_of "XYZ"))). vm_compute. discriminate.
Defined.

(** X11.  The accessors agree: [Len] is the number of bytes [Bytes]
    returns and lies between zero and [Cap]; [UnsafeBytes] returns the
    consumed bytes, as many as the cursor says, followed by the bytes
    [Bytes] returns. *)
Theorem accessors_agree (b : Buffer) :
  buffer_wf b ->
  Len b = Z.of_nat (length (Bytes b)) /\ 0 <= Len b <= Cap b /\
  UnsafeBytes b = take (Z.to_nat (r b)) (UnsafeBytes b) ++ Bytes b /\
  Z.of_nat (length (take (Z.to_nat (r b)) (UnsafeBytes b))) = r b.
Proof.
  intros Hwf. pose proof Hwf as (Hr & Hl & Hc).
  pose proof (Bytes_length b Hwf) as HB.
  pose proof (elems_length (buf b) ltac:(lia)) as HE.
  split; [lia|]. split; [unfold Len, Cap; lia|]. split.
  - unfold UnsafeBytes, Bytes. symmetry. apply take_drop.
  - unfold UnsafeBytes. rewrite length_take. lia.
Qed.

Lemma accessors_agree_witness :
  Len abcdefgh_read3 = 5 /\ Bytes abcdefgh_read3 = bytes_of "defgh" /\
  UnsafeBytes abcdefgh_read3 = bytes_of "abc" ++ Bytes abcdefgh_read3.
Proof.
  destruct (accessors_agree abcdefgh_read3) as (HL & _ & HU & _).
  - vm_compute. intuition discriminate.
  - split; [reflexivity|]. split; [reflexivity|]. exact HU.
Defined.

(** * The pool: further lemmas *)

Lemma uniq_from_complete (l : list Z) :
  forall last x, x ∈ l -> x = last \/ x ∈ uniq_from last l.
Proof.
  induction l as [|y l IH]; intros last x Hx; [now apply elem_of_nil in Hx|].
  cbn. apply elem_of_cons in Hx.
  destruct (Z.eqb_spec y last) as [->|Hne]; cbn [negb].
  - destruct Hx as [->|Hx]; [now left | now apply IH].
  - destruct Hx as [->|Hx]; [right; left|].
    destruct (IH y x Hx) as [->|Hin]; right; [left | now right].
Qed.

Lemma normalizeSizes_complete (s : list Z) (x : Z) :
  0 < x -> x ∈ s -> x ∈ normalizeSizes s.
Proof.
  intros Hpos Hin. unfold normalizeSizes.
  assert (Hx : x ∈ sort_Ints (filter (fun v => 0 < v) s)).
  { apply sort_Ints_elem, list_elem_of_filter. auto. }
  destruct (sort_Ints (filter (fun v => 0 < v) s)) as [|y l]; [exact Hx|].
  apply elem_of_cons in Hx. destruct Hx as [->|Hx]; [left|].
  destruct (uniq_from_complete l y x Hx) as [->|H]; [left | now right].
Qed.

Lemma sorted_lt_NoDup (l : list Z) : StronglySorted Z.lt l -> NoDup l.
Proof.
  induction 1 as [|x l Hl IH Hx]; constructor; [|assumption].
  intros Hin. rewrite Forall_forall in Hx. specialize (Hx x Hin). lia.
Qed.

Lemma sorted_lt_ext (l1 l2 : list Z) :
  StronglySorted Z.lt l1 -> StronglySorted Z.lt l2 ->
  (forall x, x ∈ l1 <-> x ∈ l2) -> l1 = l2.
Proof.
  intros H1 H2 Hext.
  apply (StronglySorted_unique_strong Z.lt); [|assumption|assumption|].
  - intros x1 x2 _ _ Ha Hb. lia.
  - apply NoDup_Permutation; auto using sorted_lt_NoDup.
Qed.

(** [chooseCap] returns the class at the position [bucketIndex] gives. *)
Lemma chooseCap_bucketIndex (sizes : list Z) (t : Z) :
  sizes <> [] -> chooseCap sizes t = index sizes (bucketIndex sizes t).
Proof.
  intros Hne. unfold chooseCap, bucketIndex.
  destruct (Z.leb_spec t 0); [reflexivity|].
  destruct (first_fit sizes t 0) as [[i s]|] eqn:Hf; [|reflexivity].
  destruct (first_fit_Some _ _ _ _ _ Hf) as (k & -> & Hk & _).
  symmetry. apply index_Some. split; [lia|]. now rewrite Z.add_0_l, Nat2Z.id.
Qed.

(** What sampling and calibration leave alone. *)
Lemma recalibratePercentile_counters (p p' : BufferPool) :
  recalibratePercentile p = Some p' ->
  gets p' = gets p /\ puts p' = puts p /\ allocs p' = allocs p /\ leaks p' = leaks p /\
  observeEvery p' = observeEvery p /\ calibrateThr p' = calibrateThr p /\
  observed p' = observed p /\ metrics p' = metrics p /\
  bucketHits p' = replicate (length (bucketHits p)) 0.
Proof.
  unfold recalibratePercentile. intros H.
  destruct (_ || _); [injection H as <-; cbn; auto 10|].
  destruct (percentile_class _ _ _ _); [|injection H as <-; cbn; auto 10].
  destruct (index _ _); [|discriminate]. cbn in H. injection H as <-.
  unfold report. destruct (metrics _) eqn:Hm; cbn in *; auto 10.
Qed.

Lemma observeSize_counters (size idx : Z) (p p' : BufferPool) :
  observeSize size idx p = Some p' ->
  gets p' = gets p /\ puts p' = puts p /\ allocs p' = allocs p /\ leaks p' = leaks p /\
  observeEvery p' = observeEvery p /\ calibrateThr p' = calibrateThr p /\
  metrics p' = metrics p.
Proof.
  unfold observeSize. intros H.
  destruct (_ || _); [injection H as <-; auto 10|].
  destruct (index _ _); [|discriminate]. cbn in H.
  destruct (negb _); [injection H as <-; cbn; auto 10|].
  apply recalibratePercentile_counters in H. cbn in H. intuition.
Qed.

(** Where [Put] files a buffer. *)
Lemma Put_placement (b : Buffer) (p : BufferPool) :
  pool_inv p -> buffer_wf b ->
  exists p', Put (Some b) p = Some p' /\
    puts p' = wrap64 (puts p + 1) /\ gets p' = gets p /\ allocs p' = allocs p /\
    sizes p' = sizes p /\ smallLimit p' = smallLimit p /\
    observeEvery p' = observeEvery p /\ calibrateThr p' = calibrateThr p /\
    (Cap b <= smallLimit p ->
       smallPool p' = Reset b :: smallPool p /\ buckets p' = buckets p) /\
    (smallLimit p < Cap b ->
       smallPool p' = smallPool p /\
       exists old, buckets p !! Z.to_nat (bucketIndex (sizes p) (Cap b)) = Some old /\
         buckets p' = <[Z.to_nat (bucketIndex (sizes p) (Cap b)) := Reset b :: old]> (buckets p)).
Proof.
  intros Hinv Hwf. unfold Put.
  set (p0 := set_counters _ _ _ p).
  assert (Hinv0 : pool_inv p0).
  { apply (pool_inv_same_pools p); auto. apply Hinv. }
  change (smallLimit p0) with (smallLimit p). change (sizes p0) with (sizes p).
  change (cap (buf (Reset b))) with (Cap b).
  pose proof (bucketIndex_range (sizes p) (Cap b) (inv_sizes_nonempty p Hinv)) as Hidx.
  destruct (observeSize_inv (Cap b) (bucketIndex (sizes p) (Cap b)) p0 Hinv0 Hidx)
    as (p1 & Ho & Hinv1 & (Hs1 & Hl1 & Hb1 & Hsp1 & _)).
  destruct (observeSize_counters _ _ _ _ Ho) as (Hg & Hp & Ha & _ & Hoe & Hct & _).
  rewrite Ho. cbn [mbind option_bind].
  change (sizes p0) with (sizes p) in Hs1. change (smallLimit p0) with (smallLimit p) in Hl1.
  change (buckets p0) with (buckets p) in Hb1. change (smallPool p0) with (smallPool p) in Hsp1.
  cbn in Hg, Hp, Ha, Hoe, Hct.
  destruct (Z.leb_spec (Cap b) (smallLimit p)) as [Hsmall|Hbig].
  - eexists. split; [reflexivity|]. cbn. rewrite Hsp1, Hb1.
    repeat (split; [assumption|]). split; [auto | intros; lia].
  - destruct (index_in_range (buckets p1) (bucketIndex (sizes p) (Cap b))) as (bucket & Hbk).
    { rewrite (inv_buckets_length p1 Hinv1), Hs1. exact Hidx. }
    rewrite Hbk. cbn [mbind option_bind]. eexists. split; [reflexivity|]. cbn.
    apply index_Some in Hbk. destruct Hbk as [_ Hbk]. rewrite Hb1 in Hbk. rewrite Hb1, Hsp1.
    repeat (split; [assumption|]). split; [intros; lia|]. intros _. eauto.
Qed.

(** What a miss of the sub-pool gives, with the allocation granted: a new
    buffer of the limit or of the class, grown when the request exceeds
    every class. *)
Lemma getSized_miss (n : Z) (p : BufferPool) :
  pool_inv p -> 0 <= n <= 2 ^ 62 ->
  exists b c,
    chooseCap (sizes p) n = Some c /\
    getSized None n p = Some (b, count_alloc true p) /\ Bytes b = [] /\
    Cap b = (if n <=? smallLimit p then smallLimit p
             else if n <=? c then c else nextPowerOfTwo n).
Proof.
  intros Hinv Hn. unfold getSized.
  destruct (chooseCap_total (sizes p) n (inv_sizes_nonempty p Hinv)) as (c & Hc & Hcin).
  destruct (Z.ltb_spec n 0); [lia|].
  pose proof (inv_smallLimit p Hinv) as Hlim.
  assert (Hsame : set_pools (buckets p) (smallPool p) p = p) by (now destruct p).
  destruct (Z.leb_spec n (smallLimit p)) as [Hsmall|Hbig].
  - cbn [pool_get]. rewrite Hsame.
    unfold fit. change (cap (buf (NewBuffer (smallLimit p)))) with (Cap (NewBuffer (smallLimit p))).
    rewrite NewBuffer_Cap.
    destruct (Z.ltb_spec (Z.max 0 (smallLimit p)) n); [lia|].
    cbn [mbind option_bind]. exists (NewBuffer (smallLimit p)), c.
    split; [exact Hc|]. split; [reflexivity|]. split; [reflexivity|].
    rewrite NewBuffer_Cap. lia.
  - pose proof (bucketIndex_range (sizes p) n (inv_sizes_nonempty p Hinv)) as Hidx.
    destruct (index_in_range (buckets p) (bucketIndex (sizes p) n)) as (bucket & Hbk).
    { rewrite (inv_buckets_length p Hinv). exact Hidx. }
    rewrite Hbk. rewrite <- (chooseCap_bucketIndex (sizes p) n (inv_sizes_nonempty p Hinv)), Hc.
    cbn [mbind option_bind pool_get].
    apply index_Some in Hbk. destruct Hbk as [_ Hbk].
    rewrite (list_insert_id _ _ _ Hbk), Hsame.
    assert (Hcr : 0 < c <= max_int).
    { pose proof (inv_sizes_range p Hinv) as Hr. rewrite Forall_forall in Hr. auto. }
    unfold fit. change (cap (buf (NewBuffer c))) with (Cap (NewBuffer c)).
    rewrite NewBuffer_Cap.
    destruct (Z.leb_spec n c) as [Hfit|Hover].
    + destruct (Z.ltb_spec (Z.max 0 c) n); [lia|].
      cbn [mbind option_bind]. exists (NewBuffer c), c.
      split; [reflexivity|]. split; [reflexivity|]. split; [reflexivity|].
      rewrite NewBuffer_Cap. destruct (Z.leb_spec n c); lia.
    + destruct (Z.ltb_spec (Z.max 0 c) n); [|lia].
      change (len (buf (NewBuffer c))) with 0. rewrite Z.sub_0_r.
      rewrite wrap64_id by (unfold in_int, min_int, max_int; lia).
      pose proof (NewBuffer_wf c ltac:(lia)) as Hwf.
      assert (HL : Len (NewBuffer c) = 0) by reflexivity.
      destruct (grow_reallocates n (NewBuffer c) Hwf ltac:(lia)) as (b' & Hg & HC & HB & _).
      { apply grow_beyond_capacity; [exact Hwf | lia | | unfold max_int; lia].
        rewrite NewBuffer_Cap, HL. lia. }
      { rewrite HL. lia. }
      rewrite Hg. cbn [mbind option_bind]. exists b', c.
      split; [reflexivity|]. split; [reflexivity|]. rewrite HB, HC, HL.
      split; [reflexivity|]. destruct (Z.leb_spec n c); [lia | reflexivity].
Qed.

(** Drawing a buffer touches the sub-pools and two counters, nothing else. *)
Lemma getSized_leaves (choice : option nat) (n : Z) (p p' : BufferPool) (b : Buffer) :
  getSized choice n p = Some (b, p') ->
  gets p' = gets p /\ puts p' = puts p /\
  (allocs p' = allocs p \/ allocs p' = wrap64 (allocs p + 1)) /\
  defaultCap p' = defaultCap p /\ sizes p' = sizes p /\ smallLimit p' = smallLimit p /\
  bucketHits p' = bucketHits p /\ observed p' = observed p /\
  calibrations p' = calibrations p /\ reported p' = reported p /\
  observeEvery p' = observeEvery p /\ calibrateThr p' = calibrateThr p.
Proof.
  unfold getSized. intros HG.
  destruct (_ <=? smallLimit p).
  - destruct (pool_get _ _ _) as [[b0 pl] missed].
    destruct (fit _ b0); [|discriminate]. injection HG as <- <-.
    destruct missed; cbn; auto 15.
  - destruct (index (buckets p) _); [|discriminate]. cbn in HG.
    destruct (index (sizes p) _); [|discriminate]. cbn in HG.
    destruct (pool_get _ _ _) as [[b0 pl] missed].
    destruct (fit _ b0); [|discriminate]. injection HG as <- <-.
    destruct missed; cbn; auto 15.
Qed.

Lemma Calibrate_leaves (observed : Z) (p p' : BufferPool) :
  Calibrate observed p = Some p' ->
  observeEvery p' = observeEvery p /\ calibrateThr p' = calibrateThr p.
Proof.
  unfold Calibrate. intros H. destruct (_ <=? _); [now injection H as <-|].
  destruct (chooseCap _ _); [|discriminate]. cbn in H. injection H as <-.
  unfold report. destruct (metrics _); cbn; auto.
Qed.

Lemma reachable_config (p : BufferPool) :
  reachable p -> 0 < observeEvery p /\ 0 < calibrateThr p.
Proof.
  induction 1 as [opts p Hok Hnew | p choice b p' Hr IH HG | p choice n b p' Hr IH _ HG
                 | p choice n b release p' Hr IH _ HB | p b p' Hr IH Hwf HP | p p' Hr IH HP
                 | p observed p' Hr IH _ HC | p class k Hr IH].
  - unfold NewBufferPoolWithOptions in Hnew.
    destruct (index _ 0); [|discriminate]. cbn in Hnew.
    destruct (chooseCap _ _); [|discriminate]. cbn in Hnew. injection Hnew as <-. cbn.
    split.
    + destruct (Z.ltb_spec 0 (PoolOptions.ObserveEvery opts)); lia.
    + destruct (Z.ltb_spec 0 (PoolOptions.CalibrateThreshold opts));
        [lia | unfold defaultCalibrateThreshold; lia].
  - unfold Get in HG. apply getSized_leaves in HG.
    destruct HG as (_ & _ & _ & _ & _ & _ & _ & _ & _ & _ & -> & ->). exact IH.
  - unfold GetSized in HG. apply getSized_leaves in HG.
    destruct HG as (_ & _ & _ & _ & _ & _ & _ & _ & _ & _ & -> & ->). exact IH.
  - unfold Borrow in HB.
    destruct (getSized choice n (count_get p)) as [[b0 p0]|] eqn:HG; [|discriminate].
    cbn in HB. injection HB as <- <- <-. apply getSized_leaves in HG.
    destruct HG as (_ & _ & _ & _ & _ & _ & _ & _ & _ & _ & -> & ->). exact IH.
  - destruct (Put_placement b p (reachable_inv p Hr) Hwf)
      as (p0 & H0 & _ & _ & _ & _ & _ & Hoe & Hct & _).
    rewrite HP in H0. injection H0 as <-. now rewrite Hoe, Hct.
  - cbn in HP. now injection HP as <-.
  - apply Calibrate_leaves in HC. destruct HC as [-> ->]. exact IH.
  - destruct class; exact IH.
Qed.

(** A class asks for itself. *)
Lemma chooseCap_member (sizes : list Z) (c : Z) :
  StronglySorted Z.lt sizes -> c ∈ sizes -> 0 < c -> chooseCap sizes c = Some c.
Proof.
  intros Hsorted Hin Hpos.
  assert (Hne : sizes <> []) by (intros ->; now apply elem_of_nil in Hin).
  destruct (chooseCap_total sizes c Hne) as (c' & Hc' & _). rewrite Hc'. f_equal.
  destruct (chooseCap_positive sizes c c' Hsorted Hpos Hc')
    as [(Hin' & Hle & Hmin) | (Hall & _)].
  - specialize (Hmin c Hin ltac:(lia)). lia.
  - rewrite Forall_forall in Hall. specialize (Hall c Hin). lia.
Qed.

(** A negative request is a request for nothing. *)
Lemma getSized_clamp (choice : option nat) (n : Z) (p : BufferPool) :
  getSized choice n p = getSized choice (Z.max 0 n) p.
Proof.
  unfold getSized. destruct (Z.ltb_spec n 0) as [Hneg|Hpos].
  - rewrite Z.max_l by lia. reflexivity.
  - rewrite Z.max_r by lia. destruct (Z.ltb_spec n 0); [lia | reflexivity].
Qed.

(** The new pool with the classes 16, 32 and 64 is a pool state. *)
Lemma new_pool_16_32_64 :
  exists p, NewBufferPoolWithOptions opts_16_32_64 = Some p /\ reachable p.
Proof.
  destruct (NewBufferPoolWithOptions opts_16_32_64) as [p|] eqn:H0; [|evaluate H0].
  exists p. split; [reflexivity|]. eapply reach_new; [exact opts_16_32_64_ok | exact H0].
Defined.

(** A calibration pass either leaves the default capacity, the calibration
    counter and the reports alone, or counts one calibration, takes a class
    for the default capacity and, with a callback, reports the statistics
    of the updated pool. *)
Lemma recalibratePercentile_outcome (p p' : BufferPool) :
  pool_inv p -> recalibratePercentile p = Some p' ->
  (defaultCap p' = defaultCap p /\ calibrations p' = calibrations p /\
   reported p' = reported p) \/
  (defaultCap p' ∈ sizes p /\ calibrations p' = wrap64 (calibrations p + 1) /\
   reported p' = if metrics p then Stats p' :: reported p else reported p).
Proof.
  intros Hinv H. unfold recalibratePercentile in H.
  destruct (_ || _); [injection H as <-; left; cbn; auto|].
  destruct (percentile_class _ _ _ _) as [i|]; [|injection H as <-; left; cbn; auto].
  destruct (index _ _) as [s|] eqn:Hs; [|discriminate]. cbn in H, Hs. injection H as <-.
  right. apply index_Some in Hs. destruct Hs as [_ Hs].
  apply list_elem_of_lookup_2 in Hs.
  unfold report. cbn. destruct (metrics p); cbn; auto.
Qed.

Lemma observeSize_outcome (size idx : Z) (p p' : BufferPool) :
  pool_inv p -> observeSize size idx p = Some p' ->
  (defaultCap p' = defaultCap p /\ calibrations p' = calibrations p /\
   reported p' = reported p) \/
  (defaultCap p' ∈ sizes p /\ calibrations p' = wrap64 (calibrations p + 1) /\
   reported p' = if metrics p then Stats p' :: reported p else reported p).
Proof.
  intros Hinv H. unfold observeSize in H.
  destruct (_ || _); [injection H as <-; auto|].
  destruct (index _ _); [|discriminate]. cbn in H.
  destruct (negb _); [injection H as <-; left; cbn; auto|].
  apply recalibratePercentile_outcome in H; [exact H|].
  apply (pool_inv_same_pools p); auto; [|apply Hinv].
  cbn. unfold add_hit. now rewrite length_alter.
Qed.

(** A sample that does not complete a window. *)
Lemma observeSize_sample (size idx : Z) (p : BufferPool) :
  0 < size -> 0 < observeEvery p -> 0 <= idx < Z.of_nat (length (bucketHits p)) ->
  Z.rem (wrap64 (observed p + 1)) (observeEvery p) <> 0 ->
  observeSize size idx p
  = Some (set_sampling (wrap64 (observed p + 1)) (add_hit idx (bucketHits p)) p).
Proof.
  intros Hsize Hevery Hidx Hrem. unfold observeSize.
  destruct (Z.leb_spec size 0); [lia|]. destruct (Z.leb_spec (observeEvery p) 0); [lia|].
  cbn [orb]. destruct (index_in_range (bucketHits p) idx Hidx) as (h & Hh).
  rewrite Hh. cbn. destruct (Z.eqb_spec (Z.rem (wrap64 (observed p + 1)) (observeEvery p)) 0);
    [contradiction | reflexivity].
Qed.

(** [Put] is the sampling of the capacity followed by the filing of the
    buffer: all that is not a sub-pool is as the sampling leaves it. *)
Lemma Put_sampling (b : Buffer) (p : BufferPool) :
  pool_inv p -> buffer_wf b ->
  exists p1 p',
    observeSize (Cap b) (bucketIndex (sizes p) (Cap b))
      (set_counters (gets p) (wrap64 (puts p + 1)) (allocs p) p) = Some p1 /\
    Put (Some b) p = Some p' /\
    p' = set_pools (buckets p') (smallPool p') p1.
Proof.
  intros Hinv Hwf. unfold Put.
  set (p0 := set_counters _ _ _ p).
  assert (Hinv0 : pool_inv p0).
  { apply (pool_inv_same_pools p); auto. apply Hinv. }
  change (smallLimit p0) with (smallLimit p). change (sizes p0) with (sizes p).
  change (cap (buf (Reset b))) with (Cap b).
  pose proof (bucketIndex_range (sizes p) (Cap b) (inv_sizes_nonempty p Hinv)) as Hidx.
  destruct (observeSize_inv (Cap b) (bucketIndex (sizes p) (Cap b)) p0 Hinv0 Hidx)
    as (p1 & Ho & Hinv1 & (Hs1 & Hl1 & Hb1 & Hsp1 & _)).
  rewrite Ho. cbn [mbind option_bind]. exists p1.
  destruct (Z.leb_spec (Cap b) (smallLimit p)) as [Hsmall|Hbig].
  - eexists. split; [reflexivity|]. split; reflexivity.
  - destruct (index_in_range (buckets p1) (bucketIndex (sizes p) (Cap b))) as (bucket & Hbk).
    { rewrite (inv_buckets_length p1 Hinv1), Hs1. exact Hidx. }
    rewrite Hbk. cbn [mbind option_bind]. eexists. split; [reflexivity|]. split; reflexivity.
Qed.

(** A sample that completes a window starts the calibration pass. *)
Lemma observeSize_window (size idx : Z) (p : BufferPool) :
  0 < size -> 0 < observeEvery p -> 0 <= idx < Z.of_nat (length (bucketHits p)) ->
  Z.rem (wrap64 (observed p + 1)) (observeEvery p) = 0 ->
  observeSize size idx p
  = recalibratePercentile
      (set_sampling (wrap64 (observed p + 1)) (add_hit idx (bucketHits p)) p).
Proof.
  intros Hsize Hevery Hidx Hrem. unfold observeSize.
  destruct (Z.leb_spec size 0); [lia|]. destruct (Z.leb_spec (observeEvery p) 0); [lia|].
  cbn [orb]. destruct (index_in_range (bucketHits p) idx Hidx) as (h & Hh).
  rewrite Hh. cbn. now rewrite Hrem.
Qed.

Lemma add_hit_lookup (idx : Z) (hits : list Z) (i : nat) (h : Z) :
  0 <= idx -> hits !! i = Some h ->
  add_hit idx hits !! i = Some (if decide (Z.of_nat i = idx) then wrap64 (h + 1) else h).
Proof.
  intros Hidx Hh. unfold add_hit. destruct (decide (Z.of_nat i = idx)) as [<-|Hne].
  - rewrite Nat2Z.id, list_lookup_alter_eq, Hh. reflexivity.
  - rewrite list_lookup_alter_ne by lia. exact Hh.
Qed.

(** Without overflow, the loops of the calibration pass add as the
    integers do. *)
Lemma fold_counts_nowrap (l : list Z) :
  forall acc, 0 <= acc -> Forall (fun h => 0 <= h) l -> acc + sum_list l <= max_int ->
  fold_left (fun total c => wrap64 (total + c)) l acc = acc + sum_list l.
Proof.
  induction l as [|c l IH]; intros acc Hacc Hl Hsum; cbn in *; [lia|].
  apply Forall_cons in Hl. destruct Hl as [Hc Hl].
  assert (Hnn : 0 <= sum_list l).
  { clear -Hl. induction Hl; cbn; [lia|]. unfold sum_list in IHHl. lia. }
  fold (sum_list l) in *.
  rewrite wrap64_id by (unfold in_int, min_int, max_int in *; lia).
  rewrite IH; [lia | lia | exact Hl | lia].
Qed.

Lemma sum_list_nonneg (l : list Z) : Forall (fun h => 0 <= h) l -> 0 <= sum_list l.
Proof. induction 1; cbn; [lia|]. fold (sum_list l). lia. Qed.

Lemma sum_counts_nowrap (l : list Z) :
  Forall (fun h => 0 <= h) l -> sum_list l <= max_int -> sum_counts l = sum_list l.
Proof.
  intros Hl Hsum. unfold sum_counts. rewrite fold_counts_nowrap; [lia | lia | exact Hl | lia].
Qed.

(** The walk stops at the first position where the running total reaches
    the target. *)
Lemma percentile_class_first (counts : list Z) (target : Z) :
  forall i0 cum,
    Forall (fun h => 0 <= h) counts -> 0 <= cum -> cum + sum_list counts <= max_int ->
    cum < target ->
    match percentile_class counts i0 cum target with
    | Some i =>
        exists k : nat, i = i0 + Z.of_nat k /\ (k < length counts)%nat /\
          cum + sum_list (take k counts) < target <= cum + sum_list (take (S k) counts)
    | None => cum + sum_list counts < target
    end.
Proof.
  induction counts as [|c counts IH]; intros i0 cum Hl Hcum Hsum Hlt; cbn in *; [lia|].
  fold (sum_list counts) in *.
  apply Forall_cons in Hl. destruct Hl as [Hc Hl].
  pose proof (sum_list_nonneg counts Hl) as Hnn.
  rewrite wrap64_id by (unfold in_int, min_int, max_int in *; lia).
  destruct (Z.leb_spec target (cum + c)) as [Hreach|Hnot].
  - exists 0%nat. cbn. rewrite take_0. cbn. split; [lia|]. split; lia.
  - specialize (IH (i0 + 1) (cum + c) Hl ltac:(lia) ltac:(lia) Hnot).
    destruct (percentile_class counts (i0 + 1) (cum + c) target) as [i|].
    + destruct IH as (k & -> & Hk & Hb). exists (S k). cbn.
      fold (sum_list (take k counts)). fold (sum_list (take (S k) counts)).
      split; [lia|]. split; [lia|]. cbn in Hb. fold (sum_list (take k counts)) in Hb. lia.
    + lia.
Qed.

Lemma sum_list_app (l1 l2 : list Z) : sum_list (l1 ++ l2) = sum_list l1 + sum_list l2.
Proof.
  induction l1 as [|x l1 IH]; cbn; [reflexivity|].
  fold (sum_list (l1 ++ l2)). fold (sum_list l1). lia.
Qed.

(** ** A reader that fills the space it is offered *)

(** The loop always has room to offer. *)
Lemma readFrom_space_room (b : Buffer) :
  buffer_wf b -> Len b + minRead <= 2 ^ 62 ->
  exists b1, readFrom_space b = Some b1 /\ buffer_wf b1 /\ Bytes b1 = Bytes b /\
    Cap b <= Cap b1 /\ 0 < cap (buf b1) - len (buf b1).
Proof.
  intros Hwf Hsz. pose proof Hwf as (Hr & Hl & Hc). unfold readFrom_space.
  destruct (Z.eqb_spec (len (buf b)) (cap (buf b))) as [Hfull|Hroom].
  - destruct (grow_total minRead b Hwf ltac:(unfold minRead; lia) Hsz) as (b1 & Hg).
    destruct (grow_inv minRead b b1 Hwf ltac:(unfold minRead, max_int; lia) Hg)
      as (Hwf1 & _ & HB & HC & [Hgot | (Hov & _)]).
    + exists b1. unfold minRead in Hgot. repeat split; try assumption; try apply Hwf1; lia.
    + exfalso. unfold max_int in Hov. lia.
  - exists b. split; [reflexivity|]. split; [exact Hwf|]. split; [reflexivity|].
    split; lia.
Qed.

(** An answer that fits the space offered is taken. *)
Lemma readFrom_take_total (b : Buffer) (a : answer) :
  buffer_wf b -> Z.of_nat (length (a_data a)) <= cap (buf b) - len (buf b) ->
  exists b', readFrom_take b a = Some (b', Z.of_nat (length (a_data a))).
Proof.
  intros Hwf Hfit. pose proof Hwf as (Hr & Hl & Hc). unfold readFrom_take.
  destruct (Z.ltb_spec 0 (Z.of_nat (length (a_data a)))) as [Hpos|Hz].
  - set (m := Z.of_nat (length (a_data a))) in *.
    pose proof (copy_at_length (s_arr (buf b)) (a_data a) (len (buf b))
                  (cap (buf b) - len (buf b)) ltac:(lia) ltac:(lia)
                  ltac:(unfold cap in *; lia)) as HL.
    rewrite wrap64_id by (unfold in_int, min_int, max_int in *; lia).
    set (arr' := fst (copy_at (s_arr (buf b)) (len (buf b))
                        (cap (buf b) - len (buf b)) (a_data a))) in *.
    assert (Hcap : cap (mkSlice arr' (cap (buf b))) = cap (buf b)).
    { unfold cap at 1; cbn [s_arr]. now rewrite HL. }
    unfold reslice. rewrite Hcap.
    destruct (Z.leb_spec 0 (len (buf b) + m)); [|lia].
    destruct (Z.leb_spec (len (buf b) + m) (cap (buf b))); [|lia].
    cbn. eauto.
  - assert (Hm : Z.of_nat (length (a_data a)) = 0) by lia. rewrite Hm. eauto.
Qed.

(** [ReadFrom] takes all the data of a filling reader. *)
Lemma readFrom_loop_filling (fuel : nat) :
  forall (d : list byte) (total : Z) (b : Buffer),
    buffer_wf b -> (length d < fuel)%nat ->
    Len b + Z.of_nat (length d) + minRead <= 2 ^ 62 -> 0 <= total <= Len b ->
    exists b',
      readFrom_loop (filling_reader fuel d b) total b
      = Some (b', (total + Z.of_nat (length d), None)) /\
      Bytes b' = Bytes b ++ d.
Proof.
  induction fuel as [|fuel IH]; intros d total b Hwf Hfuel Hsz Htot; [lia|].
  assert (HLb : 0 <= Len b) by (destruct Hwf as (? & ? & ?); unfold Len; lia).
  destruct (readFrom_space_room b Hwf ltac:(lia)) as (b1 & Hs & Hwf1 & HB1 & _ & Hroom).
  destruct d as [|x d].
  - cbn [filling_reader readFrom_loop]. rewrite Hs. cbn [mbind option_bind].
    change (readFrom_take b1 (mkAnswer [] (Some EOF))) with (Some (b1, 0)).
    cbn [mbind option_bind a_err length].
    change (Z.of_nat 0) with 0. rewrite !Z.add_0_r, wrap64_id
      by (unfold in_int, min_int, max_int, minRead in *; cbn [length] in Hsz; lia).
    exists b1. split; [reflexivity|]. now rewrite HB1, app_nil_r.
  - cbn [filling_reader]. rewrite Hs.
    set (space := Z.to_nat (cap (buf b1) - len (buf b1))).
    set (a := mkAnswer (take space (x :: d)) None).
    assert (Hchunk : Z.of_nat (length (a_data a)) <= cap (buf b1) - len (buf b1)).
    { unfold a; cbn [a_data]. rewrite length_take. unfold space. lia. }
    destruct (readFrom_take_total b1 a Hwf1 Hchunk) as (b2 & HT).
    rewrite HT. cbn [readFrom_loop]. rewrite Hs. cbn [mbind option_bind].
    rewrite HT. cbn [mbind option_bind a_err a].
    assert (Ha : Z.of_nat (length (a_data a)) <= max_int).
    { destruct Hwf1 as (? & ? & ?). lia. }
    destruct (readFrom_take_inv b1 b2 a _ Hwf1 Ha HT) as (Hwf2 & _).
    destruct (readFrom_take_content b1 b2 a _ Hwf1 Ha HT) as (_ & HB2).
    pose proof (Bytes_length b Hwf) as HL0. pose proof (Bytes_length b2 Hwf2) as HL2.
    rewrite HB2, HB1, length_app, Nat2Z.inj_add, HL0 in HL2.
    assert (Hn : 0 < Z.of_nat (length (a_data a))).
    { unfold a; cbn [a_data]. rewrite length_take. unfold space. cbn [length]. lia. }
    pose proof (take_drop space (x :: d)) as Htd.
    assert (Hsplit : length (x :: d)
                     = (length (a_data a) + length (drop space (x :: d)))%nat).
    { rewrite <- Htd at 1. now rewrite length_app. }
    rewrite wrap64_id by (unfold in_int, min_int, max_int, minRead in *; lia).
    assert (H1 : (length (drop space (x :: d)) < fuel)%nat) by lia.
    assert (H2 : Len b2 + Z.of_nat (length (drop space (x :: d))) + minRead <= 2 ^ 62)
      by lia.
    assert (H3 : 0 <= total + Z.of_nat (length (a_data a)) <= Len b2) by lia.
    destruct (IH (drop space (x :: d)) (total + Z.of_nat (length (a_data a))) b2
                Hwf2 H1 H2 H3) as (b' & HL & HB').
    exists b'. rewrite HL.
    replace (total + Z.of_nat (length (x :: d)))
      with (total + Z.of_nat (length (a_data a))
            + Z.of_nat (length (drop space (x :: d)))) by lia.
    split.
    + reflexivity.
    + rewrite HB', HB2, HB1, <- app_assoc. unfold a; cbn [a_data]. now rewrite Htd.
Qed.

(** * The pool: further properties *)

(** X12.  [normalizeSizes] returns the positive values of its argument,
    each once, in increasing order: the result is strictly increasing and
    holds exactly the positive elements of the argument.  Normalising a
    second time changes nothing. *)
Theorem normalizeSizes_normal_form (s : list Z) :
  StronglySorted Z.lt (normalizeSizes s) /\
  (forall x, x ∈ normalizeSizes s <-> 0 < x /\ x ∈ s) /\
  normalizeSizes (normalizeSizes s) = normalizeSizes s.
Proof.
  destruct (normalizeSizes_spec s) as [Hs He].
  assert (Hiff : forall x, x ∈ normalizeSizes s <-> 0 < x /\ x ∈ s).
  { intros x. split; [apply He | intros [? ?]; now apply normalizeSizes_complete]. }
  split; [exact Hs|]. split; [exact Hiff|].
  destruct (normalizeSizes_spec (normalizeSizes s)) as [Hs2 He2].
  apply sorted_lt_ext; [exact Hs2 | exact Hs |].
  intros x. split.
  - intros Hx. now apply He2.
  - intros Hx. apply normalizeSizes_complete; [|exact Hx]. now apply He.
Qed.

(** X13.  Over a non-empty, strictly increasing table, [chooseCap] returns
    the class at the position [bucketIndex] gives, which is a valid
    position: the first class for a target that is not positive, the
    smallest class that holds a positive target when one does, and the
    largest class when the target exceeds them all. *)
Theorem class_of_target (sizes : list Z) (t : Z) :
  sizes <> [] -> StronglySorted Z.lt sizes ->
  0 <= bucketIndex sizes t < Z.of_nat (length sizes) /\
  exists c, chooseCap sizes t = Some c /\ index sizes (bucketIndex sizes t) = Some c /\
    (t <= 0 -> head sizes = Some c) /\
    (0 < t -> smallest_class_at_least sizes t c \/
              (Forall (fun s => s < t) sizes /\ largest sizes = Some c)).
Proof.
  intros Hne Hsorted. split; [now apply bucketIndex_range|].
  destruct (chooseCap_total sizes t Hne) as (c & Hc & _).
  exists c. split; [exact Hc|]. split; [now rewrite <- chooseCap_bucketIndex|]. split.
  - intros Ht. unfold chooseCap in Hc. destruct (Z.leb_spec t 0); [|lia].
    apply index_Some in Hc. destruct Hc as [_ Hc]. destruct sizes; [congruence|].
    cbn in *. exact Hc.
  - intros Ht. now apply chooseCap_positive.
Qed.

Lemma class_of_target_witness :
  bucketIndex [16; 32; 64] 40 = 2 /\ chooseCap [16; 32; 64] 40 = Some 64 /\
  bucketIndex [16; 32; 64] 100 = 2 /\ chooseCap [16; 32; 64] 100 = Some 64 /\
  exists c, chooseCap [16; 32; 64] 17 = Some c /\ smallest_class_at_least [16; 32; 64] 17 c.
Proof.
  repeat (split; [reflexivity|]).
  destruct (class_of_target [16; 32; 64] 17) as (_ & c & Hc & _ & _ & Hpos).
  - discriminate.
  - repeat (constructor; [|repeat constructor; lia]). constructor.
  - exists c. split; [exact Hc|].
    destruct (Hpos ltac:(lia)) as [Hs | [Hall _]]; [exact Hs|].
    exfalso. apply Forall_cons in Hall. destruct Hall as [_ Hall].
    apply Forall_cons in Hall. destruct Hall as [Hlt _]. lia.
Defined.

(** X14.  Construction never fails, whatever the options.  The classes are
    the normalised ones given, or the default table when none is positive;
    they are strictly increasing; the default capacity is what [chooseCap]
    gives for the initial capacity; the small-object limit is the one given
    when positive and else the smaller of 256 and the smallest class; the
    interval and the threshold are the ones given when positive and else
    4096 and 42000; the sub-pools are empty and all counters zero. *)
Theorem NewBufferPoolWithOptions_builds (opts : PoolOptions.t) :
  exists p, NewBufferPoolWithOptions opts = Some p /\
    sizes p = (if Z.of_nat (length (normalizeSizes (PoolOptions.BucketSizes opts))) =? 0
               then defaultBucketSizes
               else normalizeSizes (PoolOptions.BucketSizes opts)) /\
    sizes p <> [] /\ StronglySorted Z.lt (sizes p) /\
    chooseCap (sizes p) (PoolOptions.InitialCap opts) = Some (defaultCap p) /\
    (exists s0, head (sizes p) = Some s0 /\
       smallLimit p = (if 0 <? PoolOptions.SmallLimit opts
                       then PoolOptions.SmallLimit opts else Z.min 256 s0)) /\
    observeEvery p = (if 0 <? PoolOptions.ObserveEvery opts
                      then PoolOptions.ObserveEvery opts else 4096) /\
    calibrateThr p = (if 0 <? PoolOptions.CalibrateThreshold opts
                      then PoolOptions.CalibrateThreshold opts else 42000) /\
    buckets p = replicate (length (sizes p)) [] /\ smallPool p = [] /\
    bucketHits p = replicate (length (sizes p)) 0 /\
    Stats p = Stats.mk 0 0 0 0 0 (defaultCap p) (smallLimit p).
Proof.
  unfold NewBufferPoolWithOptions.
  set (sz := if Z.of_nat (length (normalizeSizes (PoolOptions.BucketSizes opts))) =? 0
             then defaultBucketSizes else normalizeSizes (PoolOptions.BucketSizes opts)).
  assert (Hsz : sz <> [] /\ StronglySorted Z.lt sz).
  { unfold sz. destruct (normalizeSizes_spec (PoolOptions.BucketSizes opts)) as [Hs _].
    destruct (Z.eqb_spec (Z.of_nat (length (normalizeSizes (PoolOptions.BucketSizes opts)))) 0)
      as [Hz|Hnz].
    - split; [discriminate | apply defaultBucketSizes_sorted].
    - split; [intros E; rewrite E in Hnz; cbn in Hnz; lia | exact Hs]. }
  destruct Hsz as [Hne Hsorted].
  assert (Hlen : 0 < Z.of_nat (length sz)) by (destruct sz; [congruence | cbn; lia]).
  destruct (index_in_range sz 0 ltac:(lia)) as (s0 & Hs0). rewrite Hs0.
  cbn [mbind option_bind].
  destruct (chooseCap_total sz (PoolOptions.InitialCap opts) Hne) as (dc & Hdc & _).
  rewrite Hdc. cbn [mbind option_bind].
  eexists. split; [reflexivity|]. cbn.
  repeat (split; [first [reflexivity | assumption]|]).
  split; [|repeat split; reflexivity].
  exists s0. split.
  - apply index_Some in Hs0. destruct Hs0 as [_ Hs0]. destruct sz; [congruence|]. exact Hs0.
  - unfold minInt. destruct (0 <? _); [reflexivity|].
    destruct (Z.ltb_spec 256 s0); lia.
Qed.

(** X15.  In every pool state the default capacity is one of the classes,
    the classes are non-empty and strictly increasing, there is one
    sub-pool and one hit counter per class, every buffer held by a sub-pool
    has nothing unread, those of the small sub-pool have capacity at most
    the small-object limit and those of the class sub-pools a capacity
    above it. *)
Theorem pool_state_invariant (p : BufferPool) :
  reachable p ->
  defaultCap p ∈ sizes p /\ sizes p <> [] /\ StronglySorted Z.lt (sizes p) /\
  length (buckets p) = length (sizes p) /\ length (bucketHits p) = length (sizes p) /\
  0 < smallLimit p /\ 0 < observeEvery p /\ 0 < calibrateThr p /\
  Forall (fun b => Bytes b = [] /\ Len b = 0 /\ Cap b <= smallLimit p) (smallPool p) /\
  Forall (Forall (fun b => Bytes b = [] /\ Len b = 0 /\ smallLimit p < Cap b)) (buckets p).
Proof.
  intros Hreach. pose proof (reachable_inv p Hreach) as Hinv.
  destruct (reachable_config p Hreach) as [Hoe Hct].
  assert (Hrest : forall b, at_rest b -> Bytes b = [] /\ Len b = 0).
  { intros b (Hwf & Hr & Hl). pose proof (Bytes_length b Hwf) as HB. unfold Len in *.
    split; [|lia]. destruct (Bytes b); [reflexivity | cbn in HB; lia]. }
  split; [apply Hinv|]. split; [apply Hinv|]. split; [apply Hinv|].
  split; [apply Hinv|]. split; [apply Hinv|].
  split; [apply (inv_smallLimit p Hinv)|]. split; [exact Hoe|]. split; [exact Hct|]. split.
  - eapply Forall_impl; [apply (inv_small p Hinv)|]. cbn. intros b [Hb Hc].
    destruct (Hrest b Hb). auto.
  - apply Forall_lookup. intros i bs Hbs.
    eapply Forall_impl; [apply (inv_buckets p Hinv i bs Hbs)|]. cbn. intros b (Hb & Hc & _).
    destruct (Hrest b Hb). auto.
Qed.

Lemma pool_state_invariant_witness :
  exists b p, oversized_round_trip = Some (b, p) /\
    defaultCap p ∈ sizes p /\
    Forall (Forall (fun b => Bytes b = [] /\ Len b = 0 /\ smallLimit p < Cap b)) (buckets p).
Proof.
  destruct oversized_round_trip_state as (b & p & Hrun & Hreach & _).
  destruct (pool_state_invariant p Hreach) as (Hd & _ & _ & _ & _ & _ & _ & _ & _ & Hb).
  exists b, p. auto.
Defined.

(** X16.  [Put] of a nil buffer does nothing.  [Put] of a buffer always
    returns, counts one put and no draw or allocation, and files the buffer
    reset: in the small sub-pool when its capacity is at most the
    small-object limit, whatever class that capacity belongs to, and
    otherwise in the sub-pool of the class [bucketIndex] gives for its
    capacity; every other sub-pool is as before. *)
Theorem Put_files_by_capacity (p : BufferPool) (b : Buffer) :
  reachable p -> buffer_wf b ->
  Put None p = Some p /\
  exists p', Put (Some b) p = Some p' /\
    puts p' = wrap64 (puts p + 1) /\ gets p' = gets p /\ allocs p' = allocs p /\
    sizes p' = sizes p /\ smallLimit p' = smallLimit p /\
    (Cap b <= smallLimit p ->
       smallPool p' = Reset b :: smallPool p /\ buckets p' = buckets p) /\
    (smallLimit p < Cap b ->
       smallPool p' = smallPool p /\
       exists (i : nat) old,
         Z.of_nat i = bucketIndex (sizes p) (Cap b) /\ buckets p !! i = Some old /\
         buckets p' = <[i := Reset b :: old]> (buckets p)).
Proof.
  intros Hreach Hwf. split; [reflexivity|].
  destruct (Put_placement b p (reachable_inv p Hreach) Hwf)
    as (p' & HP & Hpu & Hg & Ha & Hs & Hl & _ & _ & Hsmall & Hbig).
  exists p'. split; [exact HP|]. split; [exact Hpu|]. split; [exact Hg|].
  split; [exact Ha|]. split; [exact Hs|]. split; [exact Hl|]. split; [exact Hsmall|].
  intros Hc. destruct (Hbig Hc) as (Hsp & old & Hold & Hbk).
  split; [exact Hsp|]. exists (Z.to_nat (bucketIndex (sizes p) (Cap b))), old.
  split; [|split; assumption].
  pose proof (bucketIndex_range (sizes p) (Cap b)
                (inv_sizes_nonempty p (reachable_inv p Hreach))). lia.
Qed.

Lemma Put_files_by_capacity_witness :
  exists p p', NewBufferPoolWithOptions opts_16_32_64 = Some p /\
    Put (Some (NewBuffer 100)) p = Some p' /\
    puts p' = wrap64 (puts p + 1) /\ sizes p' = sizes p.
Proof.
  destruct new_pool_16_32_64 as (p & Hnew & Hreach).
  destruct (Put_files_by_capacity p (NewBuffer 100) Hreach)
    as (_ & p' & HP & Hputs & _ & _ & Hs & _).
  { apply NewBuffer_wf. unfold max_int. lia. }
  exists p, p'. auto.
Defined.

(** X17.  A returned buffer is recycled.  After [Put(b)], a [GetSized] for
    the capacity of [b] to which the sub-pool hands out the buffer it was
    given last returns [b] itself, reset and with its capacity, without an
    allocation; the sub-pools are then as they were before the [Put]. *)
Theorem returned_buffer_is_reused (p : BufferPool) (b : Buffer) :
  reachable p -> buffer_wf b ->
  exists p1 p2,
    Put (Some b) p = Some p1 /\
    GetSized (Some 0%nat) (Cap b) p1 = Some (Reset b, p2) /\
    allocs p2 = allocs p /\ gets p2 = wrap64 (gets p + 1) /\
    puts p2 = wrap64 (puts p + 1) /\
    smallPool p2 = smallPool p /\ buckets p2 = buckets p.
Proof.
  intros Hreach Hwf. pose proof (reachable_inv p Hreach) as Hinv.
  destruct (Put_placement b p Hinv Hwf)
    as (p1 & HP & Hpu & Hg & Ha & Hs & Hl & _ & _ & Hsmall & Hbig).
  exists p1. rewrite HP.
  assert (Hcap : 0 <= Cap b) by (unfold Cap, cap; lia).
  unfold GetSized, getSized.
  destruct (Z.ltb_spec (Cap b) 0); [lia|].
  change (smallLimit (count_get p1)) with (smallLimit p1).
  change (smallPool (count_get p1)) with (smallPool p1).
  change (buckets (count_get p1)) with (buckets p1).
  change (sizes (count_get p1)) with (sizes p1).
  rewrite Hl, Hs.
  assert (Hfit : fit (Cap b) (Reset b) = Some (Reset b)).
  { unfold fit. change (cap (buf (Reset b))) with (Cap b).
    destruct (Z.ltb_spec (Cap b) (Cap b)); [lia | reflexivity]. }
  destruct (Z.leb_spec (Cap b) (smallLimit p)) as [Hc|Hc].
  - destruct (Hsmall Hc) as [Hsp Hbk]. rewrite Hsp, Hbk. cbn [pool_get lookup list_lookup].
    rewrite Hfit. cbn [mbind option_bind]. eexists. split; [reflexivity|].
    split; [reflexivity|]. cbn. rewrite Hg. auto.
  - destruct (Hbig Hc) as (Hsp & old & Hold & Hbk).
    set (i := Z.to_nat (bucketIndex (sizes p) (Cap b))) in *.
    assert (Hi : (i < length (buckets p))%nat) by (eapply lookup_lt_Some; exact Hold).
    assert (Hidx : index (buckets p1) (bucketIndex (sizes p) (Cap b)) = Some (Reset b :: old)).
    { apply index_Some.
      pose proof (bucketIndex_range (sizes p) (Cap b) (inv_sizes_nonempty p Hinv)).
      split; [lia|]. fold i. rewrite Hbk. now apply list_lookup_insert_eq. }
    rewrite Hidx. cbn [mbind option_bind].
    destruct (index_in_range (sizes p) (bucketIndex (sizes p) (Cap b))) as (c & Hc').
    { apply bucketIndex_range. apply Hinv. }
    rewrite Hc'. cbn [mbind option_bind pool_get lookup list_lookup].
    rewrite Hfit. cbn [mbind option_bind]. eexists. split; [reflexivity|].
    split; [reflexivity|]. cbn. fold i. rewrite Hbk, Hsp, list_insert_insert_eq.
    rewrite (list_insert_id _ _ _ Hold), Hg. auto.
Qed.

Lemma returned_buffer_is_reused_witness :
  exists p p1 p2, NewBufferPoolWithOptions opts_16_32_64 = Some p /\
    Put (Some (NewBuffer 100)) p = Some p1 /\
    GetSized (Some 0%nat) (Cap (NewBuffer 100)) p1 = Some (Reset (NewBuffer 100), p2) /\
    allocs p2 = allocs p.
Proof.
  destruct new_pool_16_32_64 as (p & Hnew & Hreach).
  destruct (returned_buffer_is_reused p (NewBuffer 100) Hreach)
    as (p1 & p2 & HP & HG & Ha & _).
  { apply NewBuffer_wf. unfold max_int. lia. }
  exists p, p1, p2. auto.
Defined.

(** X18.  When the sub-pool has nothing to hand out, [GetSized(n)] for
    [n <= 2^62] allocates, and whenever it returns, that is whenever the
    runtime grants the allocation: with [m] the request, or zero for a
    negative one, the buffer is empty and has the capacity of the
    small-object limit when [m] is at most that limit, else of the class
    [chooseCap] gives for [m] when [m] fits in it, and else, [m] exceeding
    every class, of the least power of two that holds [m].  One draw and
    one allocation are counted and the sub-pools are as before. *)
Theorem GetSized_miss_allocates (p p' : BufferPool) (n : Z) (b : Buffer) :
  reachable p -> n <= 2 ^ 62 ->
  GetSized None n p = Some (b, p') ->
  exists c,
    chooseCap (sizes p) (Z.max 0 n) = Some c /\
    Cap b = (if Z.max 0 n <=? smallLimit p then smallLimit p
             else if Z.max 0 n <=? c then c else nextPowerOfTwo (Z.max 0 n)) /\
    Bytes b = [] /\
    allocs p' = wrap64 (allocs p + 1) /\ gets p' = wrap64 (gets p + 1) /\
    puts p' = puts p /\ smallPool p' = smallPool p /\ buckets p' = buckets p.
Proof.
  intros Hreach Hn Hret. unfold GetSized in Hret. rewrite getSized_clamp in Hret.
  assert (Hinv : pool_inv (count_get p)).
  { apply pool_inv_count_get. now apply reachable_inv. }
  destruct (getSized_miss (Z.max 0 n) (count_get p) Hinv ltac:(lia))
    as (b0 & c & Hc & HG & HB & HC).
  rewrite Hret in HG. injection HG as <- ->.
  exists c. split; [exact Hc|]. split; [exact HC|]. split; [exact HB|].
  cbn. auto.
Qed.

Lemma GetSized_miss_allocates_witness :
  exists p b p', NewBufferPoolWithOptions opts_16_32_64 = Some p /\
    GetSized None 100 p = Some (b, p') /\ Cap b = 128 /\ allocs p' = wrap64 (allocs p + 1).
Proof.
  destruct new_pool_16_32_64 as (p & Hnew & Hreach).
  destruct (GetSized None 100 p) as [[b p']|] eqn:HG; [|evaluate Hnew; evaluate HG].
  destruct (GetSized_miss_allocates p p' 100 b Hreach ltac:(lia) HG)
    as (c & Hc & HC & _ & Ha & _).
  exists p, b, p'. split; [exact Hnew|]. split; [exact HG|]. split; [|exact Ha].
  rewrite HC. evaluate Hnew. vm_compute in Hc. injection Hc as <-. reflexivity.
Defined.

(** X19.  Drawing a buffer, by [Get], [GetSized] or [Borrow], counts one
    draw and at most one allocation and nothing else: the default
    capacity, the classes, the small-object limit, the hit counters, the
    sample count, the calibration counter and the reports are as before.
    [Borrow] draws as [GetSized] does, and its release function returns the
    buffer as [Put] does. *)
Theorem drawing_leaves_calibration
    (p p' : BufferPool) (choice : option nat) (n : Z) (b : Buffer) :
  Get choice p = Some (b, p') \/ GetSized choice n p = Some (b, p') \/
  (exists release, Borrow choice n p = Some (b, release, p')) ->
  (gets p' = wrap64 (gets p + 1) /\ puts p' = puts p /\
   (allocs p' = allocs p \/ allocs p' = wrap64 (allocs p + 1)) /\
   defaultCap p' = defaultCap p /\ sizes p' = sizes p /\ smallLimit p' = smallLimit p /\
   bucketHits p' = bucketHits p /\ observed p' = observed p /\
   calibrations p' = calibrations p /\ reported p' = reported p) /\
  (forall release, Borrow choice n p = Some (b, release, p') ->
     GetSized choice n p = Some (b, p') /\
     forall b0 q, release b0 q = Put (Some b0) q).
Proof.
  intros H. split.
  - assert (HG : exists m, getSized choice m (count_get p) = Some (b, p')).
    { destruct H as [H | [H | (release & H)]]; [eexists; exact H | eexists; exact H |].
      unfold Borrow in H. destruct (getSized choice n (count_get p)) as [[b0 p0]|] eqn:E;
        [|discriminate].
      cbn in H. injection H as <- _ <-. eauto. }
    destruct HG as (m & HG). apply getSized_leaves in HG. cbn in HG.
    destruct HG as (? & ? & ? & ? & ? & ? & ? & ? & ? & ? & _). auto 12.
  - intros release HB. unfold Borrow in HB. unfold GetSized.
    destruct (getSized choice n (count_get p)) as [[b0 p0]|]; [|discriminate].
    cbn in HB. injection HB as <- <- <-. split; reflexivity.
Qed.

Lemma drawing_leaves_calibration_witness :
  exists p b p', NewBufferPoolWithOptions opts_16_32_64 = Some p /\
    GetSized None 100 p = Some (b, p') /\
    defaultCap p' = defaultCap p /\ bucketHits p' = bucketHits p.
Proof.
  destruct new_pool_16_32_64 as (p & Hnew & _).
  destruct (GetSized None 100 p) as [[b p']|] eqn:HG; [|evaluate Hnew; evaluate HG].
  destruct (drawing_leaves_calibration p p' None 100 b (or_intror (or_introl HG)))
    as ((_ & _ & _ & Hd & _ & _ & Hh & _) & _).
  exists p, b, p'. auto.
Defined.

(** X20.  What [Put] samples.  A buffer of capacity zero is not sampled:
    the sample count and the hit counters are as before.  A buffer of
    positive capacity whose sample does not complete a window of
    [observeEvery] samples adds one to the sample count and one to the hit
    counter of the class [bucketIndex] gives for its capacity, also when
    the buffer goes to the small sub-pool, and to no other; the default
    capacity, the calibration counter and the reports are as before. *)
Theorem Put_samples_capacity (p : BufferPool) (b : Buffer) :
  reachable p -> buffer_wf b ->
  exists p', Put (Some b) p = Some p' /\
    (Cap b = 0 ->
       observed p' = observed p /\ bucketHits p' = bucketHits p /\
       defaultCap p' = defaultCap p /\ calibrations p' = calibrations p /\
       reported p' = reported p) /\
    (0 < Cap b -> Z.rem (wrap64 (observed p + 1)) (observeEvery p) <> 0 ->
       observed p' = wrap64 (observed p + 1) /\
       length (bucketHits p') = length (bucketHits p) /\
       (forall (i : nat) h, bucketHits p !! i = Some h ->
          bucketHits p' !! i
          = Some (if decide (Z.of_nat i = bucketIndex (sizes p) (Cap b))
                  then wrap64 (h + 1) else h)) /\
       defaultCap p' = defaultCap p /\ calibrations p' = calibrations p /\
       reported p' = reported p).
Proof.
  intros Hreach Hwf. pose proof (reachable_inv p Hreach) as Hinv.
  destruct (Put_sampling b p Hinv Hwf) as (p1 & p' & Ho & HP & Hp').
  exists p'. split; [exact HP|].
  assert (Hf : observed p' = observed p1 /\ bucketHits p' = bucketHits p1 /\
               defaultCap p' = defaultCap p1 /\ calibrations p' = calibrations p1 /\
               reported p' = reported p1).
  { rewrite Hp'. cbn. auto. }
  destruct Hf as (-> & -> & -> & -> & ->).
  pose proof (bucketIndex_range (sizes p) (Cap b) (inv_sizes_nonempty p Hinv)) as Hidx.
  split.
  - intros Hz. rewrite Hz in Ho. unfold observeSize in Ho. cbn in Ho.
    injection Ho as <-. cbn. auto.
  - intros Hpos Hrem. rewrite observeSize_sample in Ho.
    + injection Ho as <-. cbn. unfold add_hit at 1. rewrite length_alter.
      split; [reflexivity|]. split; [reflexivity|]. split; [|auto].
      intros i h Hh. apply add_hit_lookup; [lia | exact Hh].
    + exact Hpos.
    + cbn. apply (reachable_config p Hreach).
    + cbn. rewrite (inv_hits_length p Hinv). exact Hidx.
    + cbn. exact Hrem.
Qed.

Lemma Put_samples_capacity_witness :
  exists p p', NewBufferPoolWithOptions opts_16_32_64 = Some p /\
    Put (Some (NewBuffer 20)) p = Some p' /\
    observed p' = wrap64 (observed p + 1) /\ bucketHits p' !! 1%nat = Some 1.
Proof.
  destruct new_pool_16_32_64 as (p & Hnew & Hreach).
  destruct (Put_samples_capacity p (NewBuffer 20) Hreach) as (p' & HP & _ & Hs).
  { apply NewBuffer_wf. unfold max_int. lia. }
  destruct Hs as (Ho & _ & Hh & _).
  { vm_compute. reflexivity. }
  { evaluate Hnew. vm_compute. discriminate. }
  exists p, p'. split; [exact Hnew|]. split; [exact HP|]. split; [exact Ho|].
  rewrite (Hh 1%nat 0); evaluate Hnew; reflexivity.
Defined.

(** X21.  Whenever [Get] returns, in any pool state and whichever buffer
    the sub-pool hands out, the buffer is empty and holds the default
    capacity: its capacity is at least the default capacity, and one draw
    is counted.  When the sub-pool has nothing to hand out and the
    default capacity is at most [2^62], the capacity is the larger of the
    default capacity and the small-object limit, and one allocation is
    counted. *)
Theorem Get_default_capacity (p p' : BufferPool) (choice : option nat) (b : Buffer) :
  reachable p -> Get choice p = Some (b, p') ->
  defaultCap p <= Cap b /\ Bytes b = [] /\ buffer_wf b /\
  gets p' = wrap64 (gets p + 1) /\
  (choice = None -> defaultCap p <= 2 ^ 62 ->
     Cap b = Z.max (defaultCap p) (smallLimit p) /\ allocs p' = wrap64 (allocs p + 1)).
Proof.
  intros Hreach HG. pose proof (reachable_inv p Hreach) as Hinv0.
  assert (Hinv : pool_inv (count_get p)) by now apply pool_inv_count_get.
  unfold Get in HG. change (defaultCap (count_get p)) with (defaultCap p) in HG.
  assert (Hpos : 0 < defaultCap p <= max_int).
  { pose proof (inv_sizes_range p Hinv0) as Hr. rewrite Forall_forall in Hr.
    apply (Hr _ (inv_defaultCap p Hinv0)). }
  assert (Hint : in_int (defaultCap p)) by (unfold in_int, min_int; lia).
  destruct (getSized_returns choice (defaultCap p) (count_get p) p' b Hinv Hint HG)
    as (Hc & Hwf & HB).
  split; [exact Hc|]. split; [exact HB|]. split; [exact Hwf|]. split.
  { apply getSized_leaves in HG. destruct HG as (-> & _). reflexivity. }
  intros -> Hd.
  destruct (getSized_miss (defaultCap p) (count_get p) Hinv ltac:(lia))
    as (b1 & c & Hcc & HG1 & _ & HC).
  rewrite HG in HG1. injection HG1 as <- ->.
  change (sizes (count_get p)) with (sizes p) in Hcc.
  rewrite (chooseCap_member (sizes p) (defaultCap p) (inv_sizes_sorted p Hinv0)
             (inv_defaultCap p Hinv0) ltac:(lia)) in Hcc.
  injection Hcc as <-. split; [|reflexivity].
  rewrite HC. change (smallLimit (count_get p)) with (smallLimit p).
  destruct (Z.leb_spec (defaultCap p) (smallLimit p)); [lia|].
  destruct (Z.leb_spec (defaultCap p) (defaultCap p)); lia.
Qed.

Lemma Get_default_capacity_witness :
  exists p b p', NewBufferPoolWithOptions opts_16_32_64 = Some p /\
    Get None p = Some (b, p') /\ Cap b = Z.max (defaultCap p) (smallLimit p).
Proof.
  destruct new_pool_16_32_64 as (p & Hnew & Hreach).
  destruct (Get None p) as [[b p']|] eqn:HG; [|evaluate Hnew; evaluate HG].
  destruct (Get_default_capacity p p' None b Hreach HG) as (_ & _ & _ & _ & Hmiss).
  exists p, b, p'. split; [exact Hnew|]. split; [exact HG|]. apply Hmiss.
  - reflexivity.
  - evaluate Hnew. vm_compute. discriminate.
Defined.

(** X22.  [Put] changes the default capacity only through a counted
    calibration.  Either the default capacity, the calibration counter
    and the reports are as before, or one calibration is counted, the
    default capacity is one of the classes, and a configured callback is
    called once, with the statistics of the pool after the update (the
    current [Put] included).  When the sample of a buffer of positive
    capacity completes a window of [observeEvery] samples, every hit
    counter is zero afterwards, whether a calibration was counted or
    not. *)
Theorem Put_calibration_outcome (p : BufferPool) (b : Buffer) :
  reachable p -> buffer_wf b ->
  exists p', Put (Some b) p = Some p' /\
    ((defaultCap p' = defaultCap p /\ calibrations p' = calibrations p /\
      reported p' = reported p) \/
     (defaultCap p' ∈ sizes p /\ calibrations p' = wrap64 (calibrations p + 1) /\
      reported p' = if metrics p then Stats p' :: reported p else reported p)) /\
    (0 < Cap b -> Z.rem (wrap64 (observed p + 1)) (observeEvery p) = 0 ->
       observed p' = wrap64 (observed p + 1) /\
       bucketHits p' = replicate (length (sizes p)) 0).
Proof.
  intros Hreach Hwf. pose proof (reachable_inv p Hreach) as Hinv.
  destruct (Put_sampling b p Hinv Hwf) as (p1 & p' & Ho & HP & Hp').
  exists p'. split; [exact HP|].
  assert (Hf : observed p' = observed p1 /\ bucketHits p' = bucketHits p1 /\
               defaultCap p' = defaultCap p1 /\ calibrations p' = calibrations p1 /\
               reported p' = reported p1 /\ Stats p' = Stats p1).
  { rewrite Hp'. cbn. auto 10. }
  destruct Hf as (-> & -> & -> & -> & -> & ->).
  set (p0 := set_counters (gets p) (wrap64 (puts p + 1)) (allocs p) p) in *.
  assert (Hinv0 : pool_inv p0).
  { apply (pool_inv_same_pools p); auto. apply Hinv. }
  split.
  - exact (observeSize_outcome _ _ p0 p1 Hinv0 Ho).
  - intros Hpos Hrem.
    pose proof (bucketIndex_range (sizes p) (Cap b) (inv_sizes_nonempty p Hinv)) as Hidx.
    rewrite observeSize_window in Ho.
    + apply recalibratePercentile_counters in Ho. cbn in Ho.
      destruct Ho as (_ & _ & _ & _ & _ & _ & Hob & _ & Hh).
      split; [exact Hob|]. rewrite Hh. unfold add_hit. rewrite length_alter.
      now rewrite (inv_hits_length p Hinv).
    + exact Hpos.
    + apply (reachable_config p Hreach).
    + change (bucketHits p0) with (bucketHits p). rewrite (inv_hits_length p Hinv). exact Hidx.
    + exact Hrem.
Qed.

Lemma Put_calibration_outcome_witness :
  exists p p', NewBufferPoolWithOptions opts_observe_each = Some p /\
    Put (Some (NewBuffer 100)) p = Some p' /\
    observed p' = wrap64 (observed p + 1) /\ bucketHits p' = [0; 0; 0].
Proof.
  destruct (NewBufferPoolWithOptions opts_observe_each) as [p|] eqn:Hnew; [|evaluate Hnew].
  assert (Hreach : reachable p).
  { eapply reach_new; [exact opts_observe_each_ok | exact Hnew]. }
  destruct (Put_calibration_outcome p (NewBuffer 100) Hreach) as (p' & HP & _ & Hw).
  { apply NewBuffer_wf. unfold max_int. lia. }
  destruct Hw as (Ho & Hh).
  { vm_compute. reflexivity. }
  { evaluate Hnew. vm_compute. reflexivity. }
  exists p, p'. split; [reflexivity|]. split; [exact HP|]. split; [exact Ho|].
  rewrite Hh. evaluate Hnew. reflexivity.
Defined.

(** X23.  What a calibration pass picks.  With one hit counter per class,
    no counter negative, their total at most [2^62] and the percentile
    above zero and at most one, as the constructor leaves it, the pass
    always returns and leaves every hit counter at zero.  Let [target] be the
    total multiplied by the percentile and truncated, or the total itself
    when that is not positive.  When the total is zero or below the
    threshold, or the target exceeds the total, the default capacity and
    the calibration counter are as before.  Otherwise one calibration is
    counted and the default capacity becomes the first class at which the
    running total of the hit counters reaches the target. *)
Theorem recalibratePercentile_picks_class (p : BufferPool) :
  length (bucketHits p) = length (sizes p) ->
  Forall (fun h => 0 <= h) (bucketHits p) -> sum_list (bucketHits p) <= 2 ^ 62 ->
  (0 <? percentile p)%float = true -> (percentile p <=? 1)%float = true ->
  let total := sum_list (bucketHits p) in
  let t := int64_of_float (float64_of_int total * percentile p) in
  let target := if t <=? 0 then total else t in
  exists p', recalibratePercentile p = Some p' /\
    bucketHits p' = replicate (length (sizes p)) 0 /\
    (total <= 0 \/ total < calibrateThr p \/ total < target ->
       defaultCap p' = defaultCap p /\ calibrations p' = calibrations p) /\
    (0 < total -> calibrateThr p <= total -> target <= total ->
       exists (i : nat) s, sizes p !! i = Some s /\ defaultCap p' = s /\
         calibrations p' = wrap64 (calibrations p + 1) /\
         sum_list (take i (bucketHits p)) < target
           <= sum_list (take (S i) (bucketHits p))).
Proof.
  intros Hlen Hnn Hsum62 _ _ total t target.
  assert (Hsum : sum_list (bucketHits p) <= max_int) by (unfold max_int; lia).
  unfold recalibratePercentile.
  rewrite (sum_counts_nowrap _ Hnn Hsum). fold total.
  cbn [calibrateThr set_sampling percentile sizes].
  fold t. fold target. rewrite Hlen.
  assert (Htarget : 0 < total -> 0 < target).
  { intros Hpos. unfold target. destruct (Z.leb_spec t 0); lia. }
  destruct (Z.leb_spec total 0) as [Hz|Hpos].
  { cbn [orb]. eexists. split; [reflexivity|]. cbn. split; [reflexivity|].
    split; [auto | intros; lia]. }
  destruct (Z.ltb_spec total (calibrateThr p)) as [Hthr|Hthr].
  { cbn [orb]. eexists. split; [reflexivity|]. cbn. split; [reflexivity|].
    split; [auto | intros; lia]. }
  cbn [orb].
  pose proof (percentile_class_first (bucketHits p) target 0 0 Hnn ltac:(lia)
                ltac:(fold total; lia) (Htarget Hpos)) as Hpc.
  destruct (percentile_class (bucketHits p) 0 0 target) as [i|].
  - destruct Hpc as (k & -> & Hk & Hb). rewrite Z.add_0_l.
    destruct (sizes p !! k) as [s|] eqn:Hs.
    2:{ apply lookup_ge_None in Hs. lia. }
    assert (Hidx : index (sizes p) (Z.of_nat k) = Some s).
    { apply index_Some. split; [lia|]. now rewrite Nat2Z.id. }
    rewrite Hidx. cbn [mbind option_bind]. eexists. split; [reflexivity|].
    assert (Hle : target <= total).
    { pose proof (take_drop (S k) (bucketHits p)) as Htd.
      assert (Hsplit : total = sum_list (take (S k) (bucketHits p))
                               + sum_list (drop (S k) (bucketHits p))).
      { unfold total. rewrite <- Htd at 1. apply sum_list_app. }
      pose proof (sum_list_nonneg (drop (S k) (bucketHits p))
                    (Forall_drop _ _ _ Hnn)). lia. }
    unfold report. destruct (metrics _); cbn.
    + split; [reflexivity|]. split; [intros [?|[?|?]]; lia|].
      intros _ _ _. exists k, s. split; [exact Hs|]. split; [reflexivity|].
      split; [reflexivity | lia].
    + split; [reflexivity|]. split; [intros [?|[?|?]]; lia|].
      intros _ _ _. exists k, s. split; [exact Hs|]. split; [reflexivity|].
      split; [reflexivity | lia].
  - eexists. split; [reflexivity|]. cbn. split; [reflexivity|].
    split; [auto|]. intros _ _ Hle. fold total in Hpc. lia.
Qed.

Lemma recalibratePercentile_picks_class_witness :
  exists p p', sampled_pool = Some p /\ recalibratePercentile p = Some p' /\
    defaultCap p' = 32 /\ bucketHits p' = [0; 0; 0].
Proof.
  destruct sampled_pool as [p|] eqn:Hp; [|evaluate Hp].
  destruct (recalibratePercentile_picks_class p) as (p' & HR & Hh & _ & Hpick).
  - evaluate Hp. reflexivity.
  - evaluate Hp. repeat constructor; lia.
  - evaluate Hp. vm_compute. discriminate.
  - evaluate Hp. vm_compute. reflexivity.
  - evaluate Hp. vm_compute. reflexivity.
  - exists p, p'. split; [reflexivity|]. split; [exact HR|]. split.
    + destruct Hpick as (i & s & Hs & Hd & _ & Hb).
      * evaluate Hp. vm_compute. reflexivity.
      * evaluate Hp. vm_compute. discriminate.
      * evaluate Hp. vm_compute. discriminate.
      * evaluate Hp. rewrite Hd.
        destruct i as [|[|[|i]]]; vm_compute in Hs, Hb;
          [destruct Hb as [_ Hb]; now contradiction Hb
          | now injection Hs as <-
          | destruct Hb as [Hb _]; discriminate Hb
          | discriminate Hs].
    + rewrite Hh. evaluate Hp. reflexivity.
Defined.

(** * Reading from a reader that fills the buffer *)

(** X24.  [ReadFrom] on a reader that holds the bytes [d], fills the slice
    it is offered at each call and then reports the end of data, as the
    [strings.Reader] of the tests does, always returns when the content
    stays within [2^62 - 512] bytes: it returns the number of bytes of [d]
    and no error, the unread content afterwards is the previous unread
    content followed by [d], and the capacity has not shrunk. *)
Theorem ReadFrom_filling_reader (d : list byte) (b : Buffer) :
  buffer_wf b -> Len b + Z.of_nat (length d) + minRead <= 2 ^ 62 ->
  exists b',
    ReadFrom (filling_reader (S (length d)) d (collapse b)) b
    = Some (b', (Z.of_nat (length d), None)) /\
    Bytes b' = Bytes b ++ d /\ Cap b <= Cap b' /\ buffer_wf b'.
Proof.
  intros Hwf Hsz. pose proof (collapse_wf b Hwf) as Hwf0.
  assert (HL0 : 0 <= Len (collapse b)).
  { destruct Hwf0 as (? & ? & ?). unfold Len. lia. }
  destruct (readFrom_loop_filling (S (length d)) d 0 (collapse b) Hwf0) as (b' & HR & HB).
  - lia.
  - now rewrite collapse_Len.
  - lia.
  - rewrite Z.add_0_l in HR. rewrite collapse_Bytes in HB by exact Hwf.
    exists b'. unfold ReadFrom. split; [exact HR|]. split; [exact HB|].
    assert (Hrd : Forall (fun a => Z.of_nat (length (a_data a)) <= max_int)
                    (filling_reader (S (length d)) d (collapse b))).
    { clear HR HB. generalize (S (length d)) as fuel. generalize (collapse b) as b0.
      revert Hsz. generalize d as d0. intros d0 Hsz b0 fuel. revert d0 Hsz b0.
      induction fuel as [|fuel IH]; intros d0 Hsz b0; cbn; [constructor|].
      destruct d0 as [|x d0]; [repeat constructor; cbn; unfold max_int; lia|].
      destruct (readFrom_space b0) as [b1|]; [|constructor].
      destruct (readFrom_take b1 _) as [[b2 n]|]; [|constructor].
      constructor.
      - cbn [a_data]. rewrite length_take.
        assert (0 <= Len b) by (destruct Hwf as (? & ? & ?); unfold Len; lia).
        unfold minRead, max_int in *. lia.
      - apply IH. rewrite length_drop.
        assert (0 <= Len b) by (destruct Hwf as (? & ? & ?); unfold Len; lia).
        cbn [length] in *. lia. }
    destruct (ReadFrom_inv _ b b' _ Hrd Hwf HR) as (Hwf' & _ & HC). auto.
Qed.

Lemma ReadFrom_filling_reader_witness :
  exists b',
    ReadFrom (filling_reader 5 (bytes_of "more") (collapse abcdefgh_read3)) abcdefgh_read3
    = Some (b', (4, None)) /\
    Bytes b' = Bytes abcdefgh_read3 ++ bytes_of "more".
Proof.
  destruct (ReadFrom_filling_reader (bytes_of "more") abcdefgh_read3) as (b' & HR & HB & _).
  - vm_compute. intuition discriminate.
  - vm_compute. discriminate.
  - exists b'. split; [exact HR | exact HB].
Defined.

(** * The default pool *)

(** X25.  [NewBufferPool(c)] never fails, whatever the [int] [c]: the pool
    has the default classes and the small-object limit 64, and its default
    capacity is the class [chooseCap] gives for [c], between 64 and 65536
    and at least [c] when [c] is at most 65536.  The first [Get] on it,
    the sub-pools being empty, allocates an empty buffer of exactly the
    default capacity, after which one draw and one allocation are
    counted. *)
Theorem NewBufferPool_first_Get (initialCap : Z) :
  in_int initialCap ->
  exists p b p',
    NewBufferPool initialCap = Some p /\
    sizes p = defaultBucketSizes /\ smallLimit p = 64 /\
    smallPool p = [] /\ buckets p = replicate (length (sizes p)) [] /\
    chooseCap defaultBucketSizes initialCap = Some (defaultCap p) /\
    64 <= defaultCap p <= 65536 /\ (initialCap <= 65536 -> initialCap <= defaultCap p) /\
    Get None p = Some (b, p') /\ Bytes b = [] /\ Cap b = defaultCap p /\
    Stats p' = Stats.mk 1 0 1 0 0 (defaultCap p) 64.
Proof.
  intros Hint.
  destruct (chooseCap_total defaultBucketSizes initialCap ltac:(discriminate))
    as (c & Hc & Hin).
  assert (Hrange : 64 <= c <= 65536).
  { clear -Hin. unfold defaultBucketSizes in Hin.
    repeat (apply elem_of_cons in Hin; destruct Hin as [->|Hin]; [lia|]).
    now apply elem_of_nil in Hin. }
  assert (Hfit : initialCap <= 65536 -> initialCap <= c).
  { intros Hle. destruct (Z.leb_spec initialCap 0) as [Hz|Hpos]; [lia|].
    destruct (chooseCap_positive defaultBucketSizes initialCap c
                defaultBucketSizes_sorted Hpos Hc) as [(_ & Hle' & _) | (Hall & _)];
      [exact Hle'|].
    rewrite Forall_forall in Hall.
    assert (Hlast : 65536 ∈ defaultBucketSizes).
    { apply list_elem_of_lookup. exists 10%nat. reflexivity. }
    specialize (Hall 65536 Hlast). lia. }
  destruct (NewBufferPoolWithOptions_inv
              (PoolOptions.mk [] initialCap false 0 0 0%float 0 false))
    as (p & Hnew & Hinv).
  { unfold options_ok, in_int, min_int, max_int. cbn. repeat split; try lia.
    - constructor.
    - apply Hint.
    - apply Hint. }
  assert (Hp : sizes p = defaultBucketSizes /\ smallLimit p = 64 /\ smallPool p = [] /\
               buckets p = replicate (length (sizes p)) [] /\ defaultCap p = c /\
               gets p = 0 /\ puts p = 0 /\ allocs p = 0 /\ calibrations p = 0 /\
               leaks p = 0).
  { unfold NewBufferPoolWithOptions in Hnew.
    cbn [PoolOptions.BucketSizes PoolOptions.InitialCap PoolOptions.ObserveEvery
         PoolOptions.SmallLimit PoolOptions.CalibrateThreshold PoolOptions.Percentile
         PoolOptions.DebugLeakDetection PoolOptions.Metrics] in Hnew.
    change (normalizeSizes []) with (@nil Z) in Hnew.
    change (Z.of_nat (length (@nil Z)) =? 0) with true in Hnew. cbv iota in Hnew.
    change (index defaultBucketSizes 0) with (Some 64) in Hnew.
    cbn [mbind option_bind] in Hnew. rewrite Hc in Hnew.
    cbn [mbind option_bind] in Hnew. injection Hnew as <-. cbn.
    repeat (split; [reflexivity|]). reflexivity. }
  destruct Hp as (Hs & Hl & Hsp & Hbk & Hd & Hg & Hpu & Ha & Hcal & Hlk).
  destruct (getSized_miss c (count_get p) (pool_inv_count_get p Hinv) ltac:(lia))
    as (b & c' & Hc' & HG & HB & HC).
  change (sizes (count_get p)) with (sizes p) in Hc'.
  change (smallLimit (count_get p)) with (smallLimit p) in HC.
  rewrite Hs in Hc'.
  rewrite (chooseCap_member defaultBucketSizes c defaultBucketSizes_sorted Hin
             ltac:(lia)) in Hc'.
  injection Hc' as <-.
  exists p, b, (count_alloc true (count_get p)).
  split; [exact Hnew|]. split; [exact Hs|]. split; [exact Hl|]. split; [exact Hsp|].
  split; [exact Hbk|]. rewrite Hd. split; [exact Hc|]. split; [exact Hrange|].
  split; [exact Hfit|]. split.
  { unfold Get. change (defaultCap (count_get p)) with (defaultCap p).
    rewrite Hd. exact HG. }
  split; [exact HB|]. split.
  - rewrite HC, Hl. destruct (Z.leb_spec c 64); [lia|].
    destruct (Z.leb_spec c c); lia.
  - unfold Stats. cbn. rewrite Hg, Hpu, Ha, Hcal, Hlk, Hd, Hl. reflexivity.
Qed.

Lemma NewBufferPool_first_Get_witness :
  exists p b p', NewBufferPool 1000 = Some p /\ defaultCap p = 1024 /\
    Get None p = Some (b, p') /\ Cap b = 1024.
Proof.
  destruct (NewBufferPool_first_Get 1000)
    as (p & b & p' & Hnew & _ & _ & _ & _ & Hc & _ & _ & HG & _ & HC & _).
  - unfold in_int, min_int, max_int. lia.
  - change (chooseCap defaultBucketSizes 1000) with (Some 1024) in Hc.
    injection Hc as Hd.
    exists p, b, p'. split; [exact Hnew|]. split; [now rewrite <- Hd|].
    split; [exact HG|]. now rewrite HC, <- Hd.
Defined.
